(** * Ant colony optimisation for the travelling salesman problem

    A shallow embedding of the optimisation engine of [ants/views.py]:
    [distance], [calculate_probabilities], [generate_paths],
    [update_pheromone] and the driver [ant_colony_optimization].

    Conventions of the embedding.
    - Python exceptions are the outcome [Raise e]; mutations made before an
      exception stay in the state, as they do in Python.
    - Floating point is not fixed to one implementation: all code is
      written over a class [NumEnv] that provides the binary64 operations
      of NumPy and of Python's [float], and the geodesic distance of geopy.
      Theorems that need no law of arithmetic hold for every such
      environment; theorems that need one say which, through [ZeroLaws]
      and [ExactLaws].
    - The dynamic type of a number matters in two places of the source
      (division by zero raises for [int] and [float] but not for
      [numpy.float64]); the type [num] keeps it.
    - [numpy.random.choice] is driven by a tape of draws, so every choice
      NumPy can make is the behaviour of some tape. *)

From Stdlib Require Import QArith.
From Stdlib Require PrimFloat FloatOps SpecFloat Uint63.
From stdpp Require Import base strings numbers list.

Local Open Scope nat_scope.

(** ** Exceptions and outcomes *)

Inductive exn : Set :=
| IndexError
| ValueError
| ZeroDivisionError
| TypeError
| OverflowError.

(** [OutOfFuel] is not a Python outcome: it marks a [while] loop of the
    model that used up its budget of iterations.  [walk_fuel_enough] below
    shows that the budget given by [generate_paths] is never used up, and
    [ant_colony_optimization_fueled] that no run of the driver ends so. *)
Inductive outcome (A : Type) : Type :=
| Ok (a : A)
| Raise (e : exn)
| OutOfFuel.

Arguments Ok {A} a.
Arguments Raise {A} e.
Arguments OutOfFuel {A}.

(** What a library function does: it returns or it raises. *)
Inductive result (A : Type) : Type :=
| Return (a : A)
| Throw (e : exn).

Arguments Return {A} a.
Arguments Throw {A} e.

Definition call {A} (r : result A) : outcome A :=
  match r with
  | Return a => Ok a
  | Throw e => Raise e
  end.

Definition obind {A B} (m : outcome A) (k : A → outcome B) : outcome B :=
  match m with
  | Ok a => k a
  | Raise e => Raise e
  | OutOfFuel => OutOfFuel
  end.

Notation "'let*' x ':=' m 'in' k" := (obind m (fun x => k))
  (at level 10, x pattern, m at level 100, k at level 200).

(** [l[i]] for a Python list or a NumPy axis and a non-negative index. *)
Definition getitem {A} (l : list A) (i : nat) : outcome A :=
  match l !! i with
  | Some x => Ok x
  | None => Raise IndexError
  end.

(** [l[i] = x]. *)
Definition setitem {A} (l : list A) (i : nat) (x : A) : outcome (list A) :=
  if decide (i < length l) then Ok (<[i := x]> l) else Raise IndexError.

(** [l[-1]]. *)
Definition getlast {A} (l : list A) : outcome A :=
  match l with
  | [] => Raise IndexError
  | _ => getitem l (length l - 1)
  end.

(** ** The numeric environment *)

Class NumEnv (F : Type) : Type := {
  (** the binary64 value of a numeric literal *)
  of_Q : Q → F;
  (** [np.inf] *)
  finf : F;
  (** NumPy's binary64 operations; none of them raises *)
  fadd : F → F → F;
  fsub : F → F → F;
  fmul : F → F → F;
  fdiv : F → F → F;
  fpow : F → F → F;
  fsqrt : F → F;
  (** [np.sum] of a one-dimensional array *)
  npsum : list F → F;
  (** the comparisons [<], [<=] and [==] *)
  flt : F → F → bool;
  fle : F → F → bool;
  feqb : F → F → bool;
  (** [np.isfinite]; the code does not call it, statements do *)
  ffinite : F → bool;
  (** [x ** y] on Python floats: raises [ZeroDivisionError] for
      [0.0 ** negative], [OverflowError] on overflow *)
  py_pow : F → F → result F;
  (** [int(x)]: raises on infinities and NaN *)
  py_int : F → result Z;
  (** the test [numpy.random.choice] makes on [p] *)
  valid_p : list F → bool;
  (** [geopy.distance.geodesic((lat1, lon1), (lat2, lon2)).kilometers];
      raises [ValueError] for a latitude out of range *)
  geodesic_km : F → F → F → F → result F;
}.

(** ** Numbers with their dynamic type *)

Inductive num (F : Type) : Type :=
| PyInt (z : Z)
| PyFloat (x : F)
| NpFloat (x : F).

Arguments PyInt {F} z.
Arguments PyFloat {F} x.
Arguments NpFloat {F} x.

Inductive speed_mode : Set := Fast | Slow.

Section Engine.

Context {F : Type} {NE : NumEnv F}.

(** The draws behind [numpy.random.choice]. *)
Variable tape : nat → nat.

Definition fzero : F := of_Q 0.
Definition fone : F := of_Q 1.

Definition CONVERSION_FACTOR : F := of_Q (11132 # 100).

(** The binary64 value of a number. *)
Definition to_F (a : num F) : F :=
  match a with
  | PyInt z => of_Q (inject_Z z)
  | PyFloat x => x
  | NpFloat x => x
  end.

(** [a + b]: the result is a NumPy scalar as soon as one operand is. *)
Definition num_add (a b : num F) : num F :=
  match a, b with
  | PyInt x, PyInt y => PyInt (x + y)
  | NpFloat _, _ | _, NpFloat _ => NpFloat (fadd (to_F a) (to_F b))
  | _, _ => PyFloat (fadd (to_F a) (to_F b))
  end.

Definition num_is_zero (a : num F) : bool :=
  match a with
  | PyInt z => (z =? 0)%Z
  | PyFloat x | NpFloat x => feqb x fzero
  end.

(** [a / b]: Python raises on a zero divisor, NumPy does not. *)
Definition num_truediv (a b : num F) : outcome (num F) :=
  match a, b with
  | NpFloat _, _ | _, NpFloat _ => Ok (NpFloat (fdiv (to_F a) (to_F b)))
  | _, _ =>
      if num_is_zero b then Raise ZeroDivisionError
      else Ok (PyFloat (fdiv (to_F a) (to_F b)))
  end.

(** [a ** y] for a Python float [y]. *)
Definition num_pow (a : num F) (y : F) : outcome (num F) :=
  match a with
  | NpFloat x => Ok (NpFloat (fpow x y))
  | _ => let* r := call (py_pow (to_F a) y) in Ok (PyFloat r)
  end.

Definition num_lt (a b : num F) : bool := flt (to_F a) (to_F b).
Definition num_eqb (a b : num F) : bool := feqb (to_F a) (to_F b).

(** [int(a)]. *)
Definition num_int (a : num F) : outcome Z :=
  match a with
  | PyInt z => Ok z
  | PyFloat x | NpFloat x => call (py_int x)
  end.

(** ** Points and [distance] *)

(** A row of the [points] array: the two coordinates of a location. *)
Record point : Type := Point { px : F; py : F }.

(** [distance(point1, point2, speed)].  In fast mode the array expression
    [np.sqrt(np.sum((point1 - point2) ** 2)) * CONVERSION_FACTOR] is
    spelled out on the two coordinates. *)
Definition distance (point1 point2 : point) (speed : speed_mode) : outcome (num F) :=
  match speed with
  | Fast =>
      let dx := fsub (px point1) (px point2) in
      let dy := fsub (py point1) (py point2) in
      let squares := [fpow dx (of_Q 2); fpow dy (of_Q 2)] in
      Ok (NpFloat (fmul (fsqrt (npsum squares)) CONVERSION_FACTOR))
  | Slow =>
      let* km := call (geodesic_km (px point1) (py point1) (px point2) (py point2)) in
      Ok (PyFloat km)
  end.

(** ** The state of a run *)

(** One line of [request.session["logs"]]: the source formats
    ["<km> km --> <path>"]; the model keeps the two fields. *)
Record log_entry : Type := LogEntry { log_km : Z; log_path : list nat }.

(** What a run can change: the pheromone array (one array, created by the
    driver and passed by reference), the position of NumPy's generator on
    the tape, and the three session keys the driver writes. *)
Record world : Type := World {
  w_pheromone : list (list F);
  w_rng : nat;
  w_logs : list log_entry;
  w_best_path : option (list string);
  w_best_path_length : option Z;
}.

Definition M (A : Type) : Type := world → outcome A * world.

Definition ret {A} (a : A) : M A := fun w => (Ok a, w).

Definition bind {A B} (m : M A) (k : A → M B) : M B :=
  fun w =>
    match m w with
    | (Ok a, w') => k a w'
    | (Raise e, w') => (Raise e, w')
    | (OutOfFuel, w') => (OutOfFuel, w')
    end.

Definition lift {A} (o : outcome A) : M A := fun w => (o, w).

Notation "'do' x '<-' m ';' k" := (bind m (fun x => k))
  (at level 10, x pattern, m at level 100, k at level 200).

Definition get_pheromone : M (list (list F)) := fun w => (Ok (w_pheromone w), w).

Definition put_pheromone (ph : list (list F)) : M unit :=
  fun w => (Ok tt, World ph (w_rng w) (w_logs w) (w_best_path w) (w_best_path_length w)).

Definition append_log (e : log_entry) : M unit :=
  fun w => (Ok tt, World (w_pheromone w) (w_rng w) (w_logs w ++ [e])
                         (w_best_path w) (w_best_path_length w)).

(** [np.random.choice(a, p=p)]: NumPy rejects an empty [a], a [p] of
    another size and a [p] that is no probability vector; otherwise it
    returns an element of [a], here the one the tape points at. *)
Definition choice (a : list nat) (p : list F) : M nat :=
  fun w =>
    if negb (length a =? 0) && (length p =? length a) && valid_p p then
      match a !! (tape (w_rng w) mod length a) with
      | Some x => (Ok x, World (w_pheromone w) (S (w_rng w)) (w_logs w)
                               (w_best_path w) (w_best_path_length w))
      | None => (Raise ValueError, w)
      end
    else (Raise ValueError, w).

(** ** [calculate_probabilities] *)

(** The right-hand side of the assignment in the loop:
    [pheromone[current_point, unvisited_point] ** alpha
     / distance(points[current_point], points[unvisited_point], speed) ** beta]. *)
Definition score (pheromone : list (list F)) (current_point unvisited_point : nat)
    (points : list point) (alpha beta : F) (speed : speed_mode) : outcome F :=
  let* row := getitem pheromone current_point in
  let* ph := getitem row unvisited_point in
  let numerator := fpow ph alpha in
  let* p1 := getitem points current_point in
  let* p2 := getitem points unvisited_point in
  let* d := distance p1 p2 speed in
  let* denominator := num_pow d beta in
  Ok (fdiv numerator (to_F denominator)).

(** [for i, unvisited_point in enumerate(unvisited): probabilities[i] = ...],
    from position [i] on. *)
Fixpoint fill_probabilities (pheromone : list (list F)) (current_point : nat)
    (points : list point) (alpha beta : F) (speed : speed_mode)
    (i : nat) (unvisited : list nat) (probabilities : list F) : outcome (list F) :=
  match unvisited with
  | [] => Ok probabilities
  | unvisited_point :: rest =>
      let* s := score pheromone current_point unvisited_point points alpha beta speed in
      let* probabilities' := setitem probabilities i s in
      fill_probabilities pheromone current_point points alpha beta speed
        (S i) rest probabilities'
  end.

Definition calculate_probabilities (pheromone : list (list F)) (current_point : nat)
    (unvisited : list nat) (points : list point) (alpha beta : F)
    (speed : speed_mode) : outcome (list F) :=
  let zeros := replicate (length unvisited) fzero in
  let* probabilities :=
    fill_probabilities pheromone current_point points alpha beta speed 0 unvisited zeros in
  let total := npsum probabilities in
  Ok (map (fun p => fdiv p total) probabilities).

(** ** [generate_paths] *)

(** [np.where(np.logical_not(visited))[0]]: the indices of the [False]
    entries, in increasing order; [k] is the index of the head. *)
Fixpoint where_not (k : nat) (visited : list bool) : list nat :=
  match visited with
  | [] => []
  | b :: rest => if b then where_not (S k) rest else k :: where_not (S k) rest
  end.

(** The local variables of one ant. *)
Record ant : Type := Ant {
  visited : list bool;
  current_point : nat;
  path : list nat;
  path_length : num F;
}.

(** The body of [while False in visited]. *)
Definition walk_step (points : list point) (alpha beta : F) (speed : speed_mode)
    (a : ant) : M ant :=
  let unvisited := where_not 0 (visited a) in
  do pheromone <- get_pheromone;
  do probabilities <-
    lift (calculate_probabilities pheromone (current_point a) unvisited
            points alpha beta speed);
  do next_point <- choice unvisited probabilities;
  do p1 <- lift (getitem points (current_point a));
  do p2 <- lift (getitem points next_point);
  do d <- lift (distance p1 p2 speed);
  do visited' <- lift (setitem (visited a) next_point true);
  ret (Ant visited' next_point (path a ++ [next_point]) (num_add (path_length a) d)).

(** [while False in visited: ...] with a budget of [fuel] iterations. *)
Fixpoint walk (points : list point) (alpha beta : F) (speed : speed_mode)
    (fuel : nat) (a : ant) : M ant :=
  if bool_decide (false ∈ visited a) then
    match fuel with
    | O => lift OutOfFuel
    | S fuel' =>
        do a' <- walk_step points alpha beta speed a;
        walk points alpha beta speed fuel' a'
    end
  else ret a.

(** The body of [for ant in range(ants)]: one ant's walk from
    [starting_point]. *)
Definition one_ant (starting_point n_locations : nat) (points : list point)
    (alpha beta : F) (speed : speed_mode) : M ant :=
  do visited0 <- lift (setitem (replicate n_locations false) starting_point true);
  walk points alpha beta speed n_locations
    (Ant visited0 starting_point [starting_point] (PyInt 0)).

(** [for ant in range(ants)], [k] ants to go. *)
Fixpoint ants_loop (k : nat) (starting_point n_locations : nat) (points : list point)
    (alpha beta : F) (speed : speed_mode)
    (paths : list (list nat)) (path_lengths : list (num F))
    : M (list (list nat) * list (num F)) :=
  match k with
  | O => ret (paths, path_lengths)
  | S k' =>
      do a <- one_ant starting_point n_locations points alpha beta speed;
      ants_loop k' starting_point n_locations points alpha beta speed
        (paths ++ [path a]) (path_lengths ++ [path_length a])
  end.

(** [generate_paths(ants, starting_point, n_locations, points, pheromone,
    alpha, beta, speed)]; the [pheromone] argument is the array of the
    state.  [range(ants)] is empty for [ants <= 0]. *)
Definition generate_paths (ants : Z) (starting_point n_locations : nat)
    (points : list point) (alpha beta : F) (speed : speed_mode)
    : M (list (list nat) * list (num F)) :=
  ants_loop (Z.to_nat ants) starting_point n_locations points alpha beta speed [] [].

(** ** [update_pheromone] *)

(** A [for] loop over [xs] that carries the value [s] from one iteration
    to the next. *)
Fixpoint for_loop {A S} (xs : list A) (body : A → S → M S) (s : S) : M S :=
  match xs with
  | [] => ret s
  | x :: rest => do s' <- body x s; for_loop rest body s'
  end.

(** [pheromone *= evaporation_rate]. *)
Definition evaporate (evaporation_rate : F) : M unit :=
  do pheromone <- get_pheromone;
  put_pheromone (map (map (fun x => fmul x evaporation_rate)) pheromone).

(** [pheromone[a, b] += Q / path_length]: the entry is read first, then
    the quotient is computed, then the sum is stored. *)
Definition deposit_edge (a b : nat) (Q : F) (path_length : num F) : M unit :=
  do pheromone <- get_pheromone;
  do row <- lift (getitem pheromone a);
  do old <- lift (getitem row b);
  do q <- lift (num_truediv (PyFloat Q) path_length);
  put_pheromone (<[a := <[b := fadd old (to_F q)]> row]> pheromone).

(** The body of [for path, path_length in zip(paths, path_lengths)]. *)
Definition deposit (path : list nat) (path_length : num F) (Q : F)
    (n_locations : nat) : M unit :=
  do _ <- for_loop (seq 0 (n_locations - 1))
            (fun i _ =>
               do a <- lift (getitem path i);
               do b <- lift (getitem path (i + 1));
               deposit_edge a b Q path_length) tt;
  do a <- lift (getlast path);
  do b <- lift (getitem path 0);
  deposit_edge a b Q path_length.

Definition update_pheromone (paths : list (list nat)) (path_lengths : list (num F))
    (evaporation_rate Q : F) (n_locations : nat) : M unit :=
  do _ <- evaporate evaporation_rate;
  for_loop (zip paths path_lengths)
    (fun pl _ => deposit (fst pl) (snd pl) Q n_locations) tt.

(** ** The driver *)

(** [min(l)] keeps the first element that no later element is [<] than.
    The result is an element of the list as an object: its position and
    its value. *)
Fixpoint py_min_from (l : list (num F)) (i : nat) (cur : nat * num F) : nat * num F :=
  match l with
  | [] => cur
  | x :: rest => py_min_from rest (S i) (if num_lt x (snd cur) then (i, x) else cur)
  end.

Definition py_min (l : list (num F)) : outcome (nat * num F) :=
  match l with
  | [] => Raise ValueError
  | x :: rest => Ok (py_min_from rest 1 (0, x))
  end.

(** [l.index(obj)] from position [i] on: the first element that is [obj]
    or is [==] to it. *)
Fixpoint py_index_from (l : list (num F)) (i : nat) (obj : nat * num F) : outcome nat :=
  match l with
  | [] => Raise ValueError
  | x :: rest =>
      if (i =? fst obj) || num_eqb x (snd obj) then Ok i
      else py_index_from rest (S i) obj
  end.

Definition py_index (l : list (num F)) (obj : nat * num F) : outcome nat :=
  py_index_from l 0 obj.

(** [paths[path_lengths.index(min(path_lengths))]]. *)
Definition min_path (paths : list (list nat)) (path_lengths : list (num F))
    : outcome (list nat) :=
  let* m := py_min path_lengths in
  let* i := py_index path_lengths m in
  getitem paths i.

(** The locals [best_path] and [best_path_length] of the driver. *)
Record best : Type := Best {
  best_path : option (list nat);
  best_path_length : num F;
}.

(** [[f(x) for x in xs]]. *)
Fixpoint comprehension {A B} (f : A → outcome B) (xs : list A) : outcome (list B) :=
  match xs with
  | [] => Ok []
  | x :: rest =>
      let* y := f x in
      let* ys := comprehension f rest in
      Ok (y :: ys)
  end.

(** A location [[id, x, y]]; the coordinates are taken as the numbers that
    [np.array(..., dtype=float)] reads from them. *)
Record location : Type := Location { loc_id : string; loc_x : F; loc_y : F }.

Section Run.

Variable locations : list location.
Variables ants iterations : Z.
Variables alpha beta evaporation_rate Q : F.
Variable speed : speed_mode.

Definition n_locations : nat := length locations.
Definition points : list point := map (fun l => Point (loc_x l) (loc_y l)) locations.

(** The body of the two nested loops: one round.  The [HttpResponse] the
    source builds after the log line is dropped at once and has no
    effect; [min(path_lengths)] and the path of that length are computed
    anew at each place the source computes them. *)
Definition round (starting_point : nat) (b : best) : M best :=
  do generated <- generate_paths ants starting_point n_locations points alpha beta speed;
  let paths := fst generated in
  let path_lengths := snd generated in
  do _ <- update_pheromone paths path_lengths evaporation_rate Q n_locations;
  do m <- lift (py_min path_lengths);
  do km <- lift (num_int (snd m));
  do p <- lift (min_path paths path_lengths);
  do _ <- append_log (LogEntry km p);
  do m' <- lift (py_min path_lengths);
  if num_lt (snd m') (best_path_length b) then
    do p' <- lift (min_path paths path_lengths);
    do m'' <- lift (py_min path_lengths);
    ret (Best (Some p') (snd m''))
  else ret b.

(** [for starting_point in range(n_locations):
       for iteration in range(iterations): ...]. *)
Definition rounds (b : best) : M best :=
  for_loop (seq 0 n_locations)
    (fun starting_point b1 =>
       for_loop (seq 0 (Z.to_nat iterations))
         (fun _ b2 => round starting_point b2) b1) b.

(** [ant_colony_optimization(request, locations, ants, iterations, alpha,
    beta, evaporation_rate, Q, speed)].  Iterating over [best_path] raises
    [TypeError] while it is still [None]. *)
Definition ant_colony_optimization : M (list string * list location) :=
  do _ <- put_pheromone (replicate n_locations (replicate n_locations fone));
  do b <- rounds (Best None (PyFloat finf));
  match best_path b with
  | None => lift (Raise TypeError)
  | Some bp =>
      do result_path <-
        lift (comprehension (fun i => let* l := getitem locations i in Ok (loc_id l)) bp);
      do result_locations <-
        lift (comprehension
                (fun i =>
                   let* id := getitem result_path i in
                   let* j := getitem bp i in
                   let* l := getitem locations j in
                   Ok (Location id (loc_x l) (loc_y l)))
                (seq 0 (length result_path)));
      do _ <- (fun w => (Ok tt, World (w_pheromone w) (w_rng w) (w_logs w)
                                      (Some result_path) (w_best_path_length w)));
      do km <- lift (num_int (best_path_length b));
      do _ <- (fun w => (Ok tt, World (w_pheromone w) (w_rng w) (w_logs w)
                                      (w_best_path w) (Some km)));
      ret (result_path, result_locations)
  end.

End Run.

End Engine.

Arguments point F : clear implicits.
Arguments world F : clear implicits.
Arguments M F A : clear implicits.
Arguments ant F : clear implicits.
Arguments best F : clear implicits.
Arguments location F : clear implicits.

Notation "'do' x '<-' m ';' k" := (bind m (fun x => k))
  (at level 10, x pattern, m at level 100, k at level 200).

(** * Vocabulary of the specification *)

(** The directed edges [(path[i], path[i+1])], [i] in [0..n-2]. *)
Definition open_edges (path : list nat) : list (nat * nat) :=
  zip path (tail path).

(** The edges of the closed tour: the open edges, then
    [(path[n-1], path[0])]. *)
Definition closed_edges (path : list nat) : list (nat * nat) :=
  zip path (tail path ++ take 1 path).

(** [path] visits each of the nodes [0..n-1] once, [start] first. *)
Definition is_tour (n start : nat) (path : list nat) : Prop :=
  path ≡ₚ seq 0 n ∧ head path = Some start.

Section Vocabulary.

Context {F : Type} {NE : NumEnv F}.

(** [distance(points[a], points[b], speed)]. *)
Definition distance_at (points : list (point F)) (speed : speed_mode)
    (a b : nat) : outcome (num F) :=
  let* p1 := getitem points a in
  let* p2 := getitem points b in
  distance p1 p2 speed.

(** The distances of [edges] added one after the other to [acc], in the
    order of the list. *)
Fixpoint add_distances (points : list (point F)) (speed : speed_mode)
    (acc : num F) (edges : list (nat * nat)) : outcome (num F) :=
  match edges with
  | [] => Ok acc
  | (a, b) :: rest =>
      let* d := distance_at points speed a b in
      add_distances points speed (num_add acc d) rest
  end.

(** The length of the open tour along [path], summed from the integer 0. *)
Definition open_length (points : list (point F)) (speed : speed_mode)
    (path : list nat) : outcome (num F) :=
  add_distances points speed (PyInt 0) (open_edges path).

(** What the loop of one ant keeps true: [visited] marks exactly the nodes
    of [path], which has no repetition and starts at [start]; the ant
    stands on the last node of [path], and [path_length] is the length of
    the open tour walked so far. *)
Definition ant_inv (points : list (point F)) (speed : speed_mode)
    (n start : nat) (a : ant F) : Prop :=
  length (visited a) = n ∧
  NoDup (path a) ∧
  (∀ i, i ∈ path a ↔ visited a !! i = Some true) ∧
  head (path a) = Some start ∧
  path a !! (length (path a) - 1) = Some (current_point a) ∧
  open_length points speed (path a) = Ok (path_length a).

(** [pheromone[i, j]] where it exists. *)
Definition entry (pheromone : list (list F)) (i j : nat) : option F :=
  match pheromone !! i with
  | Some row => row !! j
  | None => None
  end.

(** The amounts [Q / path_length] of the paths whose closed tour uses the
    edge [(i, j)], in the order of the paths. *)
Definition deposits_on (i j : nat) (Q : F)
    (tours : list (list nat * num F)) : list F :=
  map (fun pl => fdiv Q (to_F (snd pl)))
      (filter (fun pl => (i, j) ∈ closed_edges (fst pl)) tours).

(** The deposits of one path, edge by edge. *)
Definition deposit_edges (edges : list (nat * nat)) (Q : F) (l : num F) : M F unit :=
  for_loop edges (fun e _ => deposit_edge e.1 e.2 Q l) tt.

(** A finite value that is at least zero. *)
Definition nonneg (x : F) : Prop := ffinite x = true ∧ fle fzero x = true.

(** A finite value that is above zero. *)
Definition positive (x : F) : Prop := ffinite x = true ∧ flt fzero x = true.

(** A pair of coordinates geopy accepts: finite, the latitude within
    [-90, 90]. *)
Definition valid_coordinates (p : point F) : Prop :=
  ffinite (px p) = true ∧ ffinite (py p) = true ∧
  fle (of_Q (-90)) (px p) = true ∧ fle (px p) (of_Q 90) = true.

(** The two operations of the pheromone matrix behind [update_pheromone]. *)
Inductive matrix_op : Type :=
| Evaporate (evaporation_rate : F)
| Deposit (path : list nat) (path_length : num F) (Q : F).

Definition run_op (n_locations : nat) (o : matrix_op) : M F unit :=
  match o with
  | Evaporate evaporation_rate => evaporate evaporation_rate
  | Deposit path path_length Q => deposit path path_length Q n_locations
  end.

Definition run_ops (n_locations : nat) (ops : list matrix_op) : M F unit :=
  for_loop ops (fun o _ => run_op n_locations o) tt.

(** An operation within the bounds of the invariant on the matrix. *)
Definition op_in_range (o : matrix_op) : Prop :=
  match o with
  | Evaporate evaporation_rate => nonneg evaporation_rate
  | Deposit _ path_length Q => nonneg Q ∧ positive (to_F path_length)
  end.

Definition all_entries (P : F → Prop) (pheromone : list (list F)) : Prop :=
  Forall (Forall P) pheromone.

(** The order in which the driver runs its rounds: the start node of each. *)
Definition round_starts (n_locations : nat) (iterations : Z) : list nat :=
  flat_map (fun s => replicate (Z.to_nat iterations) s) (seq 0 n_locations).

(** [b'] is no worse than [b], by the comparison the driver uses. *)
Definition not_longer (b' b : best F) : Prop :=
  best_path_length b' = best_path_length b ∨
  num_lt (best_path_length b') (best_path_length b) = true.

(** The state of a run that has created its matrix and done nothing
    else: no path built, no evaporation, no deposit, no log line. *)
Definition no_round_run (n_locations : nat) (w0 w' : world F) : Prop :=
  w_pheromone w' = replicate n_locations (replicate n_locations fone) ∧
  w_rng w' = w_rng w0 ∧ w_logs w' = w_logs w0 ∧
  w_best_path w' = w_best_path w0 ∧
  w_best_path_length w' = w_best_path_length w0.

(** A run that stops with an error before any round has begun. *)
Definition fails_fast {A} (n_locations : nat) (w0 : world F)
    (r : outcome A * world F) : Prop :=
  ∃ e, r.1 = Raise e ∧ (r.2 = w0 ∨ no_round_run n_locations w0 r.2).

(** The state [w] with another matrix. *)
Definition with_pheromone (w : world F) (pheromone : list (list F)) : world F :=
  World pheromone (w_rng w) (w_logs w) (w_best_path w) (w_best_path_length w).

(** The matrix after the evaporation of the first round. *)
Definition evaporated_once (n_locations : nat) (evaporation_rate : F) : list (list F) :=
  map (map (fun x => fmul x evaporation_rate))
      (replicate n_locations (replicate n_locations fone)).

End Vocabulary.

Arguments matrix_op F : clear implicits.

(** * Laws of the arithmetic

    [ZeroLaws] lists what the distance of a point to itself rests on.  The
    first five are true of binary64; the sixth is a fact about geopy: the
    geodesic distance from a place to itself is zero. *)

Record ZeroLaws (F : Type) (NE : NumEnv F) : Prop := {
  sub_same : ∀ x : F, ffinite x = true → fsub x x = fzero;
  square_zero : fpow fzero (of_Q 2) = fzero;
  sum_zero : npsum [fzero; fzero] = fzero;
  sqrt_zero : fsqrt fzero = fzero;
  mul_zero : fmul fzero CONVERSION_FACTOR = fzero;
  geodesic_same : ∀ p : point F, valid_coordinates p →
                  geodesic_km (px p) (py p) (px p) (py p) = Return fzero;
}.

(** Binary64 rounds and overflows; [ExactLaws] are facts of arithmetic
    that does neither, stated for finite values. *)

Record ExactLaws (F : Type) (NE : NumEnv F) : Prop := {
  nonneg_add : ∀ a b : F, nonneg a → nonneg b → nonneg (fadd a b);
  nonneg_mul : ∀ a b : F, nonneg a → nonneg b → nonneg (fmul a b);
  nonneg_div : ∀ a b : F, nonneg a → positive b → nonneg (fdiv a b);
  finite_zero : ffinite (fzero : F) = true;
  finite_add : ∀ a b : F, ffinite a = true → ffinite b = true → ffinite (fadd a b) = true;
  npsum_nil : npsum [] = fzero;
  npsum_cons : ∀ (x : F) (l : list F), npsum (x :: l) = fadd x (npsum l);
  div_add : ∀ a b c : F, ffinite a = true → ffinite b = true → positive c →
            fdiv (fadd a b) c = fadd (fdiv a c) (fdiv b c);
  div_zero : ∀ c : F, positive c → fdiv fzero c = fzero;
  div_same : ∀ c : F, positive c → fdiv c c = fone;
}.

(** * A test arithmetic: rationals with infinities and NaN

    An environment to run the engine on concrete inputs.  Finite values are
    rationals, kept in lowest terms, and are computed without rounding;
    the infinities and NaN behave as in binary64.  Three operations are
    stand-ins, documented where they are defined: powers with an exponent
    that is no integer, square roots of numbers that are no squares, and
    the geodesic distance. *)

Inductive xq : Set :=
| Fin (q : Q)
| PInf
| NInf
| NaN.

Definition xq_sign (a : xq) : comparison :=
  match a with
  | Fin q => (q ?= 0)%Q
  | PInf => Gt
  | NInf => Lt
  | NaN => Eq
  end.

Definition xq_neg (a : xq) : xq :=
  match a with
  | Fin q => Fin (Qred (- q))
  | PInf => NInf
  | NInf => PInf
  | NaN => NaN
  end.

Definition xq_add (a b : xq) : xq :=
  match a, b with
  | Fin x, Fin y => Fin (Qred (x + y))
  | NaN, _ | _, NaN => NaN
  | PInf, NInf | NInf, PInf => NaN
  | PInf, _ | _, PInf => PInf
  | NInf, _ | _, NInf => NInf
  end.

Definition xq_sub (a b : xq) : xq := xq_add a (xq_neg b).

Definition xq_mul (a b : xq) : xq :=
  match a, b with
  | Fin x, Fin y => Fin (Qred (x * y))
  | NaN, _ | _, NaN => NaN
  | _, _ =>
      match xq_sign a, xq_sign b with
      | Eq, _ | _, Eq => NaN
      | Gt, Gt | Lt, Lt => PInf
      | _, _ => NInf
      end
  end.

(** Division by zero gives an infinity or NaN, as in NumPy; zero has no
    sign here and counts as [+0]. *)
Definition xq_div (a b : xq) : xq :=
  match a, b with
  | NaN, _ | _, NaN => NaN
  | Fin x, Fin y =>
      match (y ?= 0)%Q with
      | Eq => match (x ?= 0)%Q with Eq => NaN | Gt => PInf | Lt => NInf end
      | _ => Fin (Qred (x / y))
      end
  | Fin _, _ => Fin 0
  | _, Fin y =>
      match xq_sign a, (y ?= 0)%Q with
      | Gt, Lt | Lt, Gt | Lt, Eq => NInf
      | _, _ => PInf
      end
  | _, _ => NaN
  end.

(** [a ** y] for an integer [y]; other exponents are outside this
    arithmetic and give NaN. *)
Definition xq_pow (a y : xq) : xq :=
  match y with
  | Fin e =>
      let e' := Qred e in
      if (Qden e' =? 1)%positive then
        let k := Qnum e' in
        match a with
        | Fin b =>
            if (k <? 0)%Z && Qeq_bool b 0 then PInf else Fin (Qred (b ^ k))
        | PInf => if (k =? 0)%Z then Fin 1 else if (0 <? k)%Z then PInf else Fin 0
        | NInf =>
            if (k =? 0)%Z then Fin 1
            else if (0 <? k)%Z then (if Z.even k then PInf else NInf)
            else Fin 0
        | NaN => if (k =? 0)%Z then Fin 1 else NaN
        end
      else NaN
  | _ => NaN
  end.

(** The square root, exact on squares of rationals and rounded down to a
    multiple of [1 / (10^6 * den)] otherwise. *)
Definition xq_sqrt (a : xq) : xq :=
  match a with
  | Fin q =>
      if Qle_bool 0 q then
        Fin (Qred (Z.sqrt (Qnum q * Zpos (Qden q) * 10 ^ 12) # (Qden q * 10 ^ 6)))
      else NaN
  | PInf => PInf
  | _ => NaN
  end.

Definition xq_sum (l : list xq) : xq := foldr xq_add (Fin 0) l.

Definition xq_le (a b : xq) : bool :=
  match a, b with
  | NaN, _ | _, NaN => false
  | Fin x, Fin y => Qle_bool x y
  | NInf, _ | _, PInf => true
  | _, _ => false
  end.

Definition xq_lt (a b : xq) : bool :=
  match a, b with
  | NaN, _ | _, NaN => false
  | Fin x, Fin y => negb (Qle_bool y x)
  | PInf, _ | _, NInf => false
  | _, _ => true
  end.

Definition xq_eqb (a b : xq) : bool :=
  match a, b with
  | Fin x, Fin y => Qeq_bool x y
  | PInf, PInf | NInf, NInf => true
  | _, _ => false
  end.

Definition xq_finite (a : xq) : bool :=
  match a with
  | Fin _ => true
  | _ => false
  end.

Definition xq_py_pow (a y : xq) : result xq :=
  match a, y with
  | Fin b, Fin e =>
      if Qeq_bool b 0 && negb (Qle_bool 0 e) then Throw ZeroDivisionError
      else Return (xq_pow a y)
  | _, _ => Return (xq_pow a y)
  end.

Definition xq_py_int (a : xq) : result Z :=
  match a with
  | Fin q => Return (Z.quot (Qnum q) (Zpos (Qden q)))
  | NaN => Throw ValueError
  | _ => Throw OverflowError
  end.

Definition xq_valid_p (l : list xq) : bool :=
  forallb (fun p => xq_finite p && xq_le (Fin 0) p) l && xq_eqb (xq_sum l) (Fin 1).

Definition xq_abs (a : xq) : xq :=
  match xq_sign a with
  | Lt => xq_neg a
  | _ => a
  end.

(** A stand-in for geopy's geodesic: it rejects what geopy rejects, and
    measures the other pairs by the sum of the two coordinate differences,
    at [CONVERSION_FACTOR] kilometres per degree. *)
Definition xq_geodesic_km (lat1 lon1 lat2 lon2 : xq) : result xq :=
  if xq_finite lon1 && xq_finite lon2
     && xq_le (Fin (-90)) lat1 && xq_le lat1 (Fin 90)
     && xq_le (Fin (-90)) lat2 && xq_le lat2 (Fin 90)
  then Return (xq_mul (xq_add (xq_abs (xq_sub lat1 lat2)) (xq_abs (xq_sub lon1 lon2)))
                      (Fin (2783 # 25)))
  else Throw ValueError.

#[global] Instance xq_env : NumEnv xq := {|
  of_Q q := Fin (Qred q);
  finf := PInf;
  fadd := xq_add;
  fsub := xq_sub;
  fmul := xq_mul;
  fdiv := xq_div;
  fpow := xq_pow;
  fsqrt := xq_sqrt;
  npsum := xq_sum;
  flt := xq_lt;
  fle := xq_le;
  feqb := xq_eqb;
  ffinite := xq_finite;
  py_pow := xq_py_pow;
  py_int := xq_py_int;
  valid_p := xq_valid_p;
  geodesic_km := xq_geodesic_km;
|}.

(** ** Concrete inputs *)

(** A generator that always draws position 0: every ant moves to the
    unvisited node of least index. *)
Definition first_tape : nat → nat := fun _ => 0.

(** A generator that always draws position 1. *)
Definition second_tape : nat → nat := fun _ => 1.

(** The state in which [config] calls the driver: no matrix yet, the log
    emptied, no result in the session. *)
Definition fresh_world : world xq := World [] 0 [] None None.

(** Three places on a line, one degree apart. *)
Definition three_places : list (location xq) :=
  [Location "a" (Fin 0) (Fin 0); Location "b" (Fin 0) (Fin 1); Location "c" (Fin 0) (Fin 2)].

Definition one_place : list (location xq) := [Location "a" (Fin 0) (Fin 0)].

(** Two places with the same coordinates. *)
Definition twin_places : list (location xq) :=
  [Location "a" (Fin 0) (Fin 0); Location "b" (Fin 0) (Fin 0)].

(** The state at the first round of a run on three places. *)
Definition ones_world : world xq :=
  World (replicate 3 (replicate 3 (Fin 1))) 0 [] None None.

(** * Binary64

    The arithmetic of the program itself, on Rocq's primitive floats: an
    environment to see what rounding does.  Sums, differences, products,
    quotients, square roots and comparisons are the IEEE 754 operations of
    binary64, which are those of NumPy and of Python's [float].  What is
    not an IEEE operation is given as far as the inputs below need it, and
    each definition says how far that is. *)

Definition b64_of_Z (z : Z) : PrimFloat.float :=
  match z with
  | Z0 => PrimFloat.zero
  | Zpos _ => PrimFloat.of_uint63 (Uint63.of_Z z)
  | Zneg p => PrimFloat.opp (PrimFloat.of_uint63 (Uint63.of_Z (Zpos p)))
  end.

(** The binary64 number nearest to [q], for a numerator and a denominator
    below [2^53]: both are then binary64 numbers and their quotient is
    rounded once. *)
Definition b64_of_Q (q : Q) : PrimFloat.float :=
  PrimFloat.div (b64_of_Z (Qnum q)) (b64_of_Z (Zpos (Qden q))).

(** [x ** y] for the exponents 0, 1 and 2: NumPy returns 1, [x] and
    [x * x] for them.  The other exponents are outside this environment;
    it answers NaN for them. *)
Definition b64_pow (x y : PrimFloat.float) : PrimFloat.float :=
  if PrimFloat.eqb y PrimFloat.zero then PrimFloat.one
  else if PrimFloat.eqb y PrimFloat.one then x
  else if PrimFloat.eqb y PrimFloat.two then PrimFloat.mul x x
  else PrimFloat.nan.

(** [np.sum] of an array of fewer than eight numbers: NumPy adds them from
    left to right, beginning with 0.  (It adds longer arrays in blocks;
    this environment keeps the order from left to right for them.) *)
Definition b64_sum (l : list PrimFloat.float) : PrimFloat.float :=
  fold_left PrimFloat.add l PrimFloat.zero.

(** The integer part of a finite number, read from its sign, mantissa and
    exponent. *)
Definition b64_trunc (x : PrimFloat.float) : Z :=
  match FloatOps.Prim2SF x with
  | SpecFloat.S754_finite s m e =>
      let magnitude :=
        if (0 <=? e)%Z then (Zpos m * 2 ^ e)%Z else (Zpos m / 2 ^ (- e))%Z in
      if s then (- magnitude)%Z else magnitude
  | _ => 0%Z
  end.

(** Python's [x ** y] on floats, for the exponents 0, 1 and 2, with its
    [OverflowError]; NaN for the other exponents, as in [b64_pow]. *)
Definition b64_py_pow (x y : PrimFloat.float) : result PrimFloat.float :=
  let r := b64_pow x y in
  if PrimFloat.is_finite x && PrimFloat.is_infinity r then Throw OverflowError
  else Return r.

Definition b64_py_int (x : PrimFloat.float) : result Z :=
  if PrimFloat.is_nan x then Throw ValueError
  else if PrimFloat.is_infinity x then Throw OverflowError
  else Return (b64_trunc x).

(** The sum [numpy.random.choice] takes of [p], with Kahan's
    compensation. *)
Fixpoint b64_kahan (l : list PrimFloat.float) (sum c : PrimFloat.float)
    : PrimFloat.float :=
  match l with
  | [] => sum
  | x :: rest =>
      let y := PrimFloat.sub x c in
      let t := PrimFloat.add sum y in
      b64_kahan rest t (PrimFloat.sub (PrimFloat.sub t sum) y)
  end.

(** The test of [numpy.random.choice] on [p]: no NaN, nothing negative,
    and a sum within the square root of the machine epsilon of 1. *)
Definition b64_valid_p (l : list PrimFloat.float) : bool :=
  match l with
  | [] => false
  | x :: rest =>
      let total := b64_kahan rest x PrimFloat.zero in
      let atol := PrimFloat.sqrt (b64_of_Q (1 # 4503599627370496)) in
      negb (PrimFloat.is_nan total)
      && forallb (fun p => negb (PrimFloat.ltb p PrimFloat.zero)) l
      && PrimFloat.leb (PrimFloat.abs (PrimFloat.sub total PrimFloat.one)) atol
  end.

(** geopy's geodesic is not computed here: the environment has the
    stand-in of the test arithmetic (the sum of the two coordinate
    differences, at 111.32 kilometres per degree), and nothing below runs
    the mode that calls it. *)
Definition b64_geodesic_km (lat1 lon1 lat2 lon2 : PrimFloat.float)
    : result PrimFloat.float :=
  if PrimFloat.is_finite lon1 && PrimFloat.is_finite lon2
     && PrimFloat.leb (b64_of_Q (-90)) lat1 && PrimFloat.leb lat1 (b64_of_Q 90)
     && PrimFloat.leb (b64_of_Q (-90)) lat2 && PrimFloat.leb lat2 (b64_of_Q 90)
  then Return (PrimFloat.mul
                 (PrimFloat.add (PrimFloat.abs (PrimFloat.sub lat1 lat2))
                                (PrimFloat.abs (PrimFloat.sub lon1 lon2)))
                 (b64_of_Q (11132 # 100)))
  else Throw ValueError.

#[global] Instance b64_env : NumEnv PrimFloat.float := {|
  of_Q := b64_of_Q;
  finf := PrimFloat.infinity;
  fadd := PrimFloat.add;
  fsub := PrimFloat.sub;
  fmul := PrimFloat.mul;
  fdiv := PrimFloat.div;
  fpow := b64_pow;
  fsqrt := PrimFloat.sqrt;
  npsum := b64_sum;
  flt := PrimFloat.ltb;
  fle := PrimFloat.leb;
  feqb := PrimFloat.eqb;
  ffinite := PrimFloat.is_finite;
  py_pow := b64_py_pow;
  py_int := b64_py_int;
  valid_p := b64_valid_p;
  geodesic_km := b64_geodesic_km;
|}.

(** The value of a finite binary64 number as a rational. *)
Definition b64_value (x : PrimFloat.float) : option Q :=
  match FloatOps.Prim2SF x with
  | SpecFloat.S754_zero _ => Some 0%Q
  | SpecFloat.S754_finite s m e =>
      let magnitude := (inject_Z (Zpos m) * Qpower 2 e)%Q in
      Some (Qred (if s then - magnitude else magnitude))
  | _ => None
  end.

(** The sum of the values of [l], without rounding. *)
Fixpoint b64_exact_sum (l : list PrimFloat.float) : option Q :=
  match l with
  | [] => Some 0%Q
  | x :: rest =>
      match b64_value x, b64_exact_sum rest with
      | Some v, Some total => Some (Qred (v + total))
      | _, _ => None
      end
  end.

(** A place and six places at five degrees from it. *)
Definition ring_points : list (point PrimFloat.float) :=
  map (fun c => Point (b64_of_Q (inject_Z c.1)) (b64_of_Q (inject_Z c.2)))
      [(0, 0); (5, 0); (0, 5); (3, 4); (4, 3); (-3, 4); (-4, 3)]%Z.

(** * The views that change the session

    [delete_city] and [config] of [ants/views.py].  The other views render
    a template from the session or call the geocoding service; they are
    outside the embedding. *)

(** What a view answers: an empty response (status 204) with the names of
    the events of its [HX-Trigger] header, or a rendered template. *)
Inductive response : Set :=
| NoContent (triggers : list string)
| Page (template : string).

Section Views.

Context {F : Type} {NE : NumEnv F}.

(** The draws behind [numpy.random.choice]. *)
Variable tape : nat → nat.

(** [form.cleaned_data] of a valid [ConfigForm]; the two choices of the
    [speed] field are ["fast"] and ["slow"]. *)
Record params : Type := Params {
  p_ants : Z;
  p_iterations : Z;
  p_alpha : F;
  p_beta : F;
  p_evaporation_rate : F;
  p_q : F;
  p_speed : speed_mode;
}.

(** The keys of [request.session] the views use; [None] is a missing key. *)
Record session : Type := Session {
  s_cities : option (list (location F));
  s_result : option bool;
  s_logs : option (list log_entry);
  s_params : option params;
  s_best_path : option (list string);
  s_best_path_length : option Z;
}.

(** [delete_city(request, index)].  The route takes [index] from the URL;
    the view checks it against the list whatever its sign. *)
Definition delete_city (index : Z) (s : session) : response * session :=
  let cities := default [] (s_cities s) in
  if ((0 <=? index)%Z && (index <? Z.of_nat (length cities))%Z)%bool then
    (NoContent ["citiesListChanged"],
     Session (Some (delete (Z.to_nat index) cities)) (s_result s) (s_logs s)
             (s_params s) (s_best_path s) (s_best_path_length s))
  else (NoContent ["citiesListChanged"], s).

(** [config(request)].  [post] says whether the method is POST and [form]
    is the cleaned data of the form when it is valid.  The bare [except]
    of the view swallows whatever the driver raises; what the driver wrote
    to the session before stays.  The last argument and result is the
    position of NumPy's generator.  (The driver never ends for lack of
    fuel, see [ant_colony_optimization_fueled]; the match treats that
    outcome like an exception.) *)
Definition config (post : bool) (form : option params) (s : session) (rng : nat)
    : response * session * nat :=
  let cleared :=
    Session (s_cities s) (Some false) (Some []) (s_params s)
            (s_best_path s) (s_best_path_length s) in
  match s_cities s with
  | Some (c :: cs) =>
      if post then
        match form with
        | Some p =>
            let w := World [] rng [] (s_best_path s) (s_best_path_length s) in
            match ant_colony_optimization tape (c :: cs) (p_ants p) (p_iterations p)
                    (p_alpha p) (p_beta p) (p_evaporation_rate p) (p_q p)
                    (p_speed p) w with
            | (Ok output, w') =>
                (NoContent ["citiesListChanged"; "logsListChanged"; "paramsListChanged"],
                 Session (Some output.2) (Some true) (Some (w_logs w')) (Some p)
                         (w_best_path w') (w_best_path_length w'),
                 w_rng w')
            | (_, w') =>
                (Page "ants/config.html",
                 Session (s_cities s) (Some false) (Some (w_logs w')) (s_params s)
                         (w_best_path w') (w_best_path_length w'),
                 w_rng w')
            end
        | None => (Page "ants/config.html", cleared, rng)
        end
      else (Page "ants/config.html", cleared, rng)
  | _ => (Page "ants/config.html", cleared, rng)
  end.

(** The session as [config] leaves it when it runs nothing: [result] is
    [False], [logs] is empty, the other keys are as they were. *)
Definition reset_result (s : session) : session :=
  Session (s_cities s) (Some false) (Some []) (s_params s)
          (s_best_path s) (s_best_path_length s).

End Views.

Arguments params F : clear implicits.
Arguments session F : clear implicits.

(** * More vocabulary *)

Section MoreVocabulary.

Context {F : Type} {NE : NumEnv F}.

(** The shape of a matrix: the length of each row. *)
Definition shape (pheromone : list (list F)) : list nat := map length pheromone.

(** [m] keeps [I] true of the state, whatever its outcome. *)
Definition preserves {A} (I : world F → Prop) (m : M F A) : Prop :=
  ∀ w o w', m w = (o, w') → I w → I w'.

(** What the driver keeps true of its best tour, on the points [pts] of
    [n] places and with the log lines [logs] written so far: the best path
    is a permutation of the nodes, its open length is the best length or
    a length [==] to it, and one of the log lines shows this path with the
    kilometres of the best length. *)
Definition best_inv (pts : list (point F)) (speed : speed_mode) (n : nat)
    (logs : list log_entry) (b : best F) : Prop :=
  match best_path b with
  | None => True
  | Some p =>
      p ≡ₚ seq 0 n ∧
      (∃ l, open_length pts speed p = Ok l ∧
            (l = best_path_length b ∨ num_eqb l (best_path_length b) = true)) ∧
      (∃ e, e ∈ logs ∧ log_path e = p ∧
            num_int (best_path_length b) = Ok (log_km e))
  end.

(** The dynamic type of the distances of a mode: NumPy scalars in fast
    mode, Python floats in the other. *)
Definition typed_by (speed : speed_mode) (l : num F) : Prop :=
  match speed, l with
  | Fast, NpFloat _ | Slow, PyFloat _ => True
  | _, _ => False
  end.

(** The state [w] but for the position of the generator. *)
Definition same_but_rng (w0 w : world F) : Prop :=
  w_pheromone w = w_pheromone w0 ∧ w_logs w = w_logs w0 ∧
  w_best_path w = w_best_path w0 ∧
  w_best_path_length w = w_best_path_length w0.

(** What [update_pheromone] keeps, whatever its outcome: the shape of the
    matrix and everything but the matrix. *)
Definition update_frame (w0 w : world F) : Prop :=
  shape (w_pheromone w) = shape (w_pheromone w0) ∧
  w_rng w = w_rng w0 ∧ w_logs w = w_logs w0 ∧
  w_best_path w = w_best_path w0 ∧
  w_best_path_length w = w_best_path_length w0.

(** The division [Q / path_length] of a deposit goes through. *)
Definition divides (Q : F) (path_length : num F) : Prop :=
  ∃ q, num_truediv (PyFloat Q) path_length = Ok q.

(** The log line [e] is a line of a round from [start]: its path is a tour
    of the [n] nodes from [start], and its kilometres are [int] of the
    length of that path, or of a length [==] to it. *)
Definition line_of_round (pts : list (point F)) (speed : speed_mode) (n start : nat)
    (e : log_entry) : Prop :=
  is_tour n start (log_path e) ∧
  ∃ l m, open_length pts speed (log_path e) = Ok l ∧
         (l = m ∨ num_eqb l m = true) ∧ num_int m = Ok (log_km e).

(** [route] is the list of the locations at the nodes of [path], in the
    order of [path]. *)
Definition visits (locations : list (location F)) (path : list nat)
    (route : list (location F)) : Prop :=
  Forall2 (fun i c => locations !! i = Some c) path route.

End MoreVocabulary.

(** ** Concrete sessions *)

(** The form as the page proposes it, for a short run. *)
Definition short_run : params xq :=
  Params 2 2 (Fin 1) (Fin 1) (Fin (1 # 2)) (Fin 1) Fast.

(** The session of a user who has chosen three places and run nothing. *)
Definition three_session : session xq :=
  Session (Some three_places) None None None None None.

(** The session left by an earlier run, with a single place chosen now. *)
Definition stale_session : session xq :=
  Session (Some one_place) (Some true) (Some [LogEntry 222 [0; 1; 2]]) (Some short_run)
          (Some ["a"; "b"; "c"]) (Some 222%Z).

(** The state in which [config] calls the driver on [stale_session]. *)
Definition stale_world : world xq :=
  World [] 0 [] (Some ["a"; "b"; "c"]) (Some 222%Z).
(** * Properties *)

(** ** Reasoning about outcomes and the state monad *)

Lemma obind_Ok {A B} (m : outcome A) (k : A → outcome B) (b : B) :
  obind m k = Ok b → ∃ a, m = Ok a ∧ k a = Ok b.
Proof. destruct m as [a| |]; simpl; [eauto | discriminate | discriminate]. Qed.

Lemma getitem_Ok {A} (l : list A) (i : nat) (x : A) :
  getitem l i = Ok x ↔ l !! i = Some x.
Proof. unfold getitem. destruct (l !! i); split; congruence. Qed.

Lemma setitem_Ok {A} (l : list A) (i : nat) (x : A) (l' : list A) :
  setitem l i x = Ok l' ↔ i < length l ∧ l' = <[i := x]> l.
Proof.
  unfold setitem. destruct (decide (i < length l)); split.
  - intros [= <-]. auto.
  - intros [_ ->]. reflexivity.
  - discriminate.
  - intros [? _]. lia.
Qed.

Section MonadFacts.

Context {F : Type}.

Lemma bind_Ok {A B} (m : M F A) (k : A → M F B) (w w' : world F) (b : B) :
  bind m k w = (Ok b, w') → ∃ a w1, m w = (Ok a, w1) ∧ k a w1 = (Ok b, w').
Proof.
  unfold bind. destruct (m w) as [[a| |] w1]; [eauto | discriminate | discriminate].
Qed.

Lemma lift_Ok {A} (o : outcome A) (w w' : world F) (a : A) :
  lift o w = (Ok a, w') → o = Ok a ∧ w' = w.
Proof. unfold lift. intros [= -> ->]. auto. Qed.

Lemma ret_Ok {A} (x a : A) (w w' : world F) :
  ret x w = (Ok a, w') → a = x ∧ w' = w.
Proof. unfold ret. intros [= -> ->]. auto. Qed.

End MonadFacts.

(** Splits a hypothesis [m w = (Ok _, _)] along the binds of [m]. *)
Ltac inv_M :=
  repeat match goal with
  | H : bind _ _ _ = (Ok _, _) |- _ =>
      let a := fresh "a" in let w := fresh "w" in
      let H1 := fresh "Hm" in let H2 := fresh "Hk" in
      apply bind_Ok in H as (a & w & H1 & H2)
  | H : lift _ _ = (Ok _, _) |- _ =>
      let H1 := fresh "Ho" in
      apply lift_Ok in H as [H1 ->]
  | H : ret _ _ = (Ok _, _) |- _ =>
      apply ret_Ok in H as [-> ->]
  | H : obind _ _ = Ok _ |- _ =>
      let a := fresh "a" in
      let H1 := fresh "Ho" in let H2 := fresh "Hk" in
      apply obind_Ok in H as (a & H1 & H2)
  end.

(** ** Paths are permutations *)

Lemma where_not_spec (visited : list bool) (k x : nat) :
  x ∈ where_not k visited ↔ ∃ i, x = k + i ∧ visited !! i = Some false.
Proof.
  revert k. induction visited as [|b rest IH]; intros k; simpl.
  - split; [intros H; inversion H | intros (i & _ & H); discriminate].
  - destruct b.
    + rewrite IH. split.
      * intros (i & -> & Hi). exists (S i). split; [lia | exact Hi].
      * intros ([|i] & -> & Hi); [discriminate|]. exists i. split; [lia | exact Hi].
    + rewrite elem_of_cons, IH. split.
      * intros [-> | (i & -> & Hi)].
        -- exists 0. split; [lia | reflexivity].
        -- exists (S i). split; [lia | exact Hi].
      * intros ([|i] & -> & Hi).
        -- left. lia.
        -- right. exists i. split; [lia | exact Hi].
Qed.

Lemma where_not_insert_length (visited : list bool) (k i : nat) :
  visited !! i = Some false →
  S (length (where_not k (<[i := true]> visited))) = length (where_not k visited).
Proof.
  revert k i. induction visited as [|b rest IH]; intros k i Hi; [discriminate|].
  destruct i as [|i]; simpl in *.
  - injection Hi as ->. reflexivity.
  - destruct b; simpl; rewrite <- (IH (S k) i Hi); reflexivity.
Qed.

Lemma where_not_nil (visited : list bool) (k : nat) :
  where_not k visited = [] ↔ false ∉ visited.
Proof.
  revert k. induction visited as [|b rest IH]; intros k; simpl.
  - split; [intros _ H; inversion H | reflexivity].
  - destruct b.
    + rewrite IH, not_elem_of_cons. intuition discriminate.
    + split; [discriminate | intros H; exfalso; apply H; left].
Qed.

Lemma open_edges_snoc (path : list nat) (c x : nat) :
  path !! (length path - 1) = Some c →
  open_edges (path ++ [x]) = open_edges path ++ [(c, x)].
Proof.
  unfold open_edges. induction path as [|a rest IH]; [discriminate|].
  destruct rest as [|b rest]; simpl in *.
  - intros [= ->]. reflexivity.
  - intros H. f_equal. apply IH. rewrite Nat.sub_0_r. exact H.
Qed.

Lemma open_edges_length (path : list nat) :
  length (open_edges path) = length path - 1.
Proof.
  unfold open_edges. rewrite length_zip_with. destruct path; cbn [length tail]; lia.
Qed.

Lemma open_edges_lookup (path : list nat) (i a b : nat) :
  open_edges path !! i = Some (a, b) ↔ path !! i = Some a ∧ path !! (i + 1) = Some b.
Proof.
  unfold open_edges. rewrite lookup_zip_with_Some, lookup_tail, Nat.add_1_r.
  split.
  - intros (x & y & [= -> ->] & Hx & Hy). auto.
  - intros [Hx Hy]. eauto.
Qed.

Lemma obind_fueled {A B} (m : outcome A) (k : A → outcome B) :
  m ≠ OutOfFuel → (∀ a, k a ≠ OutOfFuel) → obind m k ≠ OutOfFuel.
Proof. destruct m; simpl; [auto | discriminate | congruence]. Qed.

Lemma call_fueled {A} (r : result A) : call r ≠ OutOfFuel.
Proof. destruct r; discriminate. Qed.

Lemma getitem_fueled {A} (l : list A) (i : nat) : getitem l i ≠ OutOfFuel.
Proof. unfold getitem. destruct (l !! i); discriminate. Qed.

Lemma setitem_fueled {A} (l : list A) (i : nat) (x : A) : setitem l i x ≠ OutOfFuel.
Proof. unfold setitem. destruct (decide (i < length l)); discriminate. Qed.

Section PathFacts.

Context {F : Type} {NE : NumEnv F}.
Variable tape : nat → nat.

Lemma add_distances_app (points : list (point F)) (speed : speed_mode)
    (acc : num F) (es1 es2 : list (nat * nat)) :
  add_distances points speed acc (es1 ++ es2) =
  let* s := add_distances points speed acc es1 in
  add_distances points speed s es2.
Proof.
  revert acc. induction es1 as [|[a b] rest IH]; intros acc; simpl; [reflexivity|].
  destruct (distance_at points speed a b); simpl; [apply IH | reflexivity | reflexivity].
Qed.

Lemma bind_fueled {A B} (m : M F A) (k : A → M F B) (w : world F) :
  (m w).1 ≠ OutOfFuel → (∀ a w1, (k a w1).1 ≠ OutOfFuel) → (bind m k w).1 ≠ OutOfFuel.
Proof.
  unfold bind. destruct (m w) as [[a| |] w1]; simpl; [auto | discriminate | congruence].
Qed.

Lemma lift_fueled {A} (o : outcome A) (w : world F) :
  o ≠ OutOfFuel → (lift o w).1 ≠ OutOfFuel.
Proof. auto. Qed.

Lemma distance_fueled (p1 p2 : point F) (speed : speed_mode) :
  distance p1 p2 speed ≠ OutOfFuel.
Proof.
  destruct speed; simpl; [discriminate|].
  apply obind_fueled; [apply call_fueled | discriminate].
Qed.

Lemma score_fueled (pheromone : list (list F)) (c u : nat) (points : list (point F))
    (alpha beta : F) (speed : speed_mode) :
  score pheromone c u points alpha beta speed ≠ OutOfFuel.
Proof.
  unfold score.
  do 2 (apply obind_fueled; [apply getitem_fueled|]; intros ?).
  do 2 (apply obind_fueled; [apply getitem_fueled|]; intros ?).
  apply obind_fueled; [apply distance_fueled|]. intros d.
  apply obind_fueled; [|discriminate].
  unfold num_pow. destruct d; try discriminate;
    (apply obind_fueled; [apply call_fueled | discriminate]).
Qed.

Lemma choice_Ok (a : list nat) (p : list F) (w w' : world F) (x : nat) :
  choice tape a p w = (Ok x, w') →
  x ∈ a ∧ w_pheromone w' = w_pheromone w ∧ w_logs w' = w_logs w.
Proof.
  unfold choice.
  destruct (negb (length a =? 0) && (length p =? length a) && valid_p p); [|discriminate].
  destruct (a !! (tape (w_rng w) mod length a)) as [y|] eqn:E; [|discriminate].
  intros [= <- <-]. split; [|auto].
  eapply list_elem_of_lookup_2, E.
Qed.

Lemma walk_step_Ok (points : list (point F)) (alpha beta : F) (speed : speed_mode)
    (a a' : ant F) (w w' : world F) :
  walk_step tape points alpha beta speed a w = (Ok a', w') →
  ∃ next d,
    visited a !! next = Some false ∧
    distance_at points speed (current_point a) next = Ok d ∧
    a' = Ant (<[next := true]> (visited a)) next (path a ++ [next])
             (num_add (path_length a) d) ∧
    w_pheromone w' = w_pheromone w ∧ w_logs w' = w_logs w.
Proof.
  unfold walk_step, get_pheromone. intros H. inv_M.
  match goal with H : (Ok _, _) = (Ok _, _) |- _ => injection H as <- <- end.
  match goal with H : choice _ _ _ _ = _ |- _ =>
    apply choice_Ok in H as (Hin & Hph & Hlogs) end.
  apply where_not_spec in Hin as (i & -> & Hi). simpl in *.
  match goal with H : setitem _ _ _ = _ |- _ => apply setitem_Ok in H as [_ ->] end.
  eexists i, _. repeat split; try eassumption.
  unfold distance_at.
  repeat match goal with H : getitem points _ = Ok _ |- _ => rewrite H; clear H end.
  simpl. assumption.
Qed.

Lemma fill_probabilities_fueled (pheromone : list (list F)) (current_point : nat)
    (points : list (point F)) (alpha beta : F) (speed : speed_mode)
    (i : nat) (unvisited : list nat) (probabilities : list F) :
  fill_probabilities pheromone current_point points alpha beta speed
    i unvisited probabilities ≠ OutOfFuel.
Proof.
  revert i probabilities. induction unvisited as [|u rest IH]; intros i ps; simpl.
  - discriminate.
  - apply obind_fueled; [apply score_fueled|]. intros s.
    apply obind_fueled; [apply setitem_fueled|]. intros ps'. apply IH.
Qed.

Lemma walk_step_fueled (points : list (point F)) (alpha beta : F) (speed : speed_mode)
    (a : ant F) (w : world F) :
  (walk_step tape points alpha beta speed a w).1 ≠ OutOfFuel.
Proof.
  unfold walk_step, get_pheromone, bind at 1. simpl.
  apply bind_fueled.
  { apply lift_fueled. unfold calculate_probabilities.
    apply obind_fueled; [apply fill_probabilities_fueled | discriminate]. }
  intros probabilities w1. apply bind_fueled.
  { unfold choice. repeat case_match; discriminate. }
  intros next w2. apply bind_fueled; [apply lift_fueled, getitem_fueled|].
  intros p1 w3. apply bind_fueled; [apply lift_fueled, getitem_fueled|].
  intros p2 w4. apply bind_fueled; [apply lift_fueled, distance_fueled|].
  intros d w5. apply bind_fueled; [apply lift_fueled, setitem_fueled|].
  intros v w6. discriminate.
Qed.

(** Each iteration of the loop visits one more node. *)
Lemma walk_step_inv (points : list (point F)) (alpha beta : F) (speed : speed_mode)
    (n start : nat) (a a' : ant F) (w w' : world F) :
  ant_inv points speed n start a →
  walk_step tape points alpha beta speed a w = (Ok a', w') →
  ant_inv points speed n start a' ∧
  S (length (where_not 0 (visited a'))) = length (where_not 0 (visited a)).
Proof.
  intros (Hlen & Hnd & Hvis & Hhd & Hcur & Hsum) Hstep.
  apply walk_step_Ok in Hstep as (next & d & Hnext & Hd & -> & _ & _).
  assert (Hfresh : next ∉ path a).
  { intros Hin. apply Hvis in Hin. congruence. }
  assert (Hlt : next < length (visited a)) by (eapply lookup_lt_Some, Hnext).
  split; [|apply where_not_insert_length, Hnext].
  unfold ant_inv; simpl. repeat split.
  - rewrite length_insert. exact Hlen.
  - apply NoDup_app. repeat split; [exact Hnd | | apply NoDup_singleton].
    intros x Hx Hx'. apply list_elem_of_singleton in Hx' as ->. contradiction.
  - intros Hin. apply elem_of_app in Hin as [Hin | Hin].
    + destruct (decide (i = next)) as [-> | Hne]; [contradiction|].
      rewrite list_lookup_insert_ne by congruence. apply Hvis, Hin.
    + apply list_elem_of_singleton in Hin as ->.
      apply list_lookup_insert_eq, Hlt.
  - intros Hi. destruct (decide (i = next)) as [-> | Hne].
    + apply elem_of_app. right. apply list_elem_of_singleton. reflexivity.
    + rewrite list_lookup_insert_ne in Hi by congruence.
      apply elem_of_app. left. apply Hvis, Hi.
  - destruct (path a); [discriminate | exact Hhd].
  - rewrite length_app. simpl.
    replace (length (path a) + 1 - 1) with (length (path a) + 0) by lia.
    rewrite lookup_app_r by lia.
    replace (length (path a) + 0 - length (path a)) with 0 by lia. reflexivity.
  - unfold open_length in *.
    rewrite (open_edges_snoc (path a) (current_point a) next Hcur).
    rewrite add_distances_app, Hsum. simpl. rewrite Hd. reflexivity.
Qed.

Lemma where_not_length (visited : list bool) (k : nat) :
  length (where_not k visited) ≤ length visited.
Proof.
  revert k. induction visited as [|[] rest IH]; intros k; simpl; [lia | |];
    specialize (IH (S k)); lia.
Qed.

(** The loop ends with every node visited, whatever budget it was given. *)
Lemma walk_Ok (points : list (point F)) (alpha beta : F) (speed : speed_mode)
    (n start fuel : nat) (a a' : ant F) (w w' : world F) :
  ant_inv points speed n start a →
  walk tape points alpha beta speed fuel a w = (Ok a', w') →
  ant_inv points speed n start a' ∧ (false ∉ visited a') ∧
  w_pheromone w' = w_pheromone w ∧ w_logs w' = w_logs w.
Proof.
  revert a w. induction fuel as [|fuel IH]; intros a w Hinv; simpl.
  - case_bool_decide as Hf; [discriminate|].
    intros H. inv_M. auto.
  - case_bool_decide as Hf.
    + intros H. apply bind_Ok in H as (a1 & w1 & Hstep & Hrest).
      pose proof (walk_step_Ok _ _ _ _ _ _ _ _ Hstep) as (? & ? & _ & _ & _ & Hph & Hlogs).
      apply (walk_step_inv _ _ _ _ n start) in Hstep as [Hinv' _]; [|exact Hinv].
      apply IH in Hrest as (? & ? & Hph' & Hlogs'); [|exact Hinv'].
      split; [assumption|]. split; [assumption|]. split; congruence.
    + intros H. inv_M. auto.
Qed.

(** The budget [generate_paths] gives the loop is enough: the loop of the
    model never stops for lack of it. *)
Lemma walk_fuel_enough (points : list (point F)) (alpha beta : F) (speed : speed_mode)
    (n start fuel : nat) (a : ant F) (w : world F) :
  ant_inv points speed n start a →
  length (where_not 0 (visited a)) ≤ fuel →
  (walk tape points alpha beta speed fuel a w).1 ≠ OutOfFuel.
Proof.
  revert a w. induction fuel as [|fuel IH]; intros a w Hinv Hle; simpl.
  - case_bool_decide as Hf; [|discriminate].
    exfalso. apply (where_not_nil _ 0) in Hf; [exact Hf|].
    apply length_zero_iff_nil. lia.
  - case_bool_decide as Hf; [|discriminate].
    unfold bind.
    destruct (walk_step tape points alpha beta speed a w) as [[a'| |] w1] eqn:Hstep;
      simpl; try discriminate.
    + apply (walk_step_inv _ _ _ _ n start) in Hstep as [Hinv' Hcount]; [|exact Hinv].
      apply IH; [exact Hinv' | lia].
    + exfalso. eapply walk_step_fueled. rewrite Hstep. reflexivity.
Qed.

Lemma tour_of_inv (points : list (point F)) (speed : speed_mode)
    (n start : nat) (a : ant F) :
  ant_inv points speed n start a → false ∉ visited a → is_tour n start (path a).
Proof.
  intros (Hlen & Hnd & Hvis & Hhd & _ & _) Hall. split; [|exact Hhd].
  apply NoDup_Permutation; [exact Hnd | apply NoDup_seq |].
  intros i. rewrite Hvis, elem_of_seq. split.
  - intros Hi. apply lookup_lt_Some in Hi. lia.
  - intros [_ Hi]. simpl in Hi. rewrite <- Hlen in Hi.
    apply lookup_lt_is_Some_2 in Hi as [[] Hb]; [exact Hb|].
    exfalso. apply Hall. eapply list_elem_of_lookup_2, Hb.
Qed.

Lemma one_ant_inv (points : list (point F)) (speed : speed_mode)
    (n start : nat) :
  start < n →
  ant_inv points speed n start
    (Ant (<[start := true]> (replicate n false)) start [start] (PyInt 0)).
Proof.
  intros Hlt. unfold ant_inv; simpl. repeat split.
  - rewrite length_insert. apply length_replicate.
  - apply NoDup_singleton.
  - intros Hi. apply list_elem_of_singleton in Hi as ->.
    apply list_lookup_insert_eq. rewrite length_replicate. exact Hlt.
  - intros Hi. apply list_elem_of_singleton.
    destruct (decide (i = start)) as [-> | Hne]; [reflexivity|].
    rewrite list_lookup_insert_ne in Hi by congruence.
    apply lookup_replicate in Hi as [? _]. discriminate.
Qed.

Lemma one_ant_Ok (points : list (point F)) (alpha beta : F) (speed : speed_mode)
    (n start : nat) (a : ant F) (w w' : world F) :
  one_ant tape start n points alpha beta speed w = (Ok a, w') →
  is_tour n start (path a) ∧
  open_length points speed (path a) = Ok (path_length a) ∧
  w_pheromone w' = w_pheromone w ∧ w_logs w' = w_logs w.
Proof.
  unfold one_ant. intros H. apply bind_Ok in H as (v & w1 & Hset & Hwalk).
  apply lift_Ok in Hset as [Hset ->].
  apply setitem_Ok in Hset as [Hlt ->]. rewrite length_replicate in Hlt.
  apply (walk_Ok _ _ _ _ n start) in Hwalk as (Hinv & Hall & Hph & Hlogs);
    [|apply one_ant_inv, Hlt].
  split; [eapply tour_of_inv; eassumption|].
  split; [apply Hinv | auto].
Qed.

Lemma one_ant_fueled (points : list (point F)) (alpha beta : F) (speed : speed_mode)
    (n start : nat) (w : world F) :
  (one_ant tape start n points alpha beta speed w).1 ≠ OutOfFuel.
Proof.
  unfold one_ant, bind, lift.
  destruct (setitem (replicate n false) start true) as [v| |] eqn:Hset;
    simpl; try discriminate.
  - apply setitem_Ok in Hset as [Hlt ->]. rewrite length_replicate in Hlt.
    apply (walk_fuel_enough _ _ _ _ n start); [apply one_ant_inv, Hlt|].
    simpl. etransitivity; [apply where_not_length|].
    rewrite length_insert, length_replicate. reflexivity.
  - exfalso. eapply setitem_fueled, Hset.
Qed.

Lemma ants_loop_Ok (points : list (point F)) (alpha beta : F) (speed : speed_mode)
    (n start k : nat) (paths0 : list (list nat)) (lengths0 : list (num F))
    (paths : list (list nat)) (lengths : list (num F)) (w w' : world F) :
  ants_loop tape k start n points alpha beta speed paths0 lengths0 w
    = (Ok (paths, lengths), w') →
  ∃ new_paths new_lengths,
    paths = paths0 ++ new_paths ∧ lengths = lengths0 ++ new_lengths ∧
    length new_paths = k ∧
    Forall2 (fun p l => is_tour n start p ∧ open_length points speed p = Ok l)
            new_paths new_lengths ∧
    w_pheromone w' = w_pheromone w ∧ w_logs w' = w_logs w.
Proof.
  revert paths0 lengths0 w. induction k as [|k IH]; intros paths0 lengths0 w; simpl.
  - intros H. apply ret_Ok in H as [[= -> ->] ->].
    exists [], []. rewrite !app_nil_r. repeat split. constructor.
  - intros H. apply bind_Ok in H as (a & w1 & Hant & Hrest).
    apply one_ant_Ok in Hant as (Htour & Hlen & Hph & Hlogs).
    apply IH in Hrest as (ps & ls & -> & -> & Hk & Hall & Hph' & Hlogs').
    exists (path a :: ps), (path_length a :: ls).
    rewrite <- !app_assoc. simpl. repeat split; try congruence.
    constructor; [split; assumption | exact Hall].
Qed.

Lemma generate_paths_fueled (ants : Z) (start n : nat) (points : list (point F))
    (alpha beta : F) (speed : speed_mode) (w : world F) :
  (generate_paths tape ants start n points alpha beta speed w).1 ≠ OutOfFuel.
Proof.
  unfold generate_paths. generalize (Z.to_nat ants) ([] : list (list nat))
    ([] : list (num F)). intros k. revert w.
  induction k as [|k IH]; intros w ps ls; simpl; [discriminate|].
  apply bind_fueled; [apply one_ant_fueled|]. intros a w1. apply IH.
Qed.

(** C1.  Every path that [generate_paths] returns is a permutation of the
    node indices [0..n-1]: it has length [n], no node twice, no node
    missing, and it begins at the start node.  One path is returned per
    ant. *)
Theorem generate_paths_permutations (ants : Z) (start n : nat)
    (points : list (point F)) (alpha beta : F) (speed : speed_mode)
    (paths : list (list nat)) (lengths : list (num F)) (w w' : world F) :
  generate_paths tape ants start n points alpha beta speed w
    = (Ok (paths, lengths), w') →
  length paths = Z.to_nat ants ∧
  Forall (fun p => p ≡ₚ seq 0 n ∧ NoDup p ∧ length p = n ∧
                   (∀ i, i < n → i ∈ p) ∧ head p = Some start) paths.
Proof.
  unfold generate_paths. intros H.
  apply ants_loop_Ok in H as (ps & ls & -> & -> & Hk & Hall & _).
  simpl. split; [exact Hk|].
  eapply Forall2_Forall_l; [exact Hall|].
  apply Forall_true. intros l p [[Hperm Hhd] _].
  repeat split; try assumption.
  - rewrite Hperm. apply NoDup_seq.
  - rewrite Hperm. apply length_seq.
  - intros i Hi. rewrite Hperm. apply elem_of_seq. lia.
Qed.

(** The closing edge of a tour is none of its open edges. *)
Lemma closing_edge_not_open (n start : nat) (p : list nat) (c : nat) :
  is_tour n start p → (c, start) ∉ open_edges p.
Proof.
  intros [Hperm Hhd] Hin.
  apply list_elem_of_lookup_1 in Hin as [i Hi].
  apply open_edges_lookup in Hi as [_ Hi].
  assert (Hnd : NoDup p) by (rewrite Hperm; apply NoDup_seq).
  assert (H0 : p !! 0 = Some start) by (destruct p; [discriminate | exact Hhd]).
  pose proof (NoDup_lookup _ _ _ _ Hnd Hi H0). lia.
Qed.

(** C2.  The length [generate_paths] returns with a path is the sum, from
    0 and in the order of the walk, of the distances of the [n - 1] edges
    [(path[i], path[i+1])]; the closing edge [(path[n-1], path[0])] is not
    one of them. *)
Theorem generate_paths_open_length (ants : Z) (start n : nat)
    (points : list (point F)) (alpha beta : F) (speed : speed_mode)
    (paths : list (list nat)) (lengths : list (num F)) (w w' : world F) :
  generate_paths tape ants start n points alpha beta speed w
    = (Ok (paths, lengths), w') →
  Forall2 (fun p l =>
             open_length points speed p = Ok l ∧
             length (open_edges p) = n - 1 ∧
             (∀ i a b, open_edges p !! i = Some (a, b) ↔
                       p !! i = Some a ∧ p !! (i + 1) = Some b) ∧
             (∀ c, (c, start) ∉ open_edges p))
          paths lengths.
Proof.
  unfold generate_paths. intros H.
  apply ants_loop_Ok in H as (ps & ls & -> & -> & _ & Hall & _).
  simpl. eapply Forall2_impl; [exact Hall|]. intros p l [Htour Hlen].
  split; [exact Hlen|]. split.
  - rewrite open_edges_length. destruct Htour as [Hperm _].
    rewrite Hperm, length_seq. reflexivity.
  - split; [intros; apply open_edges_lookup|].
    intros c. eapply closing_edge_not_open, Htour.
Qed.

End PathFacts.

(** ** The selection probabilities *)

Section ProbabilityFacts.

Context {F : Type} {NE : NumEnv F}.

(** The score of node [j] seen from [current]:
    [pheromone[current, j] ** alpha / distance(current, j) ** beta]. *)
Lemma score_Ok (pheromone : list (list F)) (current j : nat)
    (points : list (point F)) (alpha beta : F) (speed : speed_mode) (s : F) :
  score pheromone current j points alpha beta speed = Ok s ↔
  ∃ x d dp,
    entry pheromone current j = Some x ∧
    distance_at points speed current j = Ok d ∧
    num_pow d beta = Ok dp ∧
    s = fdiv (fpow x alpha) (to_F dp).
Proof.
  unfold score, entry, distance_at. split.
  - intros H. inv_M.
    repeat match goal with
           | H : getitem _ _ = Ok _ |- _ => apply getitem_Ok in H
           end.
    match goal with H : Ok _ = Ok _ |- _ => injection H as <- end.
    match goal with H : pheromone !! current = Some _ |- _ => rewrite H end.
    repeat match goal with H : points !! _ = Some _ |- _ =>
      apply getitem_Ok in H; rewrite H; clear H end.
    simpl. eauto 10.
  - intros (x & d & dp & Hx & Hd & Hdp & ->).
    destruct (pheromone !! current) as [row|] eqn:Hrow; [|discriminate].
    unfold getitem at 1. rewrite Hrow. simpl.
    unfold getitem at 1. rewrite Hx. simpl.
    destruct (getitem points current) as [p1| |]; simpl in *; try discriminate.
    destruct (getitem points j) as [p2| |]; simpl in *; try discriminate.
    rewrite Hd. simpl. rewrite Hdp. reflexivity.
Qed.

Lemma fill_probabilities_Ok (pheromone : list (list F)) (current : nat)
    (points : list (point F)) (alpha beta : F) (speed : speed_mode)
    (unvisited : list nat) (i : nat) (ps ps' : list F) :
  fill_probabilities pheromone current points alpha beta speed i unvisited ps = Ok ps' →
  i + length unvisited ≤ length ps →
  ∃ scores,
    Forall2 (fun j s => score pheromone current j points alpha beta speed = Ok s)
            unvisited scores ∧
    ps' = take i ps ++ scores ++ drop (i + length unvisited) ps.
Proof.
  revert i ps ps'. induction unvisited as [|j rest IH]; intros i ps ps'; simpl.
  - intros [= <-] _. exists []. split; [constructor|].
    rewrite Nat.add_0_r. simpl. symmetry. apply take_drop.
  - intros H Hlen. simpl in Hlen. inv_M.
    match goal with H : setitem _ _ _ = Ok _ |- _ =>
      apply setitem_Ok in H as [Hi ->] end.
    match goal with H : fill_probabilities _ _ _ _ _ _ _ _ _ = Ok _ |- _ =>
      apply IH in H as (scores & Hall & ->); [|rewrite length_insert; lia] end.
    eexists (_ :: scores). split; [constructor; eassumption|].
    rewrite (take_S_r _ _ a) by (apply list_lookup_insert_eq, Hi).
    rewrite take_insert_ge by lia.
    rewrite drop_insert_lt by lia.
    rewrite <- app_assoc. simpl.
    replace (i + S (length rest)) with (S (i + length rest)) by lia. reflexivity.
Qed.

(** The array the function returns: every score divided by [np.sum] of all
    the scores, position by position. *)
Lemma calculate_probabilities_Ok (pheromone : list (list F)) (current : nat)
    (unvisited : list nat) (points : list (point F)) (alpha beta : F)
    (speed : speed_mode) (probabilities : list F) :
  calculate_probabilities pheromone current unvisited points alpha beta speed
    = Ok probabilities →
  ∃ scores,
    Forall2 (fun j s => score pheromone current j points alpha beta speed = Ok s)
            unvisited scores ∧
    probabilities = map (fun s => fdiv s (npsum scores)) scores.
Proof.
  unfold calculate_probabilities. intros H. inv_M.
  match goal with H : fill_probabilities _ _ _ _ _ _ _ _ _ = Ok _ |- _ =>
    apply fill_probabilities_Ok in H as (scores & Hall & ->);
      [|rewrite length_replicate; lia] end.
  exists scores. split; [exact Hall|].
  rewrite take_0, drop_ge in * by (rewrite length_replicate; lia).
  rewrite app_nil_r in *. simpl in *. congruence.
Qed.

End ProbabilityFacts.

(** ** The pheromone update *)

Lemma zip_rotate (rest : list nat) (y x c : nat) :
  (y :: rest) !! length rest = Some c →
  zip (y :: rest) (rest ++ [x]) = zip (y :: rest) rest ++ [(c, x)].
Proof.
  revert y. induction rest as [|z rest IH]; intros y Hc; simpl in *.
  - injection Hc as ->. reflexivity.
  - f_equal. apply IH, Hc.
Qed.

Lemma closed_edges_split (p : list nat) (c x : nat) :
  p !! (length p - 1) = Some c → p !! 0 = Some x →
  closed_edges p = open_edges p ++ [(c, x)].
Proof.
  unfold closed_edges, open_edges. destruct p as [|y rest]; [discriminate|].
  cbn [length tail take]. replace (S (length rest) - 1) with (length rest) by lia.
  intros Hc [= ->]. rewrite take_0. apply zip_rotate, Hc.
Qed.

Lemma closed_edges_NoDup (p : list nat) : NoDup p → NoDup (closed_edges p).
Proof. intros H. unfold closed_edges. apply NoDup_zip_with_l; [apply _ | exact H]. Qed.

Section PheromoneFacts.

Context {F : Type} {NE : NumEnv F}.

Lemma for_loop_app {A S} (xs ys : list A) (body : A → S → M F S) (s : S) (w : world F) :
  for_loop (xs ++ ys) body s w = bind (for_loop xs body s) (for_loop ys body) w.
Proof.
  revert s w. induction xs as [|x xs IH]; intros s w; simpl; [reflexivity|].
  unfold bind in *. destruct (body x s w) as [[s1| |] w1]; [|reflexivity..].
  apply IH.
Qed.

Lemma evaporate_run (rate : F) (w : world F) :
  evaporate rate w =
  (Ok tt, World (map (map (fun x => fmul x rate)) (w_pheromone w)) (w_rng w) (w_logs w)
                (w_best_path w) (w_best_path_length w)).
Proof. reflexivity. Qed.

Lemma entry_evaporate (pheromone : list (list F)) (rate : F) (i j : nat) :
  entry (map (map (fun x => fmul x rate)) pheromone) i j =
  (fun x => fmul x rate) <$> entry pheromone i j.
Proof.
  unfold entry. change (map ?f ?l) with (f <$> l).
  rewrite list_lookup_fmap. destruct (pheromone !! i) as [row|]; simpl; [|reflexivity].
  apply list_lookup_fmap.
Qed.

(** The quotient added to an entry is [Q / path_length] in binary64,
    whichever the dynamic type of [path_length]. *)
Lemma num_truediv_Ok (Q : F) (l q : num F) :
  num_truediv (PyFloat Q) l = Ok q → to_F q = fdiv Q (to_F l).
Proof.
  unfold num_truediv. destruct l; simpl; try case_match; intros [= <-]; reflexivity.
Qed.

Lemma deposit_edge_Ok (a b : nat) (Q : F) (l : num F) (w w' : world F) :
  deposit_edge a b Q l w = (Ok tt, w') →
  (∃ q, num_truediv (PyFloat Q) l = Ok q) ∧
  (∃ old, entry (w_pheromone w) a b = Some old) ∧
  (∀ i j, entry (w_pheromone w') i j =
          if decide ((i, j) = (a, b))
          then (fun x => fadd x (fdiv Q (to_F l))) <$> entry (w_pheromone w) i j
          else entry (w_pheromone w) i j) ∧
  w_rng w' = w_rng w ∧ w_logs w' = w_logs w ∧
  w_best_path w' = w_best_path w ∧ w_best_path_length w' = w_best_path_length w.
Proof.
  unfold deposit_edge, get_pheromone, put_pheromone. intros H. inv_M.
  match goal with H : (Ok _, _) = (Ok _, _) |- _ => injection H as <- <- end.
  match goal with H : (Ok _, _) = (Ok _, _) |- _ => injection H as <- end.
  repeat match goal with H : getitem _ _ = Ok _ |- _ => apply getitem_Ok in H end.
  match goal with H : num_truediv _ _ = Ok _ |- _ =>
    pose proof (num_truediv_Ok _ _ _ H) as Hq end.
  match goal with H : w_pheromone w !! a = Some ?r |- _ => rename H into Hrow; rename r into row end.
  match goal with H : row !! b = Some ?o |- _ => rename H into Hold; rename o into old end.
  split; [eauto|]. split; [exists old; unfold entry; rewrite Hrow; exact Hold|].
  split; [|auto]. simpl. intros i j. unfold entry. rewrite Hq.
  destruct (decide (i = a)) as [-> | Hi].
  - rewrite list_lookup_insert_eq by (eapply lookup_lt_Some, Hrow). rewrite Hrow.
    destruct (decide (j = b)) as [-> | Hj].
    + rewrite decide_True by reflexivity.
      rewrite list_lookup_insert_eq by (eapply lookup_lt_Some, Hold).
      rewrite Hold. reflexivity.
    + rewrite decide_False by congruence.
      apply list_lookup_insert_ne. congruence.
  - rewrite decide_False by congruence.
    rewrite list_lookup_insert_ne by congruence. reflexivity.
Qed.

Lemma bind_ext {A B} (m : M F A) (k1 k2 : A → M F B) (w : world F) :
  (∀ a w1, k1 a w1 = k2 a w1) → bind m k1 w = bind m k2 w.
Proof. intros H. unfold bind. destruct (m w) as [[a| |] w1]; auto. Qed.

Lemma bind_ret_unit (m : M F unit) (w : world F) :
  bind m (fun s => ret s) w = m w.
Proof. unfold bind, ret. destruct (m w) as [[[]| |] w1]; reflexivity. Qed.

Lemma bind_lift_Ok {A B} (a : A) (k : A → M F B) (w : world F) :
  bind (lift (Ok a)) k w = k a w.
Proof. reflexivity. Qed.

(** The first loop of [deposit] walks the open edges of the path. *)
Lemma deposit_open_loop (Q : F) (l : num F) (rest pre : list nat) (w : world F) :
  for_loop (seq (length pre) (length rest - 1))
    (fun i _ =>
       do a <- lift (getitem (pre ++ rest) i);
       do b <- lift (getitem (pre ++ rest) (i + 1));
       deposit_edge a b Q l) tt w
  = deposit_edges (open_edges rest) Q l w.
Proof.
  unfold deposit_edges.
  revert pre w. induction rest as [|a rest IH]; intros pre w; [reflexivity|].
  destruct rest as [|b rest]; [reflexivity|].
  cbn [length]. replace (S (S (length rest)) - 1) with (S (length rest)) by lia.
  cbn [seq for_loop open_edges tail zip zip_with fst snd].
  assert (Ha : getitem (pre ++ a :: b :: rest) (length pre) = Ok a).
  { apply getitem_Ok. rewrite lookup_app_r by lia. rewrite Nat.sub_diag. reflexivity. }
  assert (Hb : getitem (pre ++ a :: b :: rest) (length pre + 1) = Ok b).
  { apply getitem_Ok. rewrite lookup_app_r by lia.
    replace (length pre + 1 - length pre) with 1 by lia. reflexivity. }
  rewrite Ha, Hb.
  specialize (IH (pre ++ [a])).
  rewrite length_app, <- app_assoc in IH. cbn [length app] in IH.
  replace (length pre + 1) with (S (length pre)) in IH by lia.
  replace (S (length rest) - 1) with (length rest) in IH by lia.
  cbv [bind lift] in IH |- *.
  destruct (deposit_edge a b Q l w) as [[[]| |] w1]; [|reflexivity..].
  apply IH.
Qed.

Lemma deposit_closed_edges (p : list nat) (l : num F) (Q : F) (w : world F) :
  p ≠ [] →
  deposit p l Q (length p) w = deposit_edges (closed_edges p) Q l w.
Proof.
  intros Hp. unfold deposit.
  destruct (lookup_lt_is_Some_2 p (length p - 1)) as [c Hc].
  { destruct p; [contradiction | simpl; lia]. }
  destruct (lookup_lt_is_Some_2 p 0) as [x Hx].
  { destruct p; [contradiction | simpl; lia]. }
  rewrite (closed_edges_split p c x Hc Hx).
  unfold deposit_edges. rewrite for_loop_app.
  pose proof (deposit_open_loop Q l p []) as Hopen. cbn [length app] in Hopen.
  unfold deposit_edges in Hopen.
  assert (Hlast : getlast p = Ok c).
  { unfold getlast. destruct p; [contradiction|]. apply getitem_Ok, Hc. }
  rewrite Hlast. apply getitem_Ok in Hx. rewrite Hx.
  cbn [for_loop fst snd]. cbv [bind lift ret] in Hopen |- *. rewrite Hopen.
  destruct (for_loop (open_edges p) _ tt w) as [[[]| |] w1]; [|reflexivity..].
  destruct (deposit_edge c x Q l w1) as [[[]| |] w2]; reflexivity.
Qed.

Lemma deposit_edges_Ok (edges : list (nat * nat)) (Q : F) (l : num F)
    (w w' : world F) :
  deposit_edges edges Q l w = (Ok tt, w') →
  NoDup edges →
  (edges ≠ [] → ∃ q, num_truediv (PyFloat Q) l = Ok q) ∧
  (∀ i j, entry (w_pheromone w') i j =
          if decide ((i, j) ∈ edges)
          then (fun x => fadd x (fdiv Q (to_F l))) <$> entry (w_pheromone w) i j
          else entry (w_pheromone w) i j) ∧
  w_rng w' = w_rng w ∧ w_logs w' = w_logs w ∧
  w_best_path w' = w_best_path w ∧ w_best_path_length w' = w_best_path_length w.
Proof.
  unfold deposit_edges. revert w.
  induction edges as [|[a b] rest IH]; intros w H Hnd; simpl in H.
  - apply ret_Ok in H as [_ ->]. split; [congruence|]. split; [|auto].
    intros i j. rewrite decide_False; [reflexivity | apply not_elem_of_nil].
  - apply bind_Ok in H as ([] & w1 & Hedge & Hrest).
    apply NoDup_cons in Hnd as [Hfresh Hnd].
    apply deposit_edge_Ok in Hedge as (Hq & _ & Hent & Hrng & Hlogs & Hbp & Hbl).
    apply IH in Hrest as (_ & Hent' & Hrng' & Hlogs' & Hbp' & Hbl'); [|exact Hnd].
    split; [auto|]. split; [|repeat split; congruence].
    intros i j. rewrite Hent', Hent.
    destruct (decide ((i, j) = (a, b))) as [[= -> ->] | Hne].
    + rewrite decide_False by exact Hfresh.
      rewrite decide_True by left. reflexivity.
    + destruct (decide ((i, j) ∈ rest)) as [Hin | Hnin].
      * rewrite decide_True by (right; exact Hin). reflexivity.
      * rewrite decide_False; [reflexivity|].
        intros Hin. apply elem_of_cons in Hin as [? | ?]; contradiction.
Qed.

Lemma deposit_Ok (p : list nat) (l : num F) (Q : F) (w w' : world F) :
  deposit p l Q (length p) w = (Ok tt, w') →
  NoDup p →
  p ≠ [] ∧
  (∃ q, num_truediv (PyFloat Q) l = Ok q) ∧
  (∀ i j, entry (w_pheromone w') i j =
          if decide ((i, j) ∈ closed_edges p)
          then (fun x => fadd x (fdiv Q (to_F l))) <$> entry (w_pheromone w) i j
          else entry (w_pheromone w) i j) ∧
  w_rng w' = w_rng w ∧ w_logs w' = w_logs w ∧
  w_best_path w' = w_best_path w ∧ w_best_path_length w' = w_best_path_length w.
Proof.
  intros H Hnd.
  assert (Hp : p ≠ []).
  { intros ->. discriminate H. }
  rewrite deposit_closed_edges in H by exact Hp.
  apply deposit_edges_Ok in H as (Hq & Hrest); [|apply closed_edges_NoDup, Hnd].
  split; [exact Hp|]. split; [|exact Hrest].
  apply Hq. destruct p as [|a [|b r]]; [contradiction | discriminate | discriminate].
Qed.

Lemma deposits_Ok (tours : list (list nat * num F)) (Q : F) (n : nat)
    (w w' : world F) :
  for_loop tours (fun pl _ => deposit pl.1 pl.2 Q n) tt w = (Ok tt, w') →
  Forall (fun pl => NoDup pl.1 ∧ length pl.1 = n) tours →
  (∀ i j x, entry (w_pheromone w) i j = Some x →
            entry (w_pheromone w') i j =
            Some (fold_left fadd (deposits_on i j Q tours) x)) ∧
  w_rng w' = w_rng w ∧ w_logs w' = w_logs w ∧
  w_best_path w' = w_best_path w ∧ w_best_path_length w' = w_best_path_length w.
Proof.
  revert w. induction tours as [|[p l] rest IH]; intros w H Hall; simpl in H.
  - apply ret_Ok in H as [_ ->]. auto.
  - apply bind_Ok in H as ([] & w1 & Hdep & Hrest).
    apply Forall_cons in Hall as [[Hnd Hlen] Hall]. simpl in *. subst n.
    apply deposit_Ok in Hdep as (_ & _ & Hent & Hrng & Hlogs & Hbp & Hbl); [|exact Hnd].
    apply IH in Hrest as (Hent' & Hrng' & Hlogs' & Hbp' & Hbl'); [|exact Hall].
    split; [|repeat split; congruence].
    intros i j x Hx. unfold deposits_on. rewrite filter_cons. simpl.
    specialize (Hent i j). rewrite Hx in Hent.
    destruct (decide ((i, j) ∈ closed_edges p)); simpl in *; apply Hent', Hent.
Qed.

(** C3.  [update_pheromone] multiplies every entry by [evaporation_rate]
    once and then, path by path, adds [Q / path_length] to the entry of each
    edge of the path's closed tour: the edges [(path[i], path[i+1])] and
    the closing edge [(path[n-1], path[0])].  So entry [(i, j)] ends as the
    old entry times the rate, to which the quotients of the paths whose
    closed tour uses [(i, j)] were added one after the other. *)
Theorem update_pheromone_entries (paths : list (list nat)) (lengths : list (num F))
    (rate Q : F) (n : nat) (w w' : world F) :
  update_pheromone paths lengths rate Q n w = (Ok tt, w') →
  Forall (fun p => NoDup p ∧ length p = n) paths →
  ∀ i j x,
    entry (w_pheromone w) i j = Some x →
    entry (w_pheromone w') i j =
    Some (fold_left fadd (deposits_on i j Q (zip paths lengths)) (fmul x rate)).
Proof.
  unfold update_pheromone. intros H Hall i j x Hx.
  apply bind_Ok in H as ([] & w1 & Hev & Hdep).
  rewrite evaporate_run in Hev. injection Hev as <-.
  apply deposits_Ok in Hdep as [Hent _].
  - apply Hent. simpl. rewrite entry_evaporate, Hx. reflexivity.
  - apply Forall_forall. intros [p l] Hin. simpl.
    apply elem_of_zip_l in Hin. eapply Forall_forall in Hall; eauto.
Qed.

(** The closed tour of a path is the list of its open edges followed by
    the closing edge. *)
Lemma closed_edges_of_tour (n start : nat) (p : list nat) :
  is_tour n start p → 0 < n →
  ∃ c, p !! (n - 1) = Some c ∧ closed_edges p = open_edges p ++ [(c, start)].
Proof.
  intros [Hperm Hhd] Hn.
  assert (Hlen : length p = n) by (rewrite Hperm; apply length_seq).
  destruct (lookup_lt_is_Some_2 p (n - 1)) as [c Hc]; [lia|].
  exists c. split; [exact Hc|]. apply closed_edges_split.
  - rewrite Hlen. exact Hc.
  - destruct p; [discriminate | exact Hhd].
Qed.

End PheromoneFacts.

(** ** The driver *)

Section DriverFacts.

Context {F : Type} {NE : NumEnv F}.

Lemma for_loop_invariant {A S} (I : world F → Prop) (xs : list A)
    (body : A → S → M F S) (s s' : S) (w w' : world F) :
  (∀ x s1 s2 w1 w2, body x s1 w1 = (Ok s2, w2) → I w1 → I w2) →
  for_loop xs body s w = (Ok s', w') → I w → I w'.
Proof.
  intros Hbody. revert s w. induction xs as [|x xs IH]; intros s w H Hw; simpl in H.
  - apply ret_Ok in H as [_ ->]. exact Hw.
  - apply bind_Ok in H as (s1 & w1 & Hx & Hrest). eauto.
Qed.

Lemma deposit_edge_logs (a b : nat) (Q : F) (l : num F) (w w' : world F) :
  deposit_edge a b Q l w = (Ok tt, w') → w_logs w' = w_logs w.
Proof. intros H. apply deposit_edge_Ok in H. tauto. Qed.

Lemma update_pheromone_logs (paths : list (list nat)) (lengths : list (num F))
    (rate Q : F) (n : nat) (w w' : world F) :
  update_pheromone paths lengths rate Q n w = (Ok tt, w') → w_logs w' = w_logs w.
Proof.
  unfold update_pheromone. intros H.
  apply bind_Ok in H as ([] & w1 & Hev & Hdep).
  rewrite evaporate_run in Hev. injection Hev as <-.
  apply (for_loop_invariant (fun w2 => w_logs w2 = w_logs w)) in Hdep; [exact Hdep | | reflexivity].
  intros [p l] [] [] w2 w3 H <-. unfold deposit in H. simpl in H.
  apply bind_Ok in H as ([] & w4 & Hopen & Hclose).
  apply (for_loop_invariant (fun w5 => w_logs w5 = w_logs w2)) in Hopen; [| | reflexivity].
  - rewrite <- Hopen. inv_M. eapply deposit_edge_logs; eassumption.
  - intros i [] [] w5 w6 H <-. inv_M. eapply deposit_edge_logs; eassumption.
Qed.

Lemma for_loop_seq_replicate {S} (f : nat → S → M F S) (k j s : nat)
    (b : S) (w : world F) :
  for_loop (seq j k) (fun _ b2 => f s b2) b w = for_loop (replicate k s) f b w.
Proof.
  revert j b w. induction k as [|k IH]; intros j b w; [reflexivity|].
  cbn [seq replicate for_loop]. apply bind_ext. intros b2 w2. apply IH.
Qed.

Section Run.

Variable tape : nat → nat.
Variable locations : list (location F).
Variables ants iterations : Z.
Variables alpha beta evaporation_rate Q : F.
Variable speed : speed_mode.

Local Abbreviation round_ :=
  (round tape locations ants alpha beta evaporation_rate Q speed).
Local Abbreviation rounds_ :=
  (rounds tape locations ants iterations alpha beta evaporation_rate Q speed).
Local Abbreviation n_ := (n_locations locations).

(** What one completed round did. *)
Lemma round_Ok (start : nat) (b b' : best F) (w w' : world F) :
  round_ start b w = (Ok b', w') →
  ∃ paths lengths w1 m km p,
    generate_paths tape ants start n_ (points locations) alpha beta speed w
      = (Ok (paths, lengths), w1) ∧
    py_min lengths = Ok m ∧
    num_int m.2 = Ok km ∧
    min_path paths lengths = Ok p ∧
    w_logs w' = w_logs w ++ [LogEntry km p] ∧
    b' = if num_lt m.2 (best_path_length b) then Best (Some p) m.2 else b.
Proof.
  unfold round. intros H.
  apply bind_Ok in H as ([paths lengths] & w1 & Hgen & H). simpl in H.
  apply bind_Ok in H as ([] & w2 & Hupd & H).
  apply bind_Ok in H as (m & w3 & Hmin & H). apply lift_Ok in Hmin as [Hmin ->].
  apply bind_Ok in H as (km & w3 & Hkm & H). apply lift_Ok in Hkm as [Hkm ->].
  apply bind_Ok in H as (p & w3 & Hp & H). apply lift_Ok in Hp as [Hp ->].
  apply bind_Ok in H as ([] & w3 & Hlog & H). injection Hlog as <-.
  apply bind_Ok in H as (m' & w4 & Hmin' & H). apply lift_Ok in Hmin' as [Hmin' ->].
  assert (m' = m) as -> by congruence.
  exists paths, lengths, w1, m, km, p.
  split; [exact Hgen|]. split; [exact Hmin|]. split; [exact Hkm|]. split; [exact Hp|].
  apply update_pheromone_logs in Hupd.
  pose proof Hgen as Hgen'. unfold generate_paths in Hgen'.
  apply ants_loop_Ok in Hgen' as (_ & _ & _ & _ & _ & _ & _ & Hlogs).
  destruct (num_lt m.2 (best_path_length b)).
  - inv_M. simpl. split; [rewrite Hupd, Hlogs; reflexivity|]. congruence.
  - apply ret_Ok in H as [-> ->]. simpl.
    split; [rewrite Hupd, Hlogs; reflexivity | reflexivity].
Qed.

(** The matrix after a completed round, entry by entry: the paths a round
    builds are tours, so the update adds each path's quotient once to each
    edge of its closed tour. *)
Lemma round_pheromone_entries (start : nat) (b b' : best F) (w w1 w' : world F)
    (paths : list (list nat)) (lengths : list (num F)) :
  round_ start b w = (Ok b', w') →
  generate_paths tape ants start n_ (points locations) alpha beta speed w
    = (Ok (paths, lengths), w1) →
  ∀ i j x,
    entry (w_pheromone w) i j = Some x →
    entry (w_pheromone w') i j =
    Some (fold_left fadd (deposits_on i j Q (zip paths lengths))
            (fmul x evaporation_rate)).
Proof.
  unfold round. intros H Hgen i j x Hx.
  apply bind_Ok in H as ([paths' lengths'] & w1' & Hgen' & H).
  rewrite Hgen in Hgen'. injection Hgen' as <- <- <-. simpl in H.
  apply bind_Ok in H as ([] & w2 & Hupd & H).
  assert (Hsame : w_pheromone w' = w_pheromone w2).
  { apply bind_Ok in H as (m & w3 & Hmin & H). apply lift_Ok in Hmin as [_ ->].
    apply bind_Ok in H as (km & w3 & Hkm & H). apply lift_Ok in Hkm as [_ ->].
    apply bind_Ok in H as (p & w3 & Hp & H). apply lift_Ok in Hp as [_ ->].
    apply bind_Ok in H as ([] & w3 & Hlog & H). injection Hlog as <-.
    apply bind_Ok in H as (m' & w4 & Hmin' & H). apply lift_Ok in Hmin' as [_ ->].
    destruct (num_lt m'.2 (best_path_length b)); inv_M; reflexivity. }
  unfold generate_paths in Hgen.
  apply ants_loop_Ok in Hgen as (ps & ls & Hps & _ & _ & Hall & Hph & _).
  simpl in Hps. subst ps.
  unfold update_pheromone in Hupd.
  apply bind_Ok in Hupd as ([] & w3 & Hev & Hdep).
  rewrite evaporate_run in Hev. injection Hev as <-.
  apply deposits_Ok in Hdep as [Hent _].
  - rewrite Hsame. apply Hent. simpl. rewrite entry_evaporate, Hph, Hx. reflexivity.
  - assert (Htours : Forall (fun p => NoDup p ∧ length p = n_) paths).
    { eapply Forall2_Forall_l; [exact Hall|].
      apply Forall_true. intros l0 p0 [[Hperm _] _]. split.
      - rewrite Hperm. apply NoDup_seq.
      - rewrite Hperm. apply length_seq. }
    apply Forall_forall. intros [p l] Hin. simpl. apply elem_of_zip_l in Hin.
    eapply Forall_forall in Htours; [exact Htours | exact Hin].
Qed.

(** C5.  A completed round leaves [best_path_length] as it was or replaces
    it by a value that is [<] it: the tracked best length never increases
    from one round to the next. *)
Theorem best_path_length_never_increases (start : nat) (b b' : best F)
    (w w' : world F) :
  round_ start b w = (Ok b', w') → not_longer b' b.
Proof.
  intros H. apply round_Ok in H as (paths & lengths & w1 & m & km & p & _ & _ & _ & _ & _ & ->).
  unfold not_longer.
  destruct (num_lt m.2 (best_path_length b)) eqn:Hlt; [right; exact Hlt | left; reflexivity].
Qed.

(** C10.  The best tour changes on strict improvement only: after a round
    whose shortest length is not [<] the best length so far, [best_path]
    and [best_path_length] are what they were.  That is the case when the
    shortest length is [>=] the best so far, and in particular when it is
    equal to it: a tie does not replace the earlier path.  (The last two
    statements name the fact about [<] they use; both facts are true of
    binary64.) *)
Theorem best_updated_on_strict_improvement_only (start : nat) (b b' : best F)
    (w w1 w' : world F) (paths : list (list nat)) (lengths : list (num F))
    (m : nat * num F) :
  round_ start b w = (Ok b', w') →
  generate_paths tape ants start n_ (points locations) alpha beta speed w
    = (Ok (paths, lengths), w1) →
  py_min lengths = Ok m →
  (num_lt m.2 (best_path_length b) = false → b' = b) ∧
  ((∀ x y : F, fle x y = true → flt y x = false) →
   fle (to_F (best_path_length b)) (to_F m.2) = true → b' = b) ∧
  ((∀ x : F, flt x x = false) → to_F m.2 = to_F (best_path_length b) → b' = b).
Proof.
  intros H Hgen Hmin.
  apply round_Ok in H as (paths' & lengths' & w1' & m' & km & p & Hgen' & Hmin' & _ & _ & _ & ->).
  rewrite Hgen in Hgen'. injection Hgen' as <- <- <-.
  rewrite Hmin in Hmin'. injection Hmin' as <-.
  split; [|split].
  - intros ->. reflexivity.
  - intros Hord Hge. unfold num_lt. rewrite (Hord _ _ Hge). reflexivity.
  - intros Hirr Heq. unfold num_lt. rewrite Heq, Hirr. reflexivity.
Qed.

(** The two nested loops run the rounds of [round_starts], in that order. *)
Lemma rounds_as_list (b : best F) (w : world F) :
  rounds_ b w = for_loop (round_starts n_ iterations) round_ b w.
Proof.
  unfold rounds, round_starts. generalize (seq 0 n_). intros starts.
  revert b w. induction starts as [|s starts IH]; intros b w; [reflexivity|].
  cbn [for_loop flat_map]. rewrite for_loop_app.
  unfold bind. rewrite for_loop_seq_replicate.
  destruct (for_loop (replicate (Z.to_nat iterations) s) _ b w) as [[b1| |] w1];
    [apply IH | reflexivity | reflexivity].
Qed.

Lemma round_starts_length :
  length (round_starts n_ iterations) = n_ * Z.to_nat iterations.
Proof.
  unfold round_starts.
  assert (Hgen : ∀ starts : list nat,
    length (flat_map (fun s => replicate (Z.to_nat iterations) s) starts)
    = length starts * Z.to_nat iterations).
  { induction starts as [|s starts IH]; [reflexivity|].
    cbn [flat_map length]. rewrite length_app, length_replicate, IH. lia. }
  rewrite Hgen, length_seq. reflexivity.
Qed.

(** Each completed round appends one line to the log. *)
Lemma round_list_logs (starts : list nat) (b b' : best F) (w w' : world F) :
  for_loop starts round_ b w = (Ok b', w') →
  length (w_logs w') = length (w_logs w) + length starts.
Proof.
  revert b w. induction starts as [|s starts IH]; intros b w H; simpl in H.
  - apply ret_Ok in H as [_ ->]. simpl. lia.
  - apply bind_Ok in H as (b1 & w1 & Hround & Hrest).
    apply round_Ok in Hround as (_ & _ & _ & _ & km & p & _ & _ & _ & _ & Hlogs & _).
    apply IH in Hrest. rewrite Hrest, Hlogs, length_app. simpl. lia.
Qed.

(** C9.  The driver runs [n * iterations] rounds, the [iterations] rounds of
    start node 0 first, then those of start node 1, and so on; each
    completed round appends one entry to the progress log, so a run that
    returns has added [n * iterations] entries to it. *)
Theorem run_logs_one_entry_per_round
    (r : list string * list (location F)) (w w' : world F) :
  ant_colony_optimization tape locations ants iterations alpha beta
    evaporation_rate Q speed w = (Ok r, w') →
  (∀ b w0, rounds_ b w0 = for_loop (round_starts n_ iterations) round_ b w0) ∧
  length (round_starts n_ iterations) = n_ * Z.to_nat iterations ∧
  length (w_logs w') = length (w_logs w) + n_ * Z.to_nat iterations.
Proof.
  intros H. split; [apply rounds_as_list|]. split; [apply round_starts_length|].
  unfold ant_colony_optimization in H.
  apply bind_Ok in H as ([] & w1 & Hinit & H). injection Hinit as <-.
  apply bind_Ok in H as (b & w2 & Hrounds & H).
  rewrite rounds_as_list in Hrounds. apply round_list_logs in Hrounds.
  rewrite round_starts_length in Hrounds. simpl in Hrounds. rewrite <- Hrounds.
  destruct (best_path b) as [bp|]; [|discriminate].
  inv_M.
  repeat match goal with H : (Ok _, _) = (Ok _, _) |- _ => injection H as <- end.
  subst. reflexivity.
Qed.

End Run.

End DriverFacts.

(** ** The budget of the loops is never the cause of an outcome *)

Section PureFuelFacts.

Context {F : Type} {NE : NumEnv F}.

Lemma num_truediv_fueled (a b : num F) : num_truediv a b ≠ OutOfFuel.
Proof. unfold num_truediv. repeat case_match; discriminate. Qed.

Lemma num_int_fueled (a : num F) : num_int a ≠ OutOfFuel.
Proof. destruct a; simpl; [discriminate | apply call_fueled | apply call_fueled]. Qed.

Lemma getlast_fueled {A} (l : list A) : getlast l ≠ OutOfFuel.
Proof. unfold getlast. destruct l; [discriminate | apply getitem_fueled]. Qed.

Lemma py_min_fueled (l : list (num F)) : py_min l ≠ OutOfFuel.
Proof. destruct l; discriminate. Qed.

Lemma min_path_fueled (paths : list (list nat)) (lengths : list (num F)) :
  min_path paths lengths ≠ OutOfFuel.
Proof.
  unfold min_path. apply obind_fueled; [apply py_min_fueled|]. intros m.
  apply obind_fueled; [|intros i; apply getitem_fueled].
  unfold py_index. generalize 0. induction lengths as [|x rest IH]; intros i; simpl.
  - discriminate.
  - destruct ((i =? m.1) || num_eqb x m.2); [discriminate | apply IH].
Qed.

Lemma comprehension_fueled {A B} (f : A → outcome B) (xs : list A) :
  (∀ x, f x ≠ OutOfFuel) → comprehension f xs ≠ OutOfFuel.
Proof.
  intros Hf. induction xs as [|x xs IH]; simpl; [discriminate|].
  apply obind_fueled; [apply Hf|]. intros y.
  apply obind_fueled; [apply IH | discriminate].
Qed.

Lemma for_loop_fueled {A S} (xs : list A) (body : A → S → M F S) (s : S) (w : world F) :
  (∀ x s1 w1, (body x s1 w1).1 ≠ OutOfFuel) →
  (for_loop xs body s w).1 ≠ OutOfFuel.
Proof.
  intros Hbody. revert s w. induction xs as [|x xs IH]; intros s w; simpl.
  - discriminate.
  - apply bind_fueled; [apply Hbody | intros s1 w1; apply IH].
Qed.

End PureFuelFacts.

Create HintDb fueled discriminated.

#[global] Hint Resolve getitem_fueled setitem_fueled getlast_fueled call_fueled : fueled.
#[global] Hint Resolve distance_fueled num_truediv_fueled num_int_fueled : fueled.
#[global] Hint Resolve py_min_fueled min_path_fueled generate_paths_fueled : fueled.

(** Peels the binds and loops off a goal [(m w).1 ≠ OutOfFuel]. *)
Ltac fueled :=
  repeat first
    [ discriminate
    | solve [auto with fueled]
    | apply for_loop_fueled; intros ? ? ?
    | apply comprehension_fueled; intros ?
    | apply bind_fueled; [|intros ? ?]
    | apply lift_fueled
    | apply obind_fueled; [|intros ?] ].

Section FuelFacts.

Context {F : Type} {NE : NumEnv F}.

Lemma update_pheromone_fueled (paths : list (list nat)) (lengths : list (num F))
    (rate Q : F) (n : nat) (w : world F) :
  (update_pheromone paths lengths rate Q n w).1 ≠ OutOfFuel.
Proof. unfold update_pheromone. fueled. Qed.

Section Run.

Variable tape : nat → nat.
Variable locations : list (location F).
Variables ants iterations : Z.
Variables alpha beta evaporation_rate Q : F.
Variable speed : speed_mode.

Lemma round_fueled (start : nat) (b : best F) (w : world F) :
  (round tape locations ants alpha beta evaporation_rate Q speed start b w).1
  ≠ OutOfFuel.
Proof.
  unfold round. fueled. case_match; fueled.
Qed.

(** Whatever a run of the driver ends with, it is an outcome of the
    source: a result or an exception. *)
Lemma ant_colony_optimization_fueled (w : world F) :
  (ant_colony_optimization tape locations ants iterations alpha beta
     evaporation_rate Q speed w).1 ≠ OutOfFuel.
Proof.
  unfold ant_colony_optimization.
  apply bind_fueled; [discriminate|]. intros ? ?.
  apply bind_fueled.
  - unfold rounds. do 2 (apply for_loop_fueled; intros ? ? ?). apply round_fueled.
  - intros ? ?. case_match; fueled.
Qed.

End Run.

End FuelFacts.

(** ** The test arithmetic obeys the laws *)

Lemma Qred_eq_0 (x : Q) : (x == 0)%Q → Qred x = 0%Q.
Proof. intros H. apply (Qred_complete x 0 H). Qed.

Lemma Qle_bool_Qred (x y : Q) : Qle_bool x (Qred y) = Qle_bool x y.
Proof.
  apply eq_true_iff_eq. rewrite !Qle_bool_iff, Qred_correct. reflexivity.
Qed.

Lemma xq_nonneg_inv (a : xq) :
  nonneg a → ∃ x, a = Fin x ∧ (0 <= x)%Q.
Proof.
  intros [Hfin Hle]. destruct a as [x| | |]; try discriminate.
  exists x. split; [reflexivity|]. apply Qle_bool_iff. exact Hle.
Qed.

Lemma xq_positive_inv (a : xq) :
  positive a → ∃ x, a = Fin x ∧ (0 < x)%Q.
Proof.
  intros [Hfin Hlt]. destruct a as [x| | |]; try discriminate.
  exists x. split; [reflexivity|].
  change (negb (Qle_bool x 0) = true) in Hlt.
  apply negb_true_iff in Hlt. apply Qnot_le_lt. intros Hle.
  apply Qle_bool_iff in Hle. congruence.
Qed.

Lemma xq_nonneg_Fin (x : Q) : (0 <= x)%Q → nonneg (Fin (Qred x)).
Proof.
  intros H. split; [reflexivity|].
  change (Qle_bool 0 (Qred x) = true).
  rewrite Qle_bool_Qred. apply Qle_bool_iff, H.
Qed.

Lemma xq_div_positive (x y : Q) :
  (0 < y)%Q → xq_div (Fin x) (Fin y) = Fin (Qred (x / y)).
Proof.
  intros Hy. simpl. apply Qgt_alt in Hy. rewrite Hy. reflexivity.
Qed.

Lemma xq_sub_same (x : Q) : xq_sub (Fin x) (Fin x) = Fin 0.
Proof.
  simpl. f_equal. apply Qred_eq_0. rewrite Qred_correct. ring.
Qed.

Lemma xq_exact : ExactLaws xq xq_env.
Proof.
  constructor.
  - intros a b Ha Hb.
    apply xq_nonneg_inv in Ha as (x & -> & Hx). apply xq_nonneg_inv in Hb as (y & -> & Hy).
    apply xq_nonneg_Fin.
    rewrite <- (Qplus_0_l 0). apply Qplus_le_compat; assumption.
  - intros a b Ha Hb.
    apply xq_nonneg_inv in Ha as (x & -> & Hx). apply xq_nonneg_inv in Hb as (y & -> & Hy).
    apply xq_nonneg_Fin. apply Qmult_le_0_compat; assumption.
  - intros a b Ha Hb.
    apply xq_nonneg_inv in Ha as (x & -> & Hx). apply xq_positive_inv in Hb as (y & -> & Hy).
    change (fdiv (Fin x) (Fin y)) with (xq_div (Fin x) (Fin y)).
    rewrite xq_div_positive by exact Hy.
    apply xq_nonneg_Fin. apply Qle_shift_div_l; [exact Hy|]. rewrite Qmult_0_l. exact Hx.
  - reflexivity.
  - intros [x| | |] [y| | |]; simpl; congruence.
  - reflexivity.
  - reflexivity.
  - intros [x| | |] [y| | |] c; try discriminate. intros _ _ Hc.
    apply xq_positive_inv in Hc as (z & -> & Hz).
    change (xq_div (xq_add (Fin x) (Fin y)) (Fin z)
            = xq_add (xq_div (Fin x) (Fin z)) (xq_div (Fin y) (Fin z))).
    rewrite !xq_div_positive by exact Hz. unfold xq_add at 1.
    rewrite xq_div_positive by exact Hz. simpl. f_equal.
    apply Qred_complete. rewrite !Qred_correct. field;
      intros H0; rewrite H0 in Hz; apply (Qlt_irrefl 0), Hz.
  - intros c Hc. apply xq_positive_inv in Hc as (z & -> & Hz).
    change (xq_div (Fin 0) (Fin z) = Fin 0).
    rewrite xq_div_positive by exact Hz.
    replace (Qred (0 / z)) with 0%Q; [reflexivity|].
    symmetry. apply Qred_eq_0.
    field; intros H0; rewrite H0 in Hz; apply (Qlt_irrefl 0), Hz.
  - intros c Hc. apply xq_positive_inv in Hc as (z & -> & Hz).
    change (xq_div (Fin z) (Fin z) = Fin 1).
    rewrite xq_div_positive by exact Hz. f_equal.
    apply (Qred_complete (z / z) 1). field;
      intros H0; rewrite H0 in Hz; apply (Qlt_irrefl 0), Hz.
Qed.

Lemma xq_zero : ZeroLaws xq xq_env.
Proof.
  constructor.
  - intros [x| | |]; try discriminate. intros _. apply xq_sub_same.
  - reflexivity.
  - reflexivity.
  - reflexivity.
  - reflexivity.
  - intros [[x| | |] [y| | |]] (Hx & Hy & Hlo & Hhi); try discriminate.
    simpl in *. unfold xq_geodesic_km. simpl.
    change (Qred (-90)) with (-90)%Q in Hlo. change (Qred 90) with 90%Q in Hhi.
    rewrite Hlo, Hhi. cbn [andb].
    assert (Hsame : ∀ z, Qred (z + Qred (- z)) = 0%Q).
    { intros z. apply Qred_eq_0. rewrite Qred_correct. ring. }
    rewrite !Hsame. reflexivity.
Qed.

(** ** The sum of the probabilities *)

Section ExactFacts.

Context {F : Type} {NE : NumEnv F}.
Hypothesis exact : ExactLaws F NE.

Lemma npsum_scaled (l : list F) (c : F) :
  Forall (fun s => ffinite s = true) l → positive c →
  ffinite (npsum l) = true ∧
  npsum (map (fun s => fdiv s c) l) = fdiv (npsum l) c.
Proof.
  intros Hl Hc. induction Hl as [|x l Hx Hl [IHfin IH]]; simpl.
  - rewrite (npsum_nil _ _ exact). split.
    + apply (finite_zero _ _ exact).
    + symmetry. apply (div_zero _ _ exact), Hc.
  - rewrite !(npsum_cons _ _ exact), IH. split.
    + apply (finite_add _ _ exact); assumption.
    + symmetry. apply (div_add _ _ exact); assumption.
Qed.

End ExactFacts.

Section Normalisation.

Context {F : Type} {NE : NumEnv F}.

(** C7, as it holds.  The array [calculate_probabilities] returns holds,
    for each unvisited node [j] in turn, the score
    [pheromone[current, j] ** alpha / distance(current, j) ** beta] divided
    by [np.sum] of the scores of all unvisited nodes, as the arithmetic of
    the environment computes them: this part needs no law and is true of
    binary64.  That these quotients add up to one, when the scores are
    finite and their sum is positive, is a fact of arithmetic without
    rounding or overflow ([ExactLaws]); binary64 gives a sum that is only
    close to one. *)
Theorem probabilities_are_normalised_scores (pheromone : list (list F))
    (current : nat) (unvisited : list nat) (points : list (point F))
    (alpha beta : F) (speed : speed_mode) (probabilities : list F) :
  calculate_probabilities pheromone current unvisited points alpha beta speed
    = Ok probabilities →
  ∃ scores,
    Forall2 (fun j s => ∃ x d dp,
               entry pheromone current j = Some x ∧
               distance_at points speed current j = Ok d ∧
               num_pow d beta = Ok dp ∧
               s = fdiv (fpow x alpha) (to_F dp))
            unvisited scores ∧
    probabilities = map (fun s => fdiv s (npsum scores)) scores ∧
    (ExactLaws F NE →
     Forall (fun s => ffinite s = true) scores → positive (npsum scores) →
     npsum probabilities = fone).
Proof.
  intros H. apply calculate_probabilities_Ok in H as (scores & Hall & ->).
  exists scores. split; [|split; [reflexivity|]].
  - eapply Forall2_impl; [exact Hall|]. intros j s Hs. apply score_Ok, Hs.
  - intros exact Hfin Hpos.
    destruct (npsum_scaled exact scores (npsum scores) Hfin Hpos) as [_ ->].
    apply (div_same _ _ exact), Hpos.
Qed.

End Normalisation.

(** C7, as stated, fails in binary64.  Seen from a place with six places
    at the same distance, on the matrix of ones and with both weights 1,
    the six scores are equal, finite and of positive sum; each probability
    is the binary64 number nearest to 1/6, and [np.sum] of the six is the
    number just below 1.  Their sum without rounding is below 1 as well.
    Binary64 does not have the laws of [ExactLaws]: (1 + 2) / 10 is not
    1 / 10 + 2 / 10 there. *)
Lemma probabilities_sum_below_one :
  let pheromone := replicate 7 (replicate 7 (fone : PrimFloat.float)) in
  ∃ probabilities scores,
    calculate_probabilities pheromone 0 [1; 2; 3; 4; 5; 6] ring_points fone fone Fast
      = Ok probabilities ∧
    Forall2 (fun j s => ∃ x d dp,
               entry pheromone 0 j = Some x ∧
               distance_at ring_points Fast 0 j = Ok d ∧
               num_pow d fone = Ok dp ∧
               s = fdiv (fpow x fone) (to_F dp))
            [1; 2; 3; 4; 5; 6] scores ∧
    probabilities = map (fun s => fdiv s (npsum scores)) scores ∧
    Forall (fun s => ffinite s = true) scores ∧ positive (npsum scores) ∧
    probabilities = replicate 6 (of_Q (1 # 6)) ∧
    npsum probabilities ≠ fone ∧
    flt (npsum probabilities) fone = true ∧
    (∃ total, b64_exact_sum probabilities = Some total ∧ (total < 1)%Q) ∧
    ¬ ExactLaws PrimFloat.float b64_env.
Proof.
  cbn zeta.
  destruct (calculate_probabilities (replicate 7 (replicate 7 (fone : PrimFloat.float)))
              0 [1; 2; 3; 4; 5; 6] ring_points fone fone Fast)
    as [probabilities| |] eqn:Hcalc; try (vm_compute in Hcalc; discriminate Hcalc).
  pose proof Hcalc as Hscores.
  apply calculate_probabilities_Ok in Hscores as (scores & Hall & Hps).
  assert (Hval : probabilities = replicate 6 (of_Q (1 # 6))).
  { vm_compute in Hcalc. injection Hcalc as <-. vm_compute. reflexivity. }
  assert (Hsc : scores = replicate 6 (fdiv fone (fmul (of_Q 5) CONVERSION_FACTOR))).
  { clear Hps Hval Hcalc.
    repeat match goal with
           | H : Forall2 _ (_ :: _) _ |- _ =>
               apply Forall2_cons_inv_l in H as (? & ? & ? & H & ->)
           | H : Forall2 _ [] _ |- _ => apply Forall2_nil_inv_l in H as ->
           | H : score _ _ _ _ _ _ _ = Ok _ |- _ =>
               vm_compute in H; injection H as <-
           end.
    vm_compute. reflexivity. }
  exists probabilities, scores. split; [reflexivity|].
  split; [eapply Forall2_impl; [exact Hall|]; intros j s Hs; apply score_Ok, Hs|].
  split; [exact Hps|]. clear Hall Hps Hcalc. subst scores probabilities.
  split; [repeat constructor|].
  split; [split; vm_compute; reflexivity|].
  split; [reflexivity|].
  split.
  { intros H.
    pose proof (f_equal (fun x => PrimFloat.eqb x fone) H) as H'.
    vm_compute in H'. discriminate H'. }
  split; [vm_compute; reflexivity|].
  split; [eexists; split; [vm_compute; reflexivity | vm_compute; reflexivity]|].
  intros exact.
  pose proof (div_add _ _ exact (of_Q 1) (of_Q 2) (of_Q 10)) as H.
  assert (H' : PrimFloat.eqb (fdiv (fadd (of_Q 1) (of_Q 2)) (of_Q 10))
                             (fadd (fdiv (of_Q 1) (of_Q 10)) (fdiv (of_Q 2) (of_Q 10)))
               = true).
  { rewrite H; [vm_compute; reflexivity | reflexivity | reflexivity |
                split; vm_compute; reflexivity]. }
  vm_compute in H'. discriminate H'.
Qed.



(** ** The distance of a point to itself *)

Section ZeroFacts.

Context {F : Type} {NE : NumEnv F}.
Hypothesis zero : ZeroLaws F NE.

(** C8.  The distance from a point to itself is exactly 0 in both modes:
    in fast mode because [distance] is the Euclidean distance of the two
    coordinate pairs times 111.32, in the other mode because geopy's
    geodesic is.  The point has finite coordinates and, for geopy, a
    latitude within [-90, 90]. *)
Theorem distance_to_itself_is_zero (p : point F) (speed : speed_mode) :
  ffinite (px p) = true → ffinite (py p) = true →
  (speed = Slow → valid_coordinates p) →
  distance p p speed
    = Ok (match speed with Fast => NpFloat fzero | Slow => PyFloat fzero end) ∧
  (∀ p1 p2 : point F,
     distance p1 p2 Fast
     = Ok (NpFloat (fmul (fsqrt (npsum [fpow (fsub (px p1) (px p2)) (of_Q 2);
                                        fpow (fsub (py p1) (py p2)) (of_Q 2)]))
                         (of_Q (11132 # 100))))).
Proof.
  intros Hx Hy Hvalid. split; [|reflexivity].
  destruct speed; simpl.
  - rewrite !(sub_same _ _ zero) by assumption.
    rewrite (square_zero _ _ zero), (sum_zero _ _ zero).
    rewrite (sqrt_zero _ _ zero), (mul_zero _ _ zero).
    reflexivity.
  - rewrite (geodesic_same _ _ zero) by auto. reflexivity.
Qed.

End ZeroFacts.

(** ** The entries of the pheromone matrix *)

Section NonnegFacts.

Context {F : Type} {NE : NumEnv F}.
Hypothesis exact : ExactLaws F NE.

Lemma evaporate_nonneg (pheromone : list (list F)) (rate : F) :
  all_entries nonneg pheromone → nonneg rate →
  all_entries nonneg (map (map (fun x => fmul x rate)) pheromone).
Proof.
  intros Hph Hrate. unfold all_entries in *.
  change (map ?f ?l) with (f <$> l). apply Forall_fmap.
  eapply Forall_impl; [exact Hph|]. intros row Hrow. simpl.
  change (map ?f ?l) with (f <$> l). apply Forall_fmap.
  eapply Forall_impl; [exact Hrow|]. intros x Hx. simpl.
  apply (nonneg_mul _ _ exact); assumption.
Qed.

Lemma deposit_edge_nonneg (a b : nat) (Q : F) (l : num F) (w w' : world F) :
  nonneg Q → positive (to_F l) →
  deposit_edge a b Q l w = (Ok tt, w') →
  all_entries nonneg (w_pheromone w) → all_entries nonneg (w_pheromone w').
Proof.
  intros HQ Hl H Hph.
  unfold deposit_edge, get_pheromone, put_pheromone in H. inv_M.
  match goal with H : (Ok _, _) = (Ok _, _) |- _ => injection H as <- <- end.
  match goal with H : (Ok _, _) = (Ok _, _) |- _ => injection H as <- end.
  repeat match goal with H : getitem _ _ = Ok _ |- _ => apply getitem_Ok in H end.
  match goal with H : num_truediv _ _ = Ok _ |- _ =>
    apply num_truediv_Ok in H as Hq end.
  simpl. unfold all_entries in *. rewrite Hq.
  match goal with H : w_pheromone w !! a = Some ?r |- _ =>
    pose proof (Forall_lookup_1 _ _ _ _ Hph H) as Hrow end.
  apply Forall_insert; [exact Hph|].
  apply Forall_insert; [exact Hrow|].
  apply (nonneg_add _ _ exact).
  - eapply Forall_lookup_1; eassumption.
  - apply (nonneg_div _ _ exact); assumption.
Qed.

Lemma deposit_nonneg (p : list nat) (l : num F) (Q : F) (n : nat) (w w' : world F) :
  nonneg Q → positive (to_F l) →
  deposit p l Q n w = (Ok tt, w') →
  all_entries nonneg (w_pheromone w) → all_entries nonneg (w_pheromone w').
Proof.
  intros HQ Hl H Hph. unfold deposit in H.
  apply bind_Ok in H as ([] & w1 & Hopen & Hclose).
  apply (for_loop_invariant (fun w2 => all_entries nonneg (w_pheromone w2)))
    in Hopen; [| |exact Hph].
  - inv_M. eapply deposit_edge_nonneg; eassumption.
  - intros i [] [] w2 w3 H Hw2. inv_M. eapply deposit_edge_nonneg; eassumption.
Qed.


End NonnegFacts.


(** The same matrix arises in a run of the driver: two places with the same
    coordinates, [beta = 0] and [Q = 0]. *)
Lemma twin_places_run :
  ∃ o w',
    ant_colony_optimization first_tape twin_places 1 1 (Fin 1) (Fin 0)
      (Fin (1 # 2)) (Fin 0) Fast fresh_world = (o, w') ∧
    w_pheromone w' = [[Fin (1 # 2); NaN]; [NaN; Fin (1 # 2)]].
Proof. do 2 eexists. split; vm_compute; reflexivity. Qed.

(** ** Inputs the driver cannot handle *)

Section InvalidInput.

Context {F : Type} {NE : NumEnv F}.
Variable tape : nat → nat.

(** With a single place every ant stays where it is: the path is [[0]] and
    its length the integer 0. *)
Lemma one_ant_one_place (pts : list (point F)) (alpha beta : F) (speed : speed_mode)
    (w : world F) :
  one_ant tape 0 1 pts alpha beta speed w = (Ok (Ant [true] 0 [0] (PyInt 0)), w).
Proof. reflexivity. Qed.

Lemma ants_loop_one_place (pts : list (point F)) (alpha beta : F) (speed : speed_mode)
    (k : nat) (ps : list (list nat)) (ls : list (num F)) (w : world F) :
  ants_loop tape k 0 1 pts alpha beta speed ps ls w
  = (Ok (ps ++ replicate k [0], ls ++ replicate k (PyInt 0)), w).
Proof.
  revert ps ls. induction k as [|k IH]; intros ps ls; cbn [ants_loop replicate].
  - rewrite !app_nil_r. reflexivity.
  - unfold bind. rewrite one_ant_one_place, IH, <- !app_assoc. reflexivity.
Qed.

(** The first deposit of a round on a single place divides by the integer
    0: the round ends there, the matrix evaporated. *)
Lemma update_pheromone_one_place (k : nat) (rate Q x : F) (w : world F) :
  w_pheromone w = [[x]] →
  update_pheromone (replicate (S k) [0]) (replicate (S k) (PyInt 0)) rate Q 1 w
  = (Raise ZeroDivisionError,
     World [[fmul x rate]] (w_rng w) (w_logs w) (w_best_path w) (w_best_path_length w)).
Proof.
  intros Hph. unfold update_pheromone, bind. rewrite evaporate_run, Hph.
  reflexivity.
Qed.

Section Run.

Variable locations : list (location F).
Variables ants iterations : Z.
Variables alpha beta evaporation_rate Q : F.
Variable speed : speed_mode.

Local Abbreviation round_ :=
  (round tape locations ants alpha beta evaporation_rate Q speed).
Local Abbreviation rounds_ :=
  (rounds tape locations ants iterations alpha beta evaporation_rate Q speed).
Local Abbreviation run_ :=
  (ant_colony_optimization tape locations ants iterations alpha beta
     evaporation_rate Q speed).

Lemma round_one_place (b : best F) (w : world F) (x : F) :
  length locations = 1 → (1 <= ants)%Z → w_pheromone w = [[x]] →
  round_ 0 b w
  = (Raise ZeroDivisionError,
     World [[fmul x evaporation_rate]] (w_rng w) (w_logs w)
           (w_best_path w) (w_best_path_length w)).
Proof.
  intros Hn Hants Hph. unfold round, generate_paths, n_locations. rewrite Hn.
  destruct (Z.to_nat ants) as [|k] eqn:Hk; [lia|].
  unfold bind at 1. rewrite ants_loop_one_place. cbn [app fst snd].
  unfold bind at 1. rewrite (update_pheromone_one_place k _ _ x) by exact Hph.
  reflexivity.
Qed.

Lemma round_no_ants (start : nat) (b : best F) (w : world F) :
  (ants <= 0)%Z →
  round_ start b w
  = (Raise ValueError,
     World (map (map (fun x => fmul x evaporation_rate)) (w_pheromone w))
           (w_rng w) (w_logs w) (w_best_path w) (w_best_path_length w)).
Proof.
  intros Hants. unfold round, generate_paths.
  replace (Z.to_nat ants) with 0 by lia. reflexivity.
Qed.

Lemma rounds_none (b : best F) (w : world F) :
  length locations = 0 ∨ (iterations <= 0)%Z → rounds_ b w = (Ok b, w).
Proof.
  intros H. unfold rounds, n_locations. destruct H as [-> | Hit]; [reflexivity|].
  replace (Z.to_nat iterations) with 0 by lia. cbn [seq for_loop].
  generalize 0. induction (length locations) as [|n IH]; intros j; [reflexivity|].
  cbn [seq for_loop]. unfold bind, ret at 1. apply IH.
Qed.

(** C6, as it holds.  The driver validates nothing.  With one location the
    first round builds its paths, evaporates the matrix and stops in the
    first deposit with [ZeroDivisionError]; without ants the first round
    evaporates the matrix and stops in [min] of an empty list with
    [ValueError]; without locations or iterations no round runs and the
    run stops with [TypeError] where it iterates over a [best_path] that
    is still [None].  So on every input with [n < 2], [ants < 1] or
    [iterations < 1] the run ends with an error: no result is returned,
    none is written to the session, and no line is logged. *)
Theorem invalid_input_is_not_validated (w : world F) :
  (length locations = 1 → (1 <= ants)%Z → (1 <= iterations)%Z →
   run_ w = (Raise ZeroDivisionError,
             with_pheromone w (evaporated_once 1 evaporation_rate))) ∧
  (1 ≤ length locations → (ants <= 0)%Z → (1 <= iterations)%Z →
   run_ w = (Raise ValueError,
             with_pheromone w (evaporated_once (length locations) evaporation_rate))) ∧
  (length locations = 0 ∨ (iterations <= 0)%Z →
   run_ w = (Raise TypeError,
             with_pheromone w (replicate (length locations)
                                 (replicate (length locations) fone)))) ∧
  (length locations < 2 ∨ (ants < 1)%Z ∨ (iterations < 1)%Z →
   ∃ e w', run_ w = (Raise e, w') ∧
           w_logs w' = w_logs w ∧ w_best_path w' = w_best_path w ∧
           w_best_path_length w' = w_best_path_length w).
Proof.
  assert (Hparts :
    (length locations = 1 → (1 <= ants)%Z → (1 <= iterations)%Z →
     run_ w = (Raise ZeroDivisionError,
               with_pheromone w (evaporated_once 1 evaporation_rate))) ∧
    (1 ≤ length locations → (ants <= 0)%Z → (1 <= iterations)%Z →
     run_ w = (Raise ValueError,
               with_pheromone w (evaporated_once (length locations) evaporation_rate))) ∧
    (length locations = 0 ∨ (iterations <= 0)%Z →
     run_ w = (Raise TypeError,
               with_pheromone w (replicate (length locations)
                                   (replicate (length locations) fone))))).
  2: { destruct Hparts as (Hone & Hants & Hnone).
       split; [exact Hone|]. split; [exact Hants|]. split; [exact Hnone|].
       intros Hbad.
       destruct (decide (length locations = 0 ∨ (iterations <= 0)%Z)) as [H0 | H0].
       { do 2 eexists. split; [apply Hnone, H0 | auto]. }
       destruct (decide (ants <= 0)%Z) as [Ha | Ha].
       { do 2 eexists. split; [apply Hants; [lia | exact Ha | lia] | auto]. }
       do 2 eexists. split; [apply Hone; lia | auto]. }
  split; [|split].
  - intros Hn Hants Hit. unfold ant_colony_optimization, rounds, n_locations.
    rewrite Hn. destruct (Z.to_nat iterations) as [|j] eqn:Hj; [lia|].
    cbn [seq for_loop]. unfold bind at 1. unfold put_pheromone at 1.
    unfold bind at 1. unfold bind at 1. unfold bind at 1.
    rewrite (round_one_place _ _ fone) by auto. reflexivity.
  - intros Hn Hants Hit. unfold ant_colony_optimization, rounds, n_locations.
    destruct (length locations) as [|n']; [lia|].
    destruct (Z.to_nat iterations) as [|j] eqn:Hj; [lia|].
    cbn [seq for_loop]. unfold bind at 1. unfold put_pheromone at 1.
    unfold bind at 1. unfold bind at 1. unfold bind at 1.
    rewrite round_no_ants by exact Hants. reflexivity.
  - intros H. unfold ant_colony_optimization.
    unfold bind at 1. unfold put_pheromone at 1.
    unfold bind at 1. rewrite rounds_none by exact H. reflexivity.
Qed.

End Run.

End InvalidInput.

(** C6, as stated, fails on a single location: the run does not stop
    before its first round but in it, with [ZeroDivisionError], the matrix
    already evaporated. *)
Lemma one_place_does_not_fail_fast :
  let r := ant_colony_optimization first_tape one_place 1 1 (Fin 1) (Fin 1)
             (Fin (1 # 2)) (Fin 1) Fast fresh_world in
  r = (Raise ZeroDivisionError, World [[Fin (1 # 2)]] 0 [] None None) ∧
  ¬ fails_fast 1 fresh_world r.
Proof.
  cbn zeta. split; [vm_compute; reflexivity|].
  intros (e & _ & [H | (H & _)]); vm_compute in H; discriminate H.
Qed.


(** * Further properties of the engine *)

(** ** What an operation leaves alone *)

Section Preservation.

Context {F : Type} {NE : NumEnv F}.

Lemma preserves_ret {A} (I : world F → Prop) (a : A) : preserves I (ret a).
Proof. intros w o w' [= <- <-] Hw. exact Hw. Qed.

Lemma preserves_lift {A} (I : world F → Prop) (o : outcome A) : preserves I (lift o).
Proof. intros w o' w' [= <- <-] Hw. exact Hw. Qed.

Lemma preserves_bind {A B} (I : world F → Prop) (m : M F A) (k : A → M F B) :
  preserves I m → (∀ a, preserves I (k a)) → preserves I (bind m k).
Proof.
  intros Hm Hk w o w' H Hw. unfold bind in H.
  destruct (m w) as [[a| |] w1] eqn:Em.
  - eapply Hk; [exact H|]. eapply Hm; eassumption.
  - injection H as <- <-. eapply Hm; eassumption.
  - injection H as <- <-. eapply Hm; eassumption.
Qed.

Lemma preserves_for_loop {A S} (I : world F → Prop) (xs : list A)
    (body : A → S → M F S) (s : S) :
  (∀ x s1, preserves I (body x s1)) → preserves I (for_loop xs body s).
Proof.
  intros Hbody. revert s. induction xs as [|x xs IH]; intros s; simpl.
  - apply preserves_ret.
  - apply preserves_bind; [apply Hbody | intros s1; apply IH].
Qed.

Lemma preserves_get_pheromone (I : world F → Prop) : preserves I get_pheromone.
Proof. intros w o w' [= <- <-] Hw. exact Hw. Qed.

End Preservation.

(** Splits a goal [preserves I m] along the binds and loops of [m]. *)
Ltac preserving :=
  repeat first
    [ apply preserves_ret
    | apply preserves_lift
    | apply preserves_get_pheromone
    | apply preserves_for_loop; intros ? ?
    | apply preserves_bind; [|intros ?] ].

Section Frames.

Context {F : Type} {NE : NumEnv F}.
Variable tape : nat → nat.

Lemma choice_frame (w0 : world F) (a : list nat) (p : list F) :
  preserves (same_but_rng w0) (choice tape a p).
Proof.
  intros w o w' H Hw. unfold choice in H.
  repeat case_match; injection H as <- <-; exact Hw.
Qed.

Lemma walk_frame (w0 : world F) (points : list (point F)) (alpha beta : F)
    (speed : speed_mode) (fuel : nat) (a : ant F) :
  preserves (same_but_rng w0) (walk tape points alpha beta speed fuel a).
Proof.
  revert a. induction fuel as [|fuel IH]; intros a; simpl; case_match.
  - apply preserves_lift.
  - apply preserves_ret.
  - apply preserves_bind; [|intros a'; apply IH].
    unfold walk_step.
    apply preserves_bind; [apply preserves_get_pheromone | intros ?].
    apply preserves_bind; [apply preserves_lift | intros ?].
    apply preserves_bind; [apply choice_frame | intros ?].
    preserving.
  - apply preserves_ret.
Qed.

Lemma generate_paths_frame (w0 : world F) (ants : Z) (start n : nat)
    (points : list (point F)) (alpha beta : F) (speed : speed_mode) :
  preserves (same_but_rng w0)
    (generate_paths tape ants start n points alpha beta speed).
Proof.
  unfold generate_paths. generalize (Z.to_nat ants) ([] : list (list nat))
    ([] : list (num F)).
  intros k. induction k as [|k IH]; intros ps ls; simpl.
  - apply preserves_ret.
  - apply preserves_bind; [|intros a; apply IH].
    unfold one_ant. apply preserves_bind; [apply preserves_lift|].
    intros v. apply walk_frame.
Qed.

Lemma walk_step_rng (points : list (point F)) (alpha beta : F) (speed : speed_mode)
    (a a' : ant F) (w w' : world F) :
  walk_step tape points alpha beta speed a w = (Ok a', w') → w_rng w' = S (w_rng w).
Proof.
  unfold walk_step, get_pheromone. intros H. inv_M.
  match goal with H : (Ok _, _) = (Ok _, _) |- _ => injection H as <- <- end.
  match goal with H : choice _ _ _ _ = _ |- _ => unfold choice in H end.
  repeat case_match; try discriminate.
  match goal with H : (Ok _, _) = (Ok _, _) |- _ => injection H as <- <- end.
  reflexivity.
Qed.

(** The loop of an ant draws once for each node it has yet to visit. *)
Lemma walk_rng (points : list (point F)) (alpha beta : F) (speed : speed_mode)
    (n start fuel : nat) (a a' : ant F) (w w' : world F) :
  ant_inv points speed n start a →
  walk tape points alpha beta speed fuel a w = (Ok a', w') →
  w_rng w' = w_rng w + length (where_not 0 (visited a)).
Proof.
  revert a w. induction fuel as [|fuel IH]; intros a w Hinv; simpl.
  - case_bool_decide as Hf; [discriminate|].
    intros H. apply ret_Ok in H as [_ ->].
    apply (where_not_nil _ 0) in Hf. rewrite Hf. simpl. lia.
  - case_bool_decide as Hf.
    + intros H. apply bind_Ok in H as (a1 & w1 & Hstep & Hrest).
      pose proof (walk_step_rng _ _ _ _ _ _ _ _ Hstep) as Hrng.
      apply (walk_step_inv _ _ _ _ _ n start) in Hstep as [Hinv' Hcount]; [|exact Hinv].
      apply IH in Hrest; [|exact Hinv']. lia.
    + intros H. apply ret_Ok in H as [_ ->].
      apply (where_not_nil _ 0) in Hf. rewrite Hf. simpl. lia.
Qed.

Lemma where_not_start (n start : nat) :
  start < n →
  length (where_not 0 (<[start := true]> (replicate n false))) = n - 1.
Proof.
  intros Hlt.
  assert (Hall : ∀ m k, length (where_not k (replicate m false)) = m).
  { induction m as [|m IH]; intros k; simpl; [reflexivity | rewrite IH; reflexivity]. }
  assert (Hstart : replicate n false !! start = Some false)
    by (apply lookup_replicate; auto).
  pose proof (where_not_insert_length (replicate n false) 0 start Hstart) as H.
  rewrite Hall in H. lia.
Qed.

Lemma ants_loop_rng (points : list (point F)) (alpha beta : F) (speed : speed_mode)
    (n start k : nat) (paths0 : list (list nat)) (lengths0 : list (num F))
    (paths : list (list nat)) (lengths : list (num F)) (w w' : world F) :
  ants_loop tape k start n points alpha beta speed paths0 lengths0 w
    = (Ok (paths, lengths), w') →
  w_rng w' = w_rng w + k * (n - 1).
Proof.
  revert paths0 lengths0 w. induction k as [|k IH]; intros paths0 lengths0 w; simpl.
  - intros H. apply ret_Ok in H as [_ ->]. lia.
  - intros H. apply bind_Ok in H as (a & w1 & Hant & Hrest).
    apply IH in Hrest. rewrite Hrest. unfold one_ant in Hant.
    apply bind_Ok in Hant as (v & w2 & Hset & Hwalk).
    apply lift_Ok in Hset as [Hset ->].
    apply setitem_Ok in Hset as [Hlt ->]. rewrite length_replicate in Hlt.
    apply (walk_rng _ _ _ _ n start) in Hwalk; [|apply one_ant_inv, Hlt].
    simpl in Hwalk. rewrite where_not_start in Hwalk by exact Hlt. lia.
Qed.

(** X1.  [generate_paths] only reads the pheromone matrix: whatever its
    outcome, the matrix, the log and the session keys are what they were.
    When it returns, it has drawn [ants * (n - 1)] times from the
    generator and returns as many lengths as paths. *)
Theorem generate_paths_reads_only (ants : Z) (start n : nat)
    (points : list (point F)) (alpha beta : F) (speed : speed_mode)
    (w w' : world F) (o : outcome (list (list nat) * list (num F))) :
  generate_paths tape ants start n points alpha beta speed w = (o, w') →
  same_but_rng w w' ∧
  (∀ paths lengths, o = Ok (paths, lengths) →
     w_rng w' = w_rng w + Z.to_nat ants * (n - 1) ∧
     length lengths = length paths).
Proof.
  intros H. split.
  - eapply generate_paths_frame; [exact H|]. repeat split.
  - intros paths lengths ->. unfold generate_paths in H. split.
    + eapply ants_loop_rng, H.
    + apply ants_loop_Ok in H as (ps & ls & -> & -> & _ & Hall & _).
      simpl. symmetry. eapply Forall2_length, Hall.
Qed.

End Frames.

(** ** The size of the probabilities, the shape of the matrix *)

Section Shapes.

Context {F : Type} {NE : NumEnv F}.

(** X2.  [calculate_probabilities] returns one probability for each
    unvisited node, the size [numpy.random.choice] asks of [p]; for no
    unvisited node it returns the empty array; and for a current node
    that is no row of the matrix it raises [IndexError] at the first
    unvisited node. *)
Theorem calculate_probabilities_size (pheromone : list (list F)) (current : nat)
    (unvisited : list nat) (points : list (point F)) (alpha beta : F)
    (speed : speed_mode) :
  (∀ probabilities,
     calculate_probabilities pheromone current unvisited points alpha beta speed
       = Ok probabilities →
     length probabilities = length unvisited) ∧
  calculate_probabilities pheromone current [] points alpha beta speed = Ok [] ∧
  (unvisited ≠ [] → length pheromone ≤ current →
   calculate_probabilities pheromone current unvisited points alpha beta speed
     = Raise IndexError).
Proof.
  split; [|split].
  - intros ps H. apply calculate_probabilities_Ok in H as (scores & Hall & ->).
    rewrite length_map. symmetry. eapply Forall2_length, Hall.
  - reflexivity.
  - intros Hne Hge. destruct unvisited as [|j rest]; [contradiction|].
    unfold calculate_probabilities. cbn [fill_probabilities].
    unfold score, getitem at 1. rewrite lookup_ge_None_2 by exact Hge. reflexivity.
Qed.

Lemma shape_insert (pheromone : list (list F)) (a b : nat) (row : list F) (x : F) :
  pheromone !! a = Some row →
  shape (<[a := <[b := x]> row]> pheromone) = shape pheromone.
Proof.
  intros Hrow. unfold shape. change (map ?f ?l) with (f <$> l).
  rewrite list_fmap_insert, length_insert. apply list_insert_id.
  rewrite list_lookup_fmap, Hrow. reflexivity.
Qed.

Lemma shape_evaporate (pheromone : list (list F)) (rate : F) :
  shape (map (map (fun x => fmul x rate)) pheromone) = shape pheromone.
Proof.
  unfold shape. induction pheromone as [|row rest IH]; [reflexivity|].
  simpl. rewrite length_map, IH. reflexivity.
Qed.

Lemma deposit_edge_frame (w0 : world F) (a b : nat) (Q : F) (l : num F) :
  preserves (update_frame w0) (deposit_edge a b Q l).
Proof.
  intros w o w' H (Hsh & Hrest).
  unfold deposit_edge, get_pheromone, put_pheromone, bind, lift, getitem in H.
  destruct (w_pheromone w !! a) as [row|] eqn:Hrow;
    [|injection H as <- <-; split; assumption].
  destruct (row !! b) as [old|];
    [|injection H as <- <-; split; assumption].
  destruct (num_truediv (PyFloat Q) l) as [q| |];
    injection H as <- <-; try (split; assumption).
  split; [|exact Hrest]. simpl. rewrite shape_insert by exact Hrow. exact Hsh.
Qed.

Lemma deposit_frame (w0 : world F) (p : list nat) (l : num F) (Q : F) (n : nat) :
  preserves (update_frame w0) (deposit p l Q n).
Proof.
  unfold deposit. apply preserves_bind.
  - apply preserves_for_loop. intros i [].
    apply preserves_bind; [apply preserves_lift | intros x].
    apply preserves_bind; [apply preserves_lift | intros y].
    apply deposit_edge_frame.
  - intros [].
    apply preserves_bind; [apply preserves_lift | intros x].
    apply preserves_bind; [apply preserves_lift | intros y].
    apply deposit_edge_frame.
Qed.

Lemma update_pheromone_frame (w0 : world F) (paths : list (list nat))
    (lengths : list (num F)) (rate Q : F) (n : nat) :
  preserves (update_frame w0) (update_pheromone paths lengths rate Q n).
Proof.
  unfold update_pheromone. apply preserves_bind.
  - intros w o w' H (Hsh & Hrest). rewrite evaporate_run in H.
    injection H as <- <-. split; [|exact Hrest]. simpl.
    rewrite shape_evaporate. exact Hsh.
  - intros []. apply preserves_for_loop. intros [p l] []. apply deposit_frame.
Qed.

(** X3.  Whether [update_pheromone] completes or raises, the matrix keeps
    its shape (the number of rows and the length of each), and the
    generator, the log and the session keys are untouched. *)
Theorem update_pheromone_keeps_shape (paths : list (list nat))
    (lengths : list (num F)) (rate Q : F) (n : nat)
    (w w' : world F) (o : outcome unit) :
  update_pheromone paths lengths rate Q n w = (o, w') →
  shape (w_pheromone w') = shape (w_pheromone w) ∧
  w_rng w' = w_rng w ∧ w_logs w' = w_logs w ∧
  w_best_path w' = w_best_path w ∧
  w_best_path_length w' = w_best_path_length w.
Proof.
  intros H. eapply (update_pheromone_frame w); [exact H|]. repeat split.
Qed.

(** ** When the update goes through *)

Lemma entry_in_shape (pheromone : list (list F)) (n a b : nat) :
  shape pheromone = replicate n n → a < n → b < n →
  is_Some (entry pheromone a b).
Proof.
  intros Hsh Ha Hb. unfold entry.
  assert (Hlen : length pheromone = n).
  { rewrite <- (length_replicate n n), <- Hsh. unfold shape. rewrite length_map.
    reflexivity. }
  destruct (lookup_lt_is_Some_2 pheromone a) as [row Hrow]; [lia|].
  rewrite Hrow. apply lookup_lt_is_Some_2.
  assert (Hr : shape pheromone !! a = Some (length row)).
  { unfold shape. change (map ?f ?l) with (f <$> l).
    rewrite list_lookup_fmap, Hrow. reflexivity. }
  rewrite Hsh in Hr. apply lookup_replicate in Hr as [<- _]. exact Hb.
Qed.

Lemma deposit_edges_progress (edges : list (nat * nat)) (Q : F) (l : num F)
    (n : nat) (w : world F) :
  shape (w_pheromone w) = replicate n n →
  Forall (fun e => e.1 < n ∧ e.2 < n) edges →
  divides Q l →
  ∃ w', deposit_edges edges Q l w = (Ok tt, w').
Proof.
  intros Hsh Hedges [q Hq]. unfold deposit_edges. revert w Hsh.
  induction Hedges as [|[a b] rest [Ha Hb] _ IH]; intros w Hsh;
    cbn [for_loop fst snd] in *.
  - eexists. reflexivity.
  - destruct (entry_in_shape _ n a b Hsh Ha Hb) as [old Hold].
    unfold entry in Hold.
    destruct (w_pheromone w !! a) as [row|] eqn:Hrow; [|discriminate].
    assert (Hedge : ∃ w1, deposit_edge a b Q l w = (Ok tt, w1) ∧
                          shape (w_pheromone w1) = replicate n n).
    { unfold deposit_edge, get_pheromone, put_pheromone, bind, lift, getitem.
      rewrite Hrow, Hold, Hq. eexists. split; [reflexivity|].
      simpl. rewrite shape_insert by exact Hrow. exact Hsh. }
    destruct Hedge as (w1 & Hw1 & Hsh1).
    unfold bind at 1. rewrite Hw1. apply IH, Hsh1.
Qed.

Lemma closed_edges_in_range (n : nat) (p : list nat) :
  p ≡ₚ seq 0 n → Forall (fun e => e.1 < n ∧ e.2 < n) (closed_edges p).
Proof.
  intros Hperm. apply Forall_forall. intros [a b] Hin.
  assert (Hp : ∀ x, x ∈ p → x < n).
  { intros x Hx. rewrite Hperm in Hx. apply elem_of_seq in Hx. lia. }
  unfold closed_edges in Hin. simpl. split.
  - apply Hp. eapply elem_of_zip_l, Hin.
  - apply elem_of_zip_r in Hin. apply elem_of_app in Hin as [Hin | Hin].
    + apply Hp. destruct p; [inversion Hin | right; exact Hin].
    + apply Hp. apply elem_of_take in Hin as (i & Hi & _).
      eapply list_elem_of_lookup_2, Hi.
Qed.

Lemma deposits_progress (tours : list (list nat * num F)) (Q : F) (n : nat)
    (w : world F) :
  0 < n →
  shape (w_pheromone w) = replicate n n →
  Forall (fun pl => pl.1 ≡ₚ seq 0 n ∧ divides Q pl.2) tours →
  ∃ w', for_loop tours (fun pl _ => deposit pl.1 pl.2 Q n) tt w = (Ok tt, w').
Proof.
  intros Hn Hsh Htours. revert w Hsh.
  induction Htours as [|[p l] rest [Hperm Hdiv] _ IH]; intros w Hsh; simpl in *.
  - eexists. reflexivity.
  - assert (Hlen : length p = n) by (rewrite Hperm; apply length_seq).
    assert (Hp : p ≠ []) by (intros ->; simpl in Hlen; lia).
    destruct (deposit_edges_progress (closed_edges p) Q l n w Hsh
                (closed_edges_in_range n p Hperm) Hdiv) as [w1 Hw1].
    rewrite <- deposit_closed_edges, Hlen in Hw1 by exact Hp.
    unfold bind. rewrite Hw1. apply IH.
    assert (Hfr : update_frame w w1).
    { eapply (deposit_frame w); [exact Hw1|]. repeat split. }
    destruct Hfr as [-> _]. exact Hsh.
Qed.

Lemma distance_typed (p1 p2 : point F) (speed : speed_mode) (d : num F) :
  distance p1 p2 speed = Ok d → typed_by speed d.
Proof.
  destruct speed; simpl.
  - intros [= <-]. exact I.
  - intros H. inv_M. injection Hk as <-. exact I.
Qed.

Lemma num_add_typed (speed : speed_mode) (acc d : num F) :
  typed_by speed d → (typed_by speed acc ∨ ∃ z, acc = PyInt z) →
  typed_by speed (num_add acc d).
Proof.
  destruct speed, d; try contradiction; intros _ [Hacc | [z ->]];
    try (destruct acc; try contradiction); exact I.
Qed.

Lemma add_distances_typed (points : list (point F)) (speed : speed_mode)
    (edges : list (nat * nat)) (acc l : num F) :
  add_distances points speed acc edges = Ok l →
  (typed_by speed acc ∨ (edges ≠ [] ∧ ∃ z, acc = PyInt z)) →
  typed_by speed l.
Proof.
  revert acc. induction edges as [|[a b] rest IH]; intros acc; simpl.
  - intros [= <-] [H | [H _]]; [exact H | contradiction].
  - intros H Hacc. apply obind_Ok in H as (d & Hd & H).
    eapply IH; [exact H|]. left. apply num_add_typed.
    + unfold distance_at in Hd. inv_M. eapply distance_typed; eassumption.
    + destruct Hacc as [Ht | [_ Hz]]; auto.
Qed.

End Shapes.

Section FastRounds.

Context {F : Type} {NE : NumEnv F}.
Variable tape : nat → nat.

Lemma round_update_typed (ants : Z) (start n : nat)
    (points : list (point F)) (alpha beta rate Q : F) (speed : speed_mode)
    (paths : list (list nat)) (lengths : list (num F)) (w w1 : world F) :
  generate_paths tape ants start n points alpha beta speed w
    = (Ok (paths, lengths), w1) →
  2 ≤ n →
  shape (w_pheromone w) = replicate n n →
  Forall (typed_by speed) lengths ∧
  (speed = Fast →
   ∃ w2, update_pheromone paths lengths rate Q n w1 = (Ok tt, w2)).
Proof.
  intros Hgen Hn Hsh.
  assert (Hph : w_pheromone w1 = w_pheromone w).
  { eapply (generate_paths_frame tape w); [exact Hgen|]. repeat split. }
  unfold generate_paths in Hgen.
  apply ants_loop_Ok in Hgen as (ps & ls & -> & -> & _ & Hall & _). simpl in *.
  assert (Htyped : Forall (typed_by speed) ls).
  { eapply Forall2_Forall_r; [exact Hall|]. apply Forall_true.
    intros p l [[Hperm _] Hlen]. unfold open_length in Hlen.
    eapply add_distances_typed; [exact Hlen|]. right. split; [|eauto].
    intros Hnil. pose proof (open_edges_length p) as Hl.
    rewrite Hnil, Hperm, length_seq in Hl. simpl in Hl. lia. }
  split; [exact Htyped|]. intros ->.
  unfold update_pheromone, bind. rewrite evaporate_run.
  apply deposits_progress; [lia | simpl; rewrite shape_evaporate, Hph; exact Hsh |].
  apply Forall_forall. intros [p l] Hin. simpl. split.
  - apply elem_of_zip_l in Hin.
    assert (Hperms : Forall (fun p => p ≡ₚ seq 0 n) ps).
    { eapply Forall2_Forall_l; [exact Hall|]. apply Forall_true.
      intros p0 l0 [[Hperm _] _]. exact Hperm. }
    eapply Forall_forall in Hperms; [exact Hperms | exact Hin].
  - apply elem_of_zip_r in Hin. eapply Forall_forall in Htyped; [|exact Hin].
    destruct l; try contradiction. eexists. reflexivity.
Qed.

(** X4.  With two locations or more, the lengths [generate_paths] returns
    are NumPy scalars in fast mode and Python floats in the other mode.
    So in fast mode the division [Q / path_length] never raises, and on a
    matrix of [n] rows of length [n] the pheromone update of the round
    goes through. *)
Theorem fast_round_update_succeeds (ants : Z) (start n : nat)
    (points : list (point F)) (alpha beta rate Q : F) (speed : speed_mode)
    (paths : list (list nat)) (lengths : list (num F)) (w w1 : world F) :
  generate_paths tape ants start n points alpha beta speed w
    = (Ok (paths, lengths), w1) →
  2 ≤ n →
  shape (w_pheromone w) = replicate n n →
  Forall (typed_by speed) lengths ∧
  (speed = Fast →
   ∃ w2, update_pheromone paths lengths rate Q n w1 = (Ok tt, w2)).
Proof. apply round_update_typed. Qed.

End FastRounds.

(** ** The result of a run *)

Section Minimum.

Context {F : Type} {NE : NumEnv F}.

Lemma py_min_from_lookup (full rest : list (num F)) (i : nat) (cur : nat * num F) :
  full !! cur.1 = Some cur.2 →
  (∀ j, rest !! j = full !! (i + j)) →
  full !! (py_min_from rest i cur).1 = Some (py_min_from rest i cur).2.
Proof.
  revert i cur. induction rest as [|x rest IH]; intros i cur Hcur Hrest; simpl;
    [exact Hcur|].
  apply IH.
  - destruct (num_lt x cur.2); [|exact Hcur]. simpl.
    specialize (Hrest 0). rewrite Nat.add_0_r in Hrest. symmetry. exact Hrest.
  - intros j. specialize (Hrest (S j)). simpl in Hrest. rewrite Hrest.
    f_equal. lia.
Qed.

(** [min(l)] is an element of [l], at the position kept with it. *)
Lemma py_min_lookup (l : list (num F)) (m : nat * num F) :
  py_min l = Ok m → l !! m.1 = Some m.2.
Proof.
  destruct l as [|x l]; [discriminate|]. intros [= <-].
  apply py_min_from_lookup; [reflexivity | intros j; reflexivity].
Qed.

Lemma py_index_from_Ok (l : list (num F)) (i j : nat) (obj : nat * num F) :
  py_index_from l i obj = Ok j →
  i ≤ j ∧ ∃ x, l !! (j - i) = Some x ∧ (j = obj.1 ∨ num_eqb x obj.2 = true).
Proof.
  revert i. induction l as [|x l IH]; intros i; simpl; [discriminate|].
  destruct ((i =? obj.1) || num_eqb x obj.2) eqn:E.
  - intros [= <-]. split; [lia|]. exists x. rewrite Nat.sub_diag. split; [reflexivity|].
    apply orb_true_iff in E as [E|E]; [left; apply Nat.eqb_eq, E | right; exact E].
  - intros H. apply IH in H as (Hle & y & Hy & Hor). split; [lia|].
    exists y. split; [|exact Hor].
    replace (j - i) with (S (j - S i)) by lia. exact Hy.
Qed.

(** The path [paths[path_lengths.index(min(path_lengths))]] stands at a
    position whose length is the minimum or is [==] to it. *)
Lemma min_path_Ok (paths : list (list nat)) (lengths : list (num F))
    (p : list nat) (m : nat * num F) :
  min_path paths lengths = Ok p → py_min lengths = Ok m →
  ∃ i l, paths !! i = Some p ∧ lengths !! i = Some l ∧
         (l = m.2 ∨ num_eqb l m.2 = true).
Proof.
  unfold min_path. intros H Hmin. rewrite Hmin in H. simpl in H.
  apply obind_Ok in H as (i & Hi & Hp). apply getitem_Ok in Hp.
  apply py_index_from_Ok in Hi as (_ & x & Hx & Hor). rewrite Nat.sub_0_r in Hx.
  exists i, x. split; [exact Hp|]. split; [exact Hx|].
  destruct Hor as [-> | Heq]; [|right; exact Heq].
  left. apply py_min_lookup in Hmin. congruence.
Qed.

Lemma comprehension_Ok {A B} (f : A → outcome B) (xs : list A) (ys : list B) :
  comprehension f xs = Ok ys → Forall2 (fun x y => f x = Ok y) xs ys.
Proof.
  revert ys. induction xs as [|x xs IH]; intros ys; simpl.
  - intros [= <-]. constructor.
  - intros H. apply obind_Ok in H as (y & Hy & H).
    apply obind_Ok in H as (ys' & Hys & [= <-]).
    constructor; [exact Hy | apply IH, Hys].
Qed.

Lemma bind_inv {A B} (m : M F A) (k : A → M F B) (w w' : world F) (o : outcome B) :
  bind m k w = (o, w') →
  (∃ a w1, m w = (Ok a, w1) ∧ k a w1 = (o, w')) ∨
  (∃ o1, m w = (o1, w') ∧ (∀ a, o1 ≠ Ok a) ∧ (∀ b, o ≠ Ok b)).
Proof.
  unfold bind. destruct (m w) as [[a| |] w1].
  - left. eauto.
  - intros [= <- <-]. right. eexists; split; [reflexivity | split; discriminate].
  - intros [= <- <-]. right. eexists; split; [reflexivity | split; discriminate].
Qed.

(** The locations at the nodes of a permutation of all nodes are a
    permutation of the locations. *)
Lemma visits_all (locations route : list (location F)) (path : list nat) :
  visits locations path route → path ≡ₚ seq 0 (length locations) →
  route ≡ₚ locations.
Proof.
  unfold visits. intros Hv Hperm.
  assert (Hroute : route = omap (fun i => locations !! i) path).
  { clear Hperm. induction Hv as [|i c path route Hi _ IH]; [reflexivity|].
    simpl. rewrite Hi. simpl. f_equal. exact IH. }
  assert (Hall : omap (fun i => locations !! i) (seq 0 (length locations)) = locations).
  { clear. induction locations as [|c cs IH] using rev_ind; [reflexivity|].
    rewrite length_app. simpl. rewrite Nat.add_1_r, seq_S, omap_app. simpl.
    rewrite lookup_app_r, Nat.sub_diag by lia. simpl. f_equal.
    rewrite <- IH at 2. clear IH.
    assert (H : Forall (fun i => i < length cs) (seq 0 (length cs))).
    { apply Forall_forall. intros i Hi. apply elem_of_seq in Hi. lia. }
    revert H. generalize (seq 0 (length cs)). intros l H.
    induction H as [|i l Hi _ IH]; [reflexivity|].
    cbn [omap list_omap]. rewrite lookup_app_l by exact Hi.
    destruct (cs !! i); [f_equal|]; exact IH. }
  rewrite Hroute.
  transitivity (omap (fun i => locations !! i) (seq 0 (length locations)));
    [apply omap_Permutation; exact Hperm | rewrite Hall; reflexivity].
Qed.

End Minimum.

Section RunFacts.

Context {F : Type} {NE : NumEnv F}.
Variable tape : nat → nat.
Variable locations : list (location F).
Variables ants iterations : Z.
Variables alpha beta evaporation_rate Q : F.
Variable speed : speed_mode.

Local Abbreviation round_ :=
  (round tape locations ants alpha beta evaporation_rate Q speed).
Local Abbreviation rounds_ :=
  (rounds tape locations ants iterations alpha beta evaporation_rate Q speed).
Local Abbreviation run_ :=
  (ant_colony_optimization tape locations ants iterations alpha beta
     evaporation_rate Q speed).
Local Abbreviation n_ := (n_locations locations).
Local Abbreviation pts_ := (points locations).

(** The path a round shows is one of the tours of its ants, and the
    length of that tour is the minimum or is [==] to it. *)
Lemma chosen_path (start : nat) (paths : list (list nat)) (lengths : list (num F))
    (w w1 : world F) (m : nat * num F) (p : list nat) :
  generate_paths tape ants start n_ pts_ alpha beta speed w
    = (Ok (paths, lengths), w1) →
  py_min lengths = Ok m → min_path paths lengths = Ok p →
  is_tour n_ start p ∧
  ∃ l, open_length pts_ speed p = Ok l ∧ (l = m.2 ∨ num_eqb l m.2 = true).
Proof.
  intros Hgen Hmin Hp. unfold generate_paths in Hgen.
  apply ants_loop_Ok in Hgen as (ps & ls & Hps & Hls & _ & Hall & _).
  simpl in Hps, Hls. subst ps ls.
  destruct (min_path_Ok _ _ _ _ Hp Hmin) as (i & l & Hpi & Hli & Hor).
  destruct (Forall2_lookup_lr _ _ _ _ _ _ Hall Hpi Hli) as [Htour Hlen].
  split; [exact Htour|]. exists l. auto.
Qed.

Lemma round_line (start : nat) (b b' : best F) (w w' : world F) :
  round_ start b w = (Ok b', w') →
  ∃ e m,
    w_logs w' = w_logs w ++ [e] ∧
    is_tour n_ start (log_path e) ∧
    (∃ l, open_length pts_ speed (log_path e) = Ok l ∧
          (l = m ∨ num_eqb l m = true)) ∧
    num_int m = Ok (log_km e) ∧
    (b' = b ∨ b' = Best (Some (log_path e)) m).
Proof.
  intros H.
  apply round_Ok in H as (paths & lengths & w1 & m & km & p & Hgen & Hmin & Hkm & Hp & Hlogs & ->).
  destruct (chosen_path _ _ _ _ _ _ _ Hgen Hmin Hp) as [Htour Hlen].
  exists (LogEntry km p), m.2. simpl.
  split; [exact Hlogs|]. split; [exact Htour|]. split; [exact Hlen|].
  split; [exact Hkm|].
  destruct (num_lt m.2 (best_path_length b)); [right | left]; reflexivity.
Qed.

Lemma best_inv_more (logs more : list log_entry) (b : best F) :
  best_inv pts_ speed n_ logs b → best_inv pts_ speed n_ (logs ++ more) b.
Proof.
  unfold best_inv. destruct (best_path b) as [p|]; [|trivial].
  intros (Hperm & Hlen & e & He & Hpath & Hkm).
  split; [exact Hperm|]. split; [exact Hlen|].
  exists e. split; [apply elem_of_app; left; exact He | auto].
Qed.

(** The rounds keep [best_inv], and each adds the line of its start node. *)
Lemma rounds_best_inv (starts : list nat) (b b' : best F) (w w' : world F)
    (new : list log_entry) (old : list log_entry) :
  for_loop starts round_ b w = (Ok b', w') →
  w_logs w = old ++ new → best_inv pts_ speed n_ new b →
  ∃ new', w_logs w' = old ++ new ++ new' ∧
          Forall2 (line_of_round pts_ speed n_) starts new' ∧
          best_inv pts_ speed n_ (new ++ new') b'.
Proof.
  revert b w new. induction starts as [|s starts IH]; intros b w new H Hlogs Hb;
    simpl in H.
  - apply ret_Ok in H as [-> ->]. exists []. rewrite !app_nil_r.
    split; [exact Hlogs|]. split; [constructor | exact Hb].
  - apply bind_Ok in H as (b1 & w1 & Hround & Hrest).
    apply round_line in Hround as (e & m & Hlogs1 & Htour & Hlen & Hkm & Hb1).
    apply (IH b1 w1 (new ++ [e])) in Hrest as (new' & Hlogs' & Hall & Hb').
    + exists (e :: new'). rewrite <- !app_assoc in Hlogs', Hb'. simpl in Hlogs', Hb'.
      split; [exact Hlogs'|]. split; [|exact Hb'].
      constructor; [|exact Hall]. split; [exact Htour|].
      destruct Hlen as (l & Hl & Hor). exists l, m. auto.
    + rewrite Hlogs1, Hlogs, <- app_assoc. reflexivity.
    + destruct Hb1 as [-> | ->]; [apply best_inv_more, Hb|].
      unfold best_inv. simpl. split; [apply Htour|]. split; [exact Hlen|].
      exists e. split; [apply elem_of_app; right; constructor|].
      auto.
Qed.

(** A round draws once for each ant and each node but the first. *)
Lemma round_rng (start : nat) (b b' : best F) (w w' : world F) :
  round_ start b w = (Ok b', w') →
  w_rng w' = w_rng w + Z.to_nat ants * (n_ - 1).
Proof.
  unfold round. intros H.
  apply bind_Ok in H as ([paths lengths] & w1 & Hgen & H). simpl in H.
  apply bind_Ok in H as ([] & w2 & Hupd & H).
  assert (Hsame : w_rng w' = w_rng w2).
  { apply bind_Ok in H as (m & w3 & Hmin & H). apply lift_Ok in Hmin as [_ ->].
    apply bind_Ok in H as (km & w3 & Hkm & H). apply lift_Ok in Hkm as [_ ->].
    apply bind_Ok in H as (p & w3 & Hp & H). apply lift_Ok in Hp as [_ ->].
    apply bind_Ok in H as ([] & w3 & Hlog & H). injection Hlog as <-.
    apply bind_Ok in H as (m' & w4 & Hmin' & H). apply lift_Ok in Hmin' as [_ ->].
    destruct (num_lt m'.2 (best_path_length b)); inv_M; reflexivity. }
  unfold generate_paths in Hgen. apply ants_loop_rng in Hgen.
  assert (Hfr : update_frame w1 w2).
  { eapply (update_pheromone_frame w1); [exact Hupd|]. repeat split. }
  destruct Hfr as (_ & Hrng & _). congruence.
Qed.

Lemma rounds_rng (starts : list nat) (b b' : best F) (w w' : world F) :
  for_loop starts round_ b w = (Ok b', w') →
  w_rng w' = w_rng w + length starts * (Z.to_nat ants * (n_ - 1)).
Proof.
  revert b w. induction starts as [|s starts IH]; intros b w H; simpl in H.
  - apply ret_Ok in H as [_ ->]. simpl. lia.
  - apply bind_Ok in H as (b1 & w1 & Hround & Hrest).
    apply round_rng in Hround. apply IH in Hrest. simpl. lia.
Qed.

(** What a run that returns has done. *)
Lemma run_Ok (r : list string * list (location F)) (w w' : world F) :
  run_ w = (Ok r, w') →
  ∃ b bp km new,
    best_path b = Some bp ∧
    best_inv pts_ speed n_ new b ∧
    Forall2 (line_of_round pts_ speed n_) (round_starts n_ iterations) new ∧
    w_logs w' = w_logs w ++ new ∧
    visits locations bp r.2 ∧
    r.1 = loc_id <$> r.2 ∧
    num_int (best_path_length b) = Ok km ∧
    w_best_path w' = Some r.1 ∧
    w_best_path_length w' = Some km ∧
    w_rng w' = w_rng w + n_ * Z.to_nat iterations * (Z.to_nat ants * (n_ - 1)).
Proof.
  unfold ant_colony_optimization. intros H.
  apply bind_Ok in H as ([] & w1 & Hinit & H). injection Hinit as <-.
  apply bind_Ok in H as (b & w2 & Hrounds & H).
  rewrite rounds_as_list in Hrounds.
  pose proof (rounds_rng _ _ _ _ _ Hrounds) as Hrng.
  rewrite round_starts_length in Hrng. simpl in Hrng.
  apply (rounds_best_inv _ _ _ _ _ [] (w_logs w)) in Hrounds
    as (new & Hlogs & Hlines & Hb); [|simpl; rewrite app_nil_r; reflexivity | exact I].
  simpl in Hlogs, Hb.
  destruct (best_path b) as [bp|] eqn:Hbp; [|discriminate].
  apply bind_Ok in H as (result_path & w3 & Hpath & H). apply lift_Ok in Hpath as [Hpath ->].
  apply bind_Ok in H as (result_locations & w3 & Hlocs & H).
  apply lift_Ok in Hlocs as [Hlocs ->].
  apply bind_Ok in H as ([] & w3 & Hput & H). injection Hput as <-.
  apply bind_Ok in H as (km & w3 & Hkm & H). apply lift_Ok in Hkm as [Hkm ->].
  apply bind_Ok in H as ([] & w3 & Hput & H). injection Hput as <-.
  apply ret_Ok in H as [-> ->]. simpl.
  apply comprehension_Ok in Hpath. apply comprehension_Ok in Hlocs.
  assert (Hvisits : visits locations bp result_locations ∧
                    result_path = loc_id <$> result_locations).
  { clear - Hpath Hlocs.
    assert (Hlen : length bp = length result_path) by (eapply Forall2_length, Hpath).
    assert (Hlen' : length result_path = length result_locations).
    { apply Forall2_length in Hlocs. rewrite length_seq in Hlocs. exact Hlocs. }
    assert (Hat : ∀ i c, result_locations !! i = Some c →
              ∃ j, bp !! i = Some j ∧ locations !! j = Some c ∧
                   result_path !! i = Some (loc_id c)).
    { intros i c Hc.
      assert (Hi : seq 0 (length result_path) !! i = Some i).
      { apply lookup_seq. apply lookup_lt_Some in Hc. lia. }
      pose proof (Forall2_lookup_lr _ _ _ _ _ _ Hlocs Hi Hc) as Hf. simpl in Hf.
      apply obind_Ok in Hf as (id & Hid & Hf). apply getitem_Ok in Hid.
      apply obind_Ok in Hf as (j & Hj & Hf). apply getitem_Ok in Hj.
      apply obind_Ok in Hf as (l & Hl & [= <-]). apply getitem_Ok in Hl.
      pose proof (Forall2_lookup_lr _ _ _ _ _ _ Hpath Hj Hid) as Hg. simpl in Hg.
      apply obind_Ok in Hg as (l' & Hl' & [= <-]). apply getitem_Ok in Hl'.
      assert (l' = l) as -> by congruence.
      exists j. simpl. destruct l as [lid lx ly]. simpl. auto. }
    split.
    - apply Forall2_same_length_lookup. split; [lia|].
      intros i j c Hj Hc. destruct (Hat i c Hc) as (j' & Hj' & Hl & _). congruence.
    - apply list_eq. intros i. rewrite list_lookup_fmap.
      destruct (result_locations !! i) as [c|] eqn:Hc; simpl.
      + destruct (Hat i c Hc) as (_ & _ & _ & Hid). exact Hid.
      + apply lookup_ge_None. apply lookup_ge_None in Hc. lia. }
  destruct Hvisits as [Hvisits Hids].
  exists b, bp, km, new.
  split; [exact Hbp|]. split; [exact Hb|].
  split; [exact Hlines|]. split; [exact Hlogs|]. split; [exact Hvisits|].
  split; [exact Hids|]. split; [exact Hkm|]. split; [reflexivity|].
  split; [reflexivity | exact Hrng].
Qed.

(** Where a round stops, the log has the line of that round or no new
    line. *)
Lemma round_log_any (start : nat) (b : best F) (w w' : world F) (o : outcome (best F)) :
  round_ start b w = (o, w') →
  w_logs w' = w_logs w ∨
  ∃ e, w_logs w' = w_logs w ++ [e] ∧ line_of_round pts_ speed n_ start e.
Proof.
  unfold round. intros H.
  apply bind_inv in H as [([paths lengths] & w1 & Hgen & H) | (o1 & Hgen & _)].
  2: { left. eapply (generate_paths_frame tape w); [exact Hgen | repeat split]. }
  assert (Hl1 : w_logs w1 = w_logs w).
  { eapply (generate_paths_frame tape w); [exact Hgen | repeat split]. }
  simpl in H.
  apply bind_inv in H as [([] & w2 & Hupd & H) | (o1 & Hupd & _)].
  2: { left. rewrite <- Hl1.
       eapply (update_pheromone_frame w1); [exact Hupd | repeat split]. }
  assert (Hl2 : w_logs w2 = w_logs w).
  { rewrite <- Hl1. eapply (update_pheromone_frame w1); [exact Hupd | repeat split]. }
  apply bind_inv in H as [(m & w3 & Hmin & H) | (o1 & Hmin & _)];
    [apply lift_Ok in Hmin as [Hmin ->] | injection Hmin as _ <-; left; exact Hl2].
  apply bind_inv in H as [(km & w3 & Hkm & H) | (o1 & Hkm & _)];
    [apply lift_Ok in Hkm as [Hkm ->] | injection Hkm as _ <-; left; exact Hl2].
  apply bind_inv in H as [(p & w3 & Hp & H) | (o1 & Hp & _)];
    [apply lift_Ok in Hp as [Hp ->] | injection Hp as _ <-; left; exact Hl2].
  apply bind_inv in H as [([] & w3 & Hlog & H) | (o1 & Hlog & Hno & _)];
    [injection Hlog as <- | injection Hlog as <- _; exfalso; eapply Hno; reflexivity].
  right. exists (LogEntry km p). split.
  - rewrite <- Hl2.
    match type of H with ?tail _ = _ =>
      assert (Htail : preserves (fun w0 => w_logs w0 = w_logs w2 ++ [LogEntry km p]) tail)
    end.
    { apply preserves_bind; [apply preserves_lift|]. intros m'.
      destruct (num_lt m'.2 (best_path_length b)); preserving. }
    apply (Htail _ _ _ H). reflexivity.
  - destruct (chosen_path _ _ _ _ _ _ _ Hgen Hmin Hp) as [Htour (l & Hl & Hor)].
    split; [exact Htour|]. exists l, m.2. auto.
Qed.

(** Where the rounds stop, the log has the lines of the first rounds. *)
Lemma rounds_log_any (starts : list nat) (b : best F) (w w' : world F)
    (o : outcome (best F)) :
  for_loop starts round_ b w = (o, w') →
  ∃ new, w_logs w' = w_logs w ++ new ∧
         Forall2 (line_of_round pts_ speed n_) (take (length new) starts) new ∧
         ((∃ b', o = Ok b') → length new = length starts).
Proof.
  revert b w. induction starts as [|s starts IH]; intros b w H; simpl in H.
  - injection H as <- <-. exists []. rewrite app_nil_r.
    split; [reflexivity|]. split; [constructor | reflexivity].
  - apply bind_inv in H as [(b1 & w1 & Hround & Hrest) | (o1 & Hround & _ & Hno)].
    + apply round_line in Hround as (e & m & Hlogs1 & Htour & (l & Hl & Hor) & Hkm & _).
      apply IH in Hrest as (new & Hlogs & Hall & Hlen).
      exists (e :: new). rewrite Hlogs, Hlogs1, <- app_assoc. simpl.
      split; [reflexivity|]. split.
      * constructor; [|exact Hall]. split; [exact Htour|]. exists l, m. auto.
      * intros Hok. rewrite Hlen by exact Hok. reflexivity.
    + apply round_log_any in Hround as [Hsame | (e & Hlogs & Hline)].
      * exists []. rewrite app_nil_r. split; [exact Hsame|].
        split; [constructor|]. intros [b' ->]. exfalso. eapply Hno. reflexivity.
      * exists [e]. split; [exact Hlogs|]. simpl. rewrite take_0.
        split; [constructor; [exact Hline | constructor]|].
        intros [b' ->]. exfalso. eapply Hno. reflexivity.
Qed.

(** The part of the driver after the rounds, for a best path [bp]. *)
Local Abbreviation report_ b bp :=
  (do result_path <-
     lift (comprehension (fun i => let* l := getitem locations i in Ok (loc_id l)) bp);
   do result_locations <-
     lift (comprehension
             (fun i =>
                let* id := getitem result_path i in
                let* j := getitem bp i in
                let* l := getitem locations j in
                Ok (Location id (loc_x l) (loc_y l)))
             (seq 0 (length result_path)));
   do _ <- (fun w => (Ok tt, World (w_pheromone w) (w_rng w) (w_logs w)
                                   (Some result_path) (w_best_path_length w)));
   do km <- lift (num_int (best_path_length b));
   do _ <- (fun w => (Ok tt, World (w_pheromone w) (w_rng w) (w_logs w)
                                   (w_best_path w) (Some km)));
   ret (result_path, result_locations)).

Lemma comprehension_total {A B} (f : A → outcome B) (xs : list A) :
  Forall (fun x => ∃ y, f x = Ok y) xs → ∃ ys, comprehension f xs = Ok ys.
Proof.
  induction 1 as [|x xs [y Hy] _ [ys Hys]]; simpl; [eauto|].
  rewrite Hy, Hys. simpl. eauto.
Qed.

(** With [best_inv], the report after the rounds goes through: the nodes
    of the best path are in range, and [int] of the best length has
    succeeded once already, for the log line of its round. *)
Lemma report_returns (b : best F) (bp : list nat) (logs : list log_entry)
    (w : world F) :
  best_path b = Some bp → best_inv pts_ speed n_ logs b →
  ∃ r w', report_ b bp w = (Ok r, w').
Proof.
  intros Hbp Hb. unfold best_inv in Hb. rewrite Hbp in Hb.
  destruct Hb as (Hperm & _ & e & _ & _ & Hkm).
  assert (Hrange : ∀ j, j ∈ bp → j < length locations).
  { intros j Hj. rewrite Hperm in Hj. apply elem_of_seq in Hj.
    unfold n_locations in Hj. lia. }
  destruct (comprehension_total
              (fun i => let* l := getitem locations i in Ok (loc_id l)) bp)
    as [result_path Hpath].
  { apply Forall_forall. intros j Hj. apply Hrange in Hj.
    apply lookup_lt_is_Some in Hj as [l Hl]. exists (loc_id l).
    unfold getitem. rewrite Hl. reflexivity. }
  assert (Hlen : length result_path = length bp).
  { apply comprehension_Ok, Forall2_length in Hpath. auto. }
  destruct (comprehension_total
              (fun i =>
                 let* id := getitem result_path i in
                 let* j := getitem bp i in
                 let* l := getitem locations j in
                 Ok (Location id (loc_x l) (loc_y l)))
              (seq 0 (length result_path)))
    as [result_locations Hlocs].
  { apply Forall_forall. intros i Hi. apply elem_of_seq in Hi.
    assert (Hi1 : i < length result_path) by lia.
    assert (Hi2 : i < length bp) by lia.
    apply lookup_lt_is_Some in Hi1 as [id Hid].
    apply lookup_lt_is_Some in Hi2 as [j Hj].
    assert (Hjl : j < length locations).
    { apply Hrange. eapply list_elem_of_lookup_2, Hj. }
    apply lookup_lt_is_Some in Hjl as [l Hl].
    exists (Location id (loc_x l) (loc_y l)).
    unfold getitem. rewrite Hid, Hj. simpl. rewrite Hl. reflexivity. }
  unfold bind, lift, ret. rewrite Hpath, Hlocs, Hkm. eauto.
Qed.

(** A run that does not return leaves the session keys [best_path] and
    [best_path_length] alone: the rounds do not write them, and once the
    driver starts to write them nothing can fail. *)
Lemma round_keeps_keys (bp : option (list string)) (km : option Z)
    (start : nat) (b : best F) :
  preserves (fun w => w_best_path w = bp ∧ w_best_path_length w = km)
            (round_ start b).
Proof.
  unfold round. apply preserves_bind.
  { intros w o w' H [<- <-].
    assert (Hf : same_but_rng w w')
      by (eapply (generate_paths_frame tape w); [exact H | repeat split]).
    destruct Hf as (_ & _ & -> & ->). auto. }
  intros [paths lengths]. simpl. apply preserves_bind.
  { intros w o w' H [<- <-].
    assert (Hf : update_frame w w')
      by (eapply (update_pheromone_frame w); [exact H | repeat split]).
    destruct Hf as (_ & _ & _ & -> & ->). auto. }
  intros []. preserving.
  - intros w o w' [= <- <-] Hw. exact Hw.
  - match goal with |- preserves _ (if ?c then _ else _) => destruct c end;
      preserving.
Qed.

Lemma failed_run_keys (w w' : world F) (o : outcome (list string * list (location F))) :
  run_ w = (o, w') → (∀ r, o ≠ Ok r) →
  w_best_path w' = w_best_path w ∧ w_best_path_length w' = w_best_path_length w.
Proof.
  unfold ant_colony_optimization. intros H Hno.
  apply bind_inv in H as [([] & w1 & Hinit & H) | (o1 & Hinit & Hno1 & _)];
    [injection Hinit as <- | injection Hinit as <- _; exfalso; eapply Hno1; reflexivity].
  apply bind_inv in H as [(b & w2 & Hrounds & H) | (o1 & Hrounds & _)].
  - rewrite rounds_as_list in Hrounds.
    assert (Hkeys : w_best_path w2 = w_best_path w ∧
                    w_best_path_length w2 = w_best_path_length w).
    { eapply (preserves_for_loop
                (fun w0 => w_best_path w0 = w_best_path w ∧
                           w_best_path_length w0 = w_best_path_length w));
        [intros x s1; apply round_keeps_keys | exact Hrounds | split; reflexivity]. }
    apply (rounds_best_inv _ _ _ _ _ [] (w_logs w)) in Hrounds
      as (new & _ & _ & Hb); [|simpl; rewrite app_nil_r; reflexivity | exact I].
    destruct (best_path b) as [bp|] eqn:Hbp.
    + destruct (report_returns b bp _ w2 Hbp Hb) as (r & w3 & Hr).
      rewrite Hr in H. injection H as <- _. exfalso. eapply Hno. reflexivity.
    + injection H as _ <-. exact Hkeys.
  - rewrite rounds_as_list in Hrounds.
    eapply (preserves_for_loop
              (fun w0 => w_best_path w0 = w_best_path w ∧
                         w_best_path_length w0 = w_best_path_length w));
      [intros x s1; apply round_keeps_keys | exact Hrounds | split; reflexivity].
Qed.

Lemma run_log_any (w w' : world F) (o : outcome (list string * list (location F))) :
  run_ w = (o, w') →
  ∃ new, w_logs w' = w_logs w ++ new ∧
         Forall2 (line_of_round pts_ speed n_)
                 (take (length new) (round_starts n_ iterations)) new ∧
         ((∃ r, o = Ok r) → length new = length (round_starts n_ iterations)).
Proof.
  unfold ant_colony_optimization. intros H.
  apply bind_inv in H as [([] & w1 & Hinit & H) | (o1 & Hinit & Hno1 & _)];
    [injection Hinit as <- | injection Hinit as <- _; exfalso; eapply Hno1; reflexivity].
  apply bind_inv in H as [(b & w2 & Hrounds & H) | (o1 & Hrounds & _ & Hno)].
  - rewrite rounds_as_list in Hrounds.
    apply rounds_log_any in Hrounds as (new & Hlogs & Hall & Hlen).
    exists new. simpl in Hlogs. split; [|split; [exact Hall | intros _; apply Hlen; eauto]].
    rewrite <- Hlogs.
    match type of H with ?tail _ = _ =>
      assert (Htail : preserves (fun w0 => w_logs w0 = w_logs w2) tail)
    end.
    { destruct (best_path b); preserving;
        intros w0 o0 w0' [= <- <-] Hw; exact Hw. }
    apply (Htail _ _ _ H). reflexivity.
  - rewrite rounds_as_list in Hrounds.
    apply rounds_log_any in Hrounds as (new & Hlogs & Hall & Hlen).
    exists new. split; [exact Hlogs|]. split; [exact Hall|].
    intros [r ->]. exfalso. eapply Hno. reflexivity.
Qed.

(** X5.  The route a run returns visits every location once: the returned
    locations are a permutation of the locations given, the returned ids
    are the ids of these locations in the same order, and they are what
    the run leaves under the session key [best_path]. *)
Theorem returned_route_visits_every_location
    (r : list string * list (location F)) (w w' : world F) :
  run_ w = (Ok r, w') →
  r.2 ≡ₚ locations ∧ r.1 = loc_id <$> r.2 ∧ w_best_path w' = Some r.1.
Proof.
  intros H.
  apply run_Ok in H as (b & bp & km & new & Hbp & Hb & _ & _ & Hv & Hids & _ & Hkey & _).
  unfold best_inv in Hb. rewrite Hbp in Hb. destruct Hb as (Hperm & _).
  split; [|split; assumption].
  eapply visits_all; [exact Hv | exact Hperm].
Qed.

(** X6.  The kilometres a run leaves under the session key
    [best_path_length] are [int] of the open length of the returned route
    (the sum of the distances between consecutive stops, without the way
    back to the first), or of a length [==] to it. *)
Theorem session_km_is_route_length
    (r : list string * list (location F)) (w w' : world F) :
  run_ w = (Ok r, w') →
  ∃ bp l m km,
    visits locations bp r.2 ∧
    open_length pts_ speed bp = Ok l ∧
    (l = m ∨ num_eqb l m = true) ∧
    num_int m = Ok km ∧
    w_best_path_length w' = Some km.
Proof.
  intros H.
  apply run_Ok in H as (b & bp & km & new & Hbp & Hb & _ & _ & Hv & _ & Hkm & _ & Hkey & _).
  unfold best_inv in Hb. rewrite Hbp in Hb. destruct Hb as (_ & (l & Hl & Hor) & _).
  exists bp, l, (best_path_length b), km. auto.
Qed.

(** X7.  Whatever the outcome of a run, the lines it has added to the
    progress log are the lines of its first rounds, in the order of the
    rounds: the line of a round shows a tour of all nodes that begins at
    the start node of that round, with [int] of the length of that tour
    (or of a length [==] to it).  A run that returns has a line for every
    round. *)
Theorem log_lines_follow_the_rounds
    (w w' : world F) (o : outcome (list string * list (location F))) :
  run_ w = (o, w') →
  ∃ new, w_logs w' = w_logs w ++ new ∧
         Forall2 (line_of_round pts_ speed n_)
                 (take (length new) (round_starts n_ iterations)) new ∧
         ((∃ r, o = Ok r) → length new = length (round_starts n_ iterations)).
Proof. apply run_log_any. Qed.

(** X8.  The result of a run is one of the lines it logged: some line
    added by the run shows the path of the returned route, with the
    kilometres the run leaves under [best_path_length]. *)
Theorem result_is_a_logged_line
    (r : list string * list (location F)) (w w' : world F) :
  run_ w = (Ok r, w') →
  ∃ e, e ∈ drop (length (w_logs w)) (w_logs w') ∧
       visits locations (log_path e) r.2 ∧
       w_best_path_length w' = Some (log_km e).
Proof.
  intros H.
  apply run_Ok in H as (b & bp & km & new & Hbp & Hb & _ & Hlogs & Hv & _ & Hkm & _ & Hkey & _).
  unfold best_inv in Hb. rewrite Hbp in Hb. destruct Hb as (_ & _ & e & He & Hpath & Hkm').
  exists e. rewrite Hlogs, drop_app_length, Hpath.
  split; [exact He|]. split; [exact Hv|]. congruence.
Qed.

(** X9.  A run that returns has drawn [n * iterations * ants * (n - 1)]
    times from the generator: once for each round, ant and node but the
    first. *)
Theorem run_draws (r : list string * list (location F)) (w w' : world F) :
  run_ w = (Ok r, w') →
  w_rng w' = w_rng w + n_ * Z.to_nat iterations * (Z.to_nat ants * (n_ - 1)).
Proof.
  intros H.
  apply run_Ok in H as (b & bp & km & new & _ & _ & _ & _ & _ & _ & _ & _ & _ & Hrng).
  exact Hrng.
Qed.

(** X10.  A run that does not return leaves the session keys [best_path]
    and [best_path_length] as they were: the rounds do not write them,
    and once the rounds are over and a best path is there, the rest of
    the driver cannot fail, so the two keys are written together or not
    at all. *)
Theorem failed_run_keeps_session_keys
    (w w' : world F) (o : outcome (list string * list (location F))) :
  run_ w = (o, w') → (∀ r, o ≠ Ok r) →
  w_best_path w' = w_best_path w ∧ w_best_path_length w' = w_best_path_length w.
Proof. apply failed_run_keys. Qed.

End RunFacts.

(** ** How a run in fast mode can fail *)

Section Progress.

Context {F : Type} {NE : NumEnv F}.
Variable tape : nat → nat.

Lemma bind_Raise {A B} (m : M F A) (k : A → M F B) (w w' : world F) (e : exn) :
  bind m k w = (Raise e, w') →
  (∃ a w1, m w = (Ok a, w1) ∧ k a w1 = (Raise e, w')) ∨ m w = (Raise e, w').
Proof.
  unfold bind. destruct (m w) as [[a| |] w1].
  - left. eauto.
  - intros [= <- <-]. right. reflexivity.
  - discriminate.
Qed.

Lemma shape_length (pheromone : list (list F)) (n : nat) :
  shape pheromone = replicate n n → length pheromone = n.
Proof.
  intros Hsh. rewrite <- (length_replicate n n), <- Hsh. unfold shape.
  rewrite length_map. reflexivity.
Qed.

Lemma shape_ones (n : nat) (x : F) : shape (replicate n (replicate n x)) = replicate n n.
Proof.
  unfold shape. change (map ?f ?l) with (f <$> l).
  rewrite fmap_replicate, length_replicate. reflexivity.
Qed.

Section FastScores.

Variable pheromone : list (list F).
Variable points : list (point F).
Variables alpha beta : F.
Variable n : nat.
Hypothesis Hshape : shape pheromone = replicate n n.
Hypothesis Hpoints : length points = n.

(** In fast mode a score in range is computed without an exception. *)
Lemma score_fast (c u : nat) :
  c < n → u < n → ∃ s, score pheromone c u points alpha beta Fast = Ok s.
Proof.
  intros Hc Hu.
  destruct (entry_in_shape pheromone n c u Hshape Hc Hu) as [x Hx].
  unfold entry in Hx. destruct (pheromone !! c) as [row|] eqn:Hrow; [|discriminate].
  destruct (lookup_lt_is_Some_2 points c) as [p1 Hp1]; [lia|].
  destruct (lookup_lt_is_Some_2 points u) as [p2 Hp2]; [lia|].
  unfold score, getitem. rewrite Hrow. cbn [obind]. rewrite Hx. cbn [obind].
  rewrite Hp1. cbn [obind]. rewrite Hp2. eexists. reflexivity.
Qed.

Lemma fill_probabilities_fast (c : nat) (unvisited : list nat) (i : nat)
    (probabilities : list F) :
  c < n → Forall (fun u => u < n) unvisited →
  i + length unvisited ≤ length probabilities →
  ∃ ps, fill_probabilities pheromone c points alpha beta Fast i unvisited probabilities
        = Ok ps.
Proof.
  intros Hc Hall. revert i probabilities.
  induction Hall as [|u rest Hu _ IH]; intros i probabilities Hlen; simpl.
  - eauto.
  - destruct (score_fast c u Hc Hu) as [s Hs]. rewrite Hs. cbn [obind].
    unfold setitem. destruct (decide (i < length probabilities)) as [_ | Hge];
      [|simpl in Hlen; lia].
    cbn [obind]. apply IH. rewrite length_insert. simpl in Hlen. lia.
Qed.

Lemma calculate_probabilities_fast (c : nat) (unvisited : list nat) :
  c < n → Forall (fun u => u < n) unvisited →
  ∃ ps, calculate_probabilities pheromone c unvisited points alpha beta Fast = Ok ps.
Proof.
  intros Hc Hall. unfold calculate_probabilities.
  destruct (fill_probabilities_fast c unvisited 0 (replicate (length unvisited) fzero)
              Hc Hall) as [ps Hps]; [rewrite length_replicate; lia|].
  rewrite Hps. eexists. reflexivity.
Qed.

End FastScores.

Lemma choice_Raise (a : list nat) (p : list F) (w w' : world F) (e : exn) :
  choice tape a p w = (Raise e, w') → e = ValueError.
Proof.
  unfold choice. intros H. repeat case_match; congruence.
Qed.

Lemma ant_inv_range (points : list (point F)) (speed : speed_mode) (n start : nat)
    (a : ant F) :
  ant_inv points speed n start a →
  current_point a < n ∧ Forall (fun u => u < n) (where_not 0 (visited a)).
Proof.
  intros (Hlen & _ & Hvis & _ & Hcur & _). split.
  - apply list_elem_of_lookup_2, Hvis, lookup_lt_Some in Hcur. lia.
  - apply Forall_forall. intros u Hu.
    apply where_not_spec in Hu as (i & -> & Hi). apply lookup_lt_Some in Hi. lia.
Qed.

(** In fast mode a step of an ant fails in [numpy.random.choice] or not at
    all. *)
Lemma walk_step_fast (points : list (point F)) (alpha beta : F) (n start : nat)
    (a : ant F) (w w' : world F) (e : exn) :
  ant_inv points Fast n start a →
  shape (w_pheromone w) = replicate n n → length points = n →
  walk_step tape points alpha beta Fast a w = (Raise e, w') → e = ValueError.
Proof.
  intros Hinv Hsh Hpts H.
  destruct (ant_inv_range _ _ _ _ _ Hinv) as [Hc Hun].
  destruct (calculate_probabilities_fast (w_pheromone w) points alpha beta n Hsh Hpts
              (current_point a) (where_not 0 (visited a)) Hc Hun) as [ps Hps].
  unfold walk_step in H.
  apply bind_Raise in H as [(ph & w1 & [= <- <-] & H) | H]; [|discriminate H].
  apply bind_Raise in H as [(ps' & w1 & Hps' & H) | H];
    [|unfold lift in H; congruence].
  apply lift_Ok in Hps' as [Hps' ->].
  apply bind_Raise in H as [(next & w1 & Hnext & H) | H];
    [|eapply choice_Raise, H].
  exfalso. apply choice_Ok in Hnext as (Hin & _).
  assert (Hlt : next < n).
  { eapply Forall_forall in Hun; [exact Hun | exact Hin]. }
  destruct (lookup_lt_is_Some_2 points (current_point a)) as [p1 Hp1]; [lia|].
  destruct (lookup_lt_is_Some_2 points next) as [p2 Hp2]; [lia|].
  destruct Hinv as (Hlen & _).
  revert H. unfold bind, lift, ret, getitem, setitem. rewrite Hp1, Hp2. simpl.
  destruct (decide (next < length (visited a))); [discriminate | lia].
Qed.

Lemma walk_fast (points : list (point F)) (alpha beta : F) (n start fuel : nat)
    (a : ant F) (w w' : world F) (e : exn) :
  ant_inv points Fast n start a →
  shape (w_pheromone w) = replicate n n → length points = n →
  walk tape points alpha beta Fast fuel a w = (Raise e, w') → e = ValueError.
Proof.
  intros Hinv Hsh Hpts. revert a w Hinv Hsh.
  induction fuel as [|fuel IH]; intros a w Hinv Hsh; simpl;
    case_bool_decide as Hf; try discriminate.
  intros H. apply bind_Raise in H as [(a1 & w1 & Hstep & H) | H].
  - pose proof (walk_step_Ok _ _ _ _ _ _ _ _ _ Hstep) as (? & ? & _ & _ & _ & Hph & _).
    apply (walk_step_inv _ _ _ _ _ n start) in Hstep as [Hinv' _]; [|exact Hinv].
    eapply IH; [exact Hinv' | rewrite Hph; exact Hsh | exact H].
  - eapply walk_step_fast; eassumption.
Qed.

Lemma ants_loop_fast (points : list (point F)) (alpha beta : F) (n start k : nat)
    (ps : list (list nat)) (ls : list (num F)) (w w' : world F) (e : exn) :
  start < n → shape (w_pheromone w) = replicate n n → length points = n →
  ants_loop tape k start n points alpha beta Fast ps ls w = (Raise e, w') →
  e = ValueError.
Proof.
  intros Hstart Hsh Hpts. revert ps ls w Hsh.
  induction k as [|k IH]; intros ps ls w Hsh; simpl; [discriminate|].
  intros H. apply bind_Raise in H as [(a & w1 & Hant & H) | H].
  - apply one_ant_Ok in Hant as (_ & _ & Hph & _).
    eapply IH; [rewrite Hph; exact Hsh | exact H].
  - unfold one_ant in H.
    apply bind_Raise in H as [(v & w1 & Hset & H) | H].
    + apply lift_Ok in Hset as [Hset ->]. apply setitem_Ok in Hset as [_ ->].
      eapply walk_fast; [apply one_ant_inv, Hstart | exact Hsh | exact Hpts | exact H].
    + exfalso. revert H. unfold lift, setitem. rewrite length_replicate.
      destruct (decide (start < n)); [discriminate | lia].
Qed.

(** X11.  In fast mode, on [n] points and a matrix of [n] rows of length
    [n], and from a start node in range, [generate_paths] fails in
    [numpy.random.choice] or not at all: the only exception it can raise
    is the [ValueError] of a probability vector that NumPy rejects.  No
    index is out of range and no division or power raises. *)
Theorem fast_paths_fail_in_choice_only (ants : Z) (start n : nat)
    (points : list (point F)) (alpha beta : F) (w w' : world F) (e : exn) :
  start < n → shape (w_pheromone w) = replicate n n → length points = n →
  generate_paths tape ants start n points alpha beta Fast w = (Raise e, w') →
  e = ValueError.
Proof. intros Hstart Hsh Hpts. apply ants_loop_fast; assumption. Qed.

Lemma py_index_from_total (l : list (num F)) (i : nat) (obj : nat * num F) :
  i ≤ obj.1 → obj.1 < i + length l →
  ∃ j, py_index_from l i obj = Ok j ∧ j < i + length l.
Proof.
  revert i. induction l as [|x l IH]; intros i Hle Hlt; simpl in *; [lia|].
  destruct ((i =? obj.1) || num_eqb x obj.2) eqn:E.
  - exists i. split; [reflexivity | lia].
  - apply orb_false_iff in E as [E _]. apply Nat.eqb_neq in E.
    destruct (IH (S i)) as (j & Hj & Hlt'); [lia | lia |].
    exists j. split; [exact Hj | lia].
Qed.

(** Where [min] succeeds, the path of that length is found. *)
Lemma min_path_total (paths : list (list nat)) (lengths : list (num F))
    (m : nat * num F) :
  py_min lengths = Ok m → length paths = length lengths →
  ∃ p, min_path paths lengths = Ok p.
Proof.
  intros Hmin Hlen. unfold min_path. rewrite Hmin. cbn [obind].
  pose proof (py_min_lookup _ _ Hmin) as Hm. apply lookup_lt_Some in Hm.
  destruct (py_index_from_total lengths 0 m) as (j & Hj & Hlt); [lia | lia |].
  unfold py_index. rewrite Hj. cbn [obind].
  destruct (lookup_lt_is_Some_2 paths j) as [p Hp]; [lia|].
  exists p. apply getitem_Ok, Hp.
Qed.

Lemma round_starts_range (n : nat) (iterations : Z) :
  Forall (fun s => s < n) (round_starts n iterations).
Proof.
  apply Forall_forall. intros s Hs. unfold round_starts in Hs.
  apply list_elem_of_In, in_flat_map in Hs as (x & Hx & Hs).
  apply list_elem_of_In, elem_of_replicate in Hs as [-> _].
  apply list_elem_of_In, elem_of_seq in Hx. lia.
Qed.

Section Run.

Variable locations : list (location F).
Variables ants iterations : Z.
Variables alpha beta evaporation_rate Q : F.

Local Abbreviation n_ := (n_locations locations).

(** A round keeps the shape of the matrix, whatever its outcome and in
    either mode. *)
Lemma round_shape (speed : speed_mode) (start : nat) (b : best F) :
  preserves (fun w => shape (w_pheromone w) = replicate n_ n_)
    (round tape locations ants alpha beta evaporation_rate Q speed start b).
Proof.
  unfold round. apply preserves_bind.
  { intros w o w' H Hw.
    assert (Hf : same_but_rng w w')
      by (eapply (generate_paths_frame tape w); [exact H | repeat split]).
    destruct Hf as (-> & _). exact Hw. }
  intros [paths lengths]. simpl. apply preserves_bind.
  { intros w o w' H Hw.
    assert (Hf : update_frame w w')
      by (eapply (update_pheromone_frame w); [exact H | repeat split]).
    destruct Hf as (-> & _). exact Hw. }
  intros []. preserving.
  - intros w o w' [= <- <-] Hw. exact Hw.
  - match goal with |- preserves _ (if ?c then _ else _) => destruct c end;
      preserving.
Qed.

Local Abbreviation round_ :=
  (round tape locations ants alpha beta evaporation_rate Q Fast).
Local Abbreviation run_ :=
  (ant_colony_optimization tape locations ants iterations alpha beta
     evaporation_rate Q Fast).

Lemma round_fast (start : nat) (b : best F) (w w' : world F) (e : exn) :
  2 ≤ n_ → start < n_ → shape (w_pheromone w) = replicate n_ n_ →
  round_ start b w = (Raise e, w') →
  e = ValueError ∨ ∃ x, py_int x = Throw e.
Proof.
  intros Hn Hstart Hsh H. unfold round in H.
  assert (Hpts : length (points locations) = n_).
  { unfold points. rewrite length_map. reflexivity. }
  apply bind_Raise in H as [([paths lengths] & w1 & Hgen & H) | H].
  2: { left. eapply ants_loop_fast; [exact Hstart | exact Hsh | exact Hpts | exact H]. }
  cbn [fst snd] in H.
  destruct (round_update_typed tape _ _ _ _ _ _ evaporation_rate Q _ _ _ _ _ Hgen Hn Hsh)
    as [_ Hupd].
  destruct (Hupd eq_refl) as [w2 Hw2].
  assert (Hlen : length paths = length lengths).
  { unfold generate_paths in Hgen.
    apply ants_loop_Ok in Hgen as (ps & ls & -> & -> & _ & Hall & _).
    simpl. eapply Forall2_length, Hall. }
  revert H. unfold bind at 1. rewrite Hw2.
  unfold bind, lift, ret, append_log.
  destruct (py_min lengths) as [m|e1|] eqn:Hmin.
  - destruct (num_int m.2) as [km|e2|] eqn:Hkm.
    + destruct (min_path_total paths lengths m Hmin Hlen) as [p Hp]. rewrite Hp.
      destruct (num_lt m.2 (best_path_length b)); discriminate.
    + intros [= <- _]. right. destruct m.2 as [z|x|x]; simpl in Hkm;
        [discriminate | |]; exists x; destruct (py_int x); simpl in Hkm; congruence.
    + discriminate.
  - intros [= <- _]. left. destruct lengths; simpl in Hmin; congruence.
  - discriminate.
Qed.

Lemma rounds_fast (starts : list nat) (b : best F) (w w' : world F) (e : exn) :
  2 ≤ n_ → Forall (fun s => s < n_) starts →
  shape (w_pheromone w) = replicate n_ n_ →
  for_loop starts round_ b w = (Raise e, w') →
  e = ValueError ∨ ∃ x, py_int x = Throw e.
Proof.
  intros Hn Hall. revert b w.
  induction Hall as [|s starts Hs _ IH]; intros b w Hsh H; simpl in H; [discriminate|].
  apply bind_Raise in H as [(b1 & w1 & Hround & H) | H].
  - eapply IH; [|exact H]. eapply round_shape; [exact Hround | exact Hsh].
  - eapply round_fast; eassumption.
Qed.

(** X12.  In fast mode and with two locations or more, a run can fail in
    three ways only: with the [ValueError] of [numpy.random.choice] (or of
    [min] when there is no ant), with the exception [int] raises on a
    length that is no finite number, or with the [TypeError] of a best
    path that is still [None] after the rounds.  It raises neither
    [IndexError] nor [ZeroDivisionError], unless [int] does. *)
Theorem fast_run_failures (w w' : world F) (e : exn) :
  2 ≤ n_ → run_ w = (Raise e, w') →
  e = ValueError ∨ e = TypeError ∨ ∃ x, py_int x = Throw e.
Proof.
  intros Hn H. unfold ant_colony_optimization in H.
  apply bind_Raise in H as [([] & w1 & [= <-] & H) | H]; [|discriminate H].
  apply bind_Raise in H as [(b & w2 & Hrounds & H) | H].
  - rewrite rounds_as_list in Hrounds.
    eapply rounds_best_inv with (new := []) (old := w_logs w) in Hrounds
      as (new & _ & _ & Hb); [|simpl; rewrite app_nil_r; reflexivity | exact I].
    destruct (best_path b) as [bp|] eqn:Hbp.
    + destruct (report_returns locations Fast b bp _ w2 Hbp Hb) as (r & w3 & Hr).
      rewrite Hr in H. discriminate H.
    + injection H as <- _. right. left. reflexivity.
  - rewrite rounds_as_list in H. apply rounds_fast in H as [He | He]; auto.
    + apply round_starts_range.
    + simpl. apply shape_ones.
Qed.

End Run.

End Progress.

(** ** The views *)

Section ViewFacts.

Context {F : Type} {NE : NumEnv F}.
Variable tape : nat → nat.

(** An input the driver cannot handle ends the run with an exception, and
    only the matrix has changed by then. *)
Lemma run_invalid (locations : list (location F)) (ants iterations : Z)
    (alpha beta evaporation_rate Q : F) (speed : speed_mode) (w : world F) :
  length locations < 2 ∨ (ants < 1)%Z ∨ (iterations < 1)%Z →
  ∃ e ph,
    ant_colony_optimization tape locations ants iterations alpha beta
      evaporation_rate Q speed w = (Raise e, with_pheromone w ph).
Proof.
  intros Hbad.
  destruct (decide (length locations = 0 ∨ (iterations <= 0)%Z)) as [H0 | H0].
  { do 2 eexists. unfold ant_colony_optimization.
    unfold bind at 1. unfold put_pheromone at 1.
    unfold bind at 1. rewrite rounds_none by exact H0. reflexivity. }
  unfold ant_colony_optimization, rounds, n_locations.
  destruct (Z.to_nat iterations) as [|j] eqn:Hj; [lia|].
  destruct (decide (ants <= 0)%Z) as [Ha | Ha].
  - destruct (length locations) as [|n'] eqn:Hn; [lia|].
    do 2 eexists. cbn [seq for_loop]. unfold bind at 1. unfold put_pheromone at 1.
    unfold bind at 1. unfold bind at 1. unfold bind at 1.
    rewrite round_no_ants by exact Ha. reflexivity.
  - assert (Hn : length locations = 1) by lia. rewrite Hn.
    do 2 eexists. cbn [seq for_loop]. unfold bind at 1. unfold put_pheromone at 1.
    unfold bind at 1. unfold bind at 1. unfold bind at 1.
    rewrite (round_one_place _ _ _ _ _ _ _ _ _ _ fone) by (auto; lia). reflexivity.
Qed.

(** X13.  [delete_city] always answers 204 with the event
    [citiesListChanged] and touches no key but [cities].  With an index
    in range it removes the city at that index: the cities before it stay
    where they are and those after it move down by one.  With any other
    index, negative or too large, and with no [cities] key at all, the
    session is left as it was; a negative index does not count from the
    end. *)
Theorem delete_city_effect (index : Z) (s : session F) :
  let cities := default [] (s_cities s) in
  let out := delete_city index s in
  out.1 = NoContent ["citiesListChanged"] ∧
  (s_result out.2 = s_result s ∧ s_logs out.2 = s_logs s ∧
   s_params out.2 = s_params s ∧ s_best_path out.2 = s_best_path s ∧
   s_best_path_length out.2 = s_best_path_length s) ∧
  ((0 <= index < Z.of_nat (length cities))%Z →
   ∃ cities', s_cities out.2 = Some cities' ∧
              S (length cities') = length cities ∧
              ∀ j, cities' !! j = if decide (j < Z.to_nat index) then cities !! j
                                  else cities !! S j) ∧
  (¬ (0 <= index < Z.of_nat (length cities))%Z → out.2 = s).
Proof.
  cbn zeta. unfold delete_city.
  destruct ((0 <=? index)%Z && (index <? Z.of_nat (length (default [] (s_cities s))))%Z)
    eqn:Hin.
  - apply andb_true_iff in Hin as [H0 H1].
    apply Z.leb_le in H0. apply Z.ltb_lt in H1. simpl.
    split; [reflexivity|]. split; [repeat split|]. split; [|intros Hout; lia].
    intros _. eexists. split; [reflexivity|]. split.
    + rewrite length_delete; [lia|]. apply lookup_lt_is_Some. lia.
    + intros j. destruct (decide (j < Z.to_nat index)) as [Hj | Hj].
      * apply list_lookup_delete_lt, Hj.
      * apply list_lookup_delete_ge. lia.
  - simpl. split; [reflexivity|]. split; [repeat split|]. split; [|reflexivity].
    intros [H0 H1]. apply andb_false_iff in Hin as [Hin | Hin].
    + apply Z.leb_gt in Hin. lia.
    + apply Z.ltb_ge in Hin. lia.
Qed.

(** X14.  [config] answers in one of two ways.  Either it renders its
    page: then [result] is [False] and the cities, the parameters and the
    best path and length of an earlier run are what they were, whatever
    the driver raised.  Or it answers 204 with the three events: then the
    request was a POST with a valid form, [result] is [True], the form is
    stored under [params], the cities are stored in the order of the best
    route, which is a permutation of the cities there were, [best_path]
    holds their ids in that order, and the log has one line for each of
    the [n * iterations] rounds. *)
Theorem config_answers (post : bool) (form : option (params F)) (s : session F)
    (rng : nat) :
  let out := config tape post form s rng in
  (out.1.1 = Page "ants/config.html" ∧
   s_result out.1.2 = Some false ∧
   s_cities out.1.2 = s_cities s ∧ s_params out.1.2 = s_params s ∧
   s_best_path out.1.2 = s_best_path s ∧
   s_best_path_length out.1.2 = s_best_path_length s) ∨
  (out.1.1 = NoContent ["citiesListChanged"; "logsListChanged"; "paramsListChanged"] ∧
   post = true ∧
   s_result out.1.2 = Some true ∧
   s_params out.1.2 = form ∧
   ∃ p cities cities' logs,
     form = Some p ∧ s_cities s = Some cities ∧
     s_cities out.1.2 = Some cities' ∧ cities' ≡ₚ cities ∧
     s_best_path out.1.2 = Some (loc_id <$> cities') ∧
     s_logs out.1.2 = Some logs ∧
     length logs = length cities * Z.to_nat (p_iterations p)).
Proof.
  cbn zeta. unfold config.
  destruct (s_cities s) as [[|c cs]|] eqn:Hc;
    try (left; simpl; repeat split; reflexivity).
  destruct post; [|left; simpl; repeat split; reflexivity].
  destruct form as [p|]; [|left; simpl; repeat split; reflexivity].
  destruct (ant_colony_optimization _ _ _ _ _ _ _ _ _ _) as [o w'] eqn:Hrun.
  destruct o as [r| |].
  - right. simpl.
    apply run_Ok in Hrun
      as (b & bp & km & new & Hbp & Hb & Hlines & Hlogs & Hv & Hids & _ & Hkey & _).
    unfold best_inv in Hb. rewrite Hbp in Hb. destruct Hb as (Hperm & _).
    do 4 (split; [reflexivity|]).
    exists p, (c :: cs), r.2, (w_logs w').
    split; [reflexivity|]. split; [reflexivity|]. split; [reflexivity|].
    split; [eapply visits_all; [exact Hv | exact Hperm]|].
    split; [rewrite Hkey, Hids; reflexivity|]. split; [reflexivity|].
    simpl in Hlogs. rewrite Hlogs.
    apply Forall2_length in Hlines. rewrite <- Hlines.
    apply (round_starts_length (c :: cs)).
  - left. apply failed_run_keys in Hrun as [Hbp Hkm]; [|discriminate].
    simpl in *. repeat split; assumption.
  - left. apply failed_run_keys in Hrun as [Hbp Hkm]; [|discriminate].
    simpl in *. repeat split; assumption.
Qed.

(** X15.  [config] hides an input the driver cannot handle.  A POST with a
    valid form but fewer than two cities, no ant or no iteration is
    answered like a request that runs nothing: the page, [result] set to
    [False], an empty log, the other keys and the generator as they
    were.  Nothing tells the two apart. *)
Theorem config_hides_invalid_input (p : params F) (cities : list (location F))
    (s : session F) (rng : nat) :
  s_cities s = Some cities →
  length cities < 2 ∨ (p_ants p < 1)%Z ∨ (p_iterations p < 1)%Z →
  config tape true (Some p) s rng = (Page "ants/config.html", reset_result s, rng) ∧
  config tape false None s rng = (Page "ants/config.html", reset_result s, rng).
Proof.
  intros Hc Hbad. unfold config, reset_result. rewrite Hc.
  destruct cities as [|c cs]; [split; reflexivity|]. split; [|reflexivity].
  destruct (run_invalid (c :: cs) (p_ants p) (p_iterations p) (p_alpha p) (p_beta p)
              (p_evaporation_rate p) (p_q p) (p_speed p)
              (World [] rng [] (s_best_path s) (s_best_path_length s)) Hbad)
    as (e & ph & Hrun).
  rewrite Hrun. reflexivity.
Qed.

(** X16.  Whatever [config] answers, the log it leaves in the session has
    the lines of the first rounds of its run and nothing else; after a
    run that was aborted these lines stay, with [result] set to
    [False]. *)
Theorem config_logs_follow_the_rounds (post : bool) (form : option (params F))
    (s : session F) (rng : nat) :
  ∃ logs,
    s_logs (config tape post form s rng).1.2 = Some logs ∧
    ((post = false ∨ form = None ∨ s_cities s = None) → logs = []) ∧
    ∀ cities p,
      s_cities s = Some cities → form = Some p →
      Forall2 (line_of_round (points cities) (p_speed p) (length cities))
              (take (length logs) (round_starts (length cities) (p_iterations p)))
              logs.
Proof.
  unfold config.
  destruct (s_cities s) as [[|c cs]|] eqn:Hc;
    try (exists []; simpl; split; [reflexivity|]; split; [reflexivity|];
         intros; constructor).
  destruct post;
    [|exists []; simpl; split; [reflexivity|]; split; [reflexivity|]; intros; constructor].
  destruct form as [p|];
    [|exists []; simpl; split; [reflexivity|]; split; [reflexivity|]; intros; constructor].
  destruct (ant_colony_optimization _ _ _ _ _ _ _ _ _ _) as [o w'] eqn:Hrun.
  apply run_log_any in Hrun as (new & Hlogs & Hall & _). simpl in Hlogs.
  exists new. split; [destruct o; simpl; rewrite Hlogs; reflexivity|].
  split; [intros [H | [H | H]]; discriminate|].
  intros cities p' [= <-] [= <-]. exact Hall.
Qed.

End ViewFacts.

(** ** The theorems at concrete inputs *)

Lemma generate_paths_permutations_witness :
  ∃ paths lengths w',
    generate_paths first_tape 2 1 3 (points three_places) (Fin 1) (Fin 1) Fast ones_world
      = (Ok (paths, lengths), w') ∧
    length paths = Z.to_nat 2 ∧
    Forall (fun p => p ≡ₚ seq 0 3 ∧ NoDup p ∧ length p = 3 ∧
                     (∀ i, i < 3 → i ∈ p) ∧ head p = Some 1) paths.
Proof.
  do 3 eexists. split; [vm_compute; reflexivity|].
  eapply (generate_paths_permutations first_tape 2 1 3 (points three_places)
            (Fin 1) (Fin 1) Fast) with (w := ones_world).
  vm_compute. reflexivity.
Defined.

Lemma generate_paths_open_length_witness :
  ∃ paths lengths w',
    generate_paths second_tape 1 0 3 (points three_places) (Fin 1) (Fin 1) Slow ones_world
      = (Ok (paths, lengths), w') ∧
    Forall2 (fun p l =>
               open_length (points three_places) Slow p = Ok l ∧
               length (open_edges p) = 3 - 1 ∧
               (∀ i a b, open_edges p !! i = Some (a, b) ↔
                         p !! i = Some a ∧ p !! (i + 1) = Some b) ∧
               (∀ c, (c, 0) ∉ open_edges p))
            paths lengths.
Proof.
  do 3 eexists. split; [vm_compute; reflexivity|].
  eapply (generate_paths_open_length second_tape 1 0 3 (points three_places)
            (Fin 1) (Fin 1) Slow) with (w := ones_world).
  vm_compute. reflexivity.
Defined.

Lemma update_pheromone_entries_witness :
  ∃ w',
    update_pheromone [[1; 0; 2]; [1; 2; 0]] [NpFloat (Fin 3); PyFloat (Fin 2)]
      (Fin (1 # 2)) (Fin 1) 3 ones_world = (Ok tt, w') ∧
    entry (w_pheromone w') 0 2 = Some (Fin (5 # 6)) ∧
    entry (w_pheromone w') 0 2 =
    Some (fold_left fadd
            (deposits_on 0 2 (Fin 1)
               (zip [[1; 0; 2]; [1; 2; 0]] [NpFloat (Fin 3); PyFloat (Fin 2)]))
            (fmul (Fin 1) (Fin (1 # 2)))).
Proof.
  eexists. split; [vm_compute; reflexivity|]. split; [vm_compute; reflexivity|].
  eapply (update_pheromone_entries [[1; 0; 2]; [1; 2; 0]]
            [NpFloat (Fin 3); PyFloat (Fin 2)] (Fin (1 # 2)) (Fin 1) 3 ones_world).
  - vm_compute. reflexivity.
  - repeat constructor; apply (bool_decide_unpack _); vm_compute; exact I.
  - vm_compute. reflexivity.
Defined.


Lemma best_path_length_never_increases_witness :
  ∃ b' w',
    round first_tape three_places 2 (Fin 1) (Fin 1) (Fin (1 # 2)) (Fin 1) Fast 0
      (Best None (PyFloat PInf)) ones_world = (Ok b', w') ∧
    not_longer b' (Best None (PyFloat PInf)).
Proof.
  do 2 eexists. split; [vm_compute; reflexivity|].
  eapply (best_path_length_never_increases first_tape three_places 2 (Fin 1) (Fin 1)
            (Fin (1 # 2)) (Fin 1) Fast 0) with (w := ones_world).
  vm_compute. reflexivity.
Defined.

Lemma invalid_input_is_not_validated_witness :
  ant_colony_optimization first_tape one_place 3 5 (Fin 1) (Fin 1) (Fin (1 # 2)) (Fin 1)
    Fast fresh_world
  = (Raise ZeroDivisionError, World [[Fin (1 # 2)]] 0 [] None None).
Proof.
  change (World [[Fin (1 # 2)]] 0 [] None None)
    with (with_pheromone fresh_world (evaporated_once 1 (Fin (1 # 2)))).
  apply (proj1 (invalid_input_is_not_validated first_tape one_place 3 5 (Fin 1) (Fin 1)
                  (Fin (1 # 2)) (Fin 1) Fast fresh_world)); [reflexivity | lia | lia].
Defined.

Lemma probabilities_are_normalised_scores_witness :
  ∃ probabilities scores,
    calculate_probabilities (w_pheromone ones_world) 0 [1; 2] (points three_places)
      (Fin 1) (Fin 2) Fast = Ok probabilities ∧
    probabilities = [Fin (4 # 5); Fin (1 # 5)] ∧
    Forall2 (fun j s => ∃ x d dp,
               entry (w_pheromone ones_world) 0 j = Some x ∧
               distance_at (points three_places) Fast 0 j = Ok d ∧
               num_pow d (Fin 2) = Ok dp ∧
               s = fdiv (fpow x (Fin 1)) (to_F dp))
            [1; 2] scores ∧
    probabilities = map (fun s => fdiv s (npsum scores)) scores ∧
    (ExactLaws xq xq_env →
     Forall (fun s => ffinite s = true) scores → positive (npsum scores) →
     npsum probabilities = fone).
Proof.
  eexists.
  destruct (probabilities_are_normalised_scores (w_pheromone ones_world) 0
              [1; 2] (points three_places) (Fin 1) (Fin 2) Fast
              [Fin (4 # 5); Fin (1 # 5)]) as (scores & H).
  - vm_compute. reflexivity.
  - exists scores. split; [vm_compute; reflexivity|]. split; [reflexivity | exact H].
Defined.

Lemma distance_to_itself_is_zero_witness :
  distance (Point (Fin (511 # 10)) (Fin (17 # 1))) (Point (Fin (511 # 10)) (Fin (17 # 1))) Slow
  = Ok (PyFloat (Fin 0)) ∧
  distance (Point (Fin (511 # 10)) (Fin (17 # 1))) (Point (Fin (511 # 10)) (Fin (17 # 1))) Fast
  = Ok (NpFloat (Fin 0)).
Proof.
  split.
  - apply (distance_to_itself_is_zero xq_zero (Point (Fin (511 # 10)) (Fin (17 # 1))) Slow);
      [reflexivity | reflexivity | intros _; repeat split].
  - apply (distance_to_itself_is_zero xq_zero (Point (Fin (511 # 10)) (Fin (17 # 1))) Fast);
      [reflexivity | reflexivity | discriminate].
Defined.

Lemma run_logs_one_entry_per_round_witness :
  ∃ r w',
    ant_colony_optimization first_tape three_places 2 2 (Fin 1) (Fin 1) (Fin (1 # 2))
      (Fin 1) Fast fresh_world = (Ok r, w') ∧
    length (w_logs w') = 6 ∧
    length (w_logs w') = length (w_logs fresh_world) + 3 * Z.to_nat 2.
Proof.
  do 2 eexists. split; [vm_compute; reflexivity|]. split; [vm_compute; reflexivity|].
  eapply (run_logs_one_entry_per_round first_tape three_places 2 2 (Fin 1) (Fin 1)
            (Fin (1 # 2)) (Fin 1) Fast) with (w := fresh_world).
  vm_compute. reflexivity.
Defined.

Lemma best_updated_on_strict_improvement_only_witness :
  let b := Best (Some [2; 0; 1]) (NpFloat (Fin (8349 # 25))) in
  ∃ b' w',
    round first_tape three_places 2 (Fin 1) (Fin 1) (Fin (1 # 2)) (Fin 1) Fast 1
      b ones_world = (Ok b', w') ∧
    log_path <$> w_logs w' = [[1; 0; 2]] ∧
    b' = b.
Proof.
  cbn zeta. do 2 eexists. split; [vm_compute; reflexivity|].
  split; [vm_compute; reflexivity|].
  edestruct (best_updated_on_strict_improvement_only first_tape three_places 2 (Fin 1)
               (Fin 1) (Fin (1 # 2)) (Fin 1) Fast 1)
    with (b := Best (Some [2; 0; 1]) (NpFloat (Fin (8349 # 25)))) (w := ones_world)
    as [H _].
  - vm_compute. reflexivity.
  - vm_compute. reflexivity.
  - vm_compute. reflexivity.
  - apply H. vm_compute. reflexivity.
Defined.

Lemma generate_paths_reads_only_witness :
  ∃ paths lengths w',
    generate_paths first_tape 2 1 3 (points three_places) (Fin 1) (Fin 1) Fast ones_world
      = (Ok (paths, lengths), w') ∧
    same_but_rng ones_world w' ∧
    w_rng w' = w_rng ones_world + Z.to_nat 2 * (3 - 1) ∧
    length lengths = length paths.
Proof.
  do 3 eexists. split; [vm_compute; reflexivity|].
  edestruct (generate_paths_reads_only first_tape 2 1 3 (points three_places)
               (Fin 1) (Fin 1) Fast ones_world) as [Hsame Hret];
    [vm_compute; reflexivity|].
  split; [exact Hsame|]. apply Hret. reflexivity.
Defined.

Lemma calculate_probabilities_size_witness :
  calculate_probabilities (w_pheromone ones_world) 3 [1; 2] (points three_places)
    (Fin 1) (Fin 1) Fast = Raise IndexError.
Proof.
  apply (calculate_probabilities_size (w_pheromone ones_world) 3 [1; 2]
           (points three_places) (Fin 1) (Fin 1) Fast);
    [discriminate | vm_compute; lia].
Defined.

Lemma update_pheromone_keeps_shape_witness :
  ∃ w',
    update_pheromone [[1; 0; 2]; [1; 2; 0]] [NpFloat (Fin 3); PyFloat (Fin 0)]
      (Fin (1 # 2)) (Fin 1) 3 ones_world = (Raise ZeroDivisionError, w') ∧
    shape (w_pheromone w') = shape (w_pheromone ones_world) ∧
    w_rng w' = w_rng ones_world ∧ w_logs w' = w_logs ones_world ∧
    w_best_path w' = w_best_path ones_world ∧
    w_best_path_length w' = w_best_path_length ones_world.
Proof.
  eexists. split; [vm_compute; reflexivity|].
  eapply (update_pheromone_keeps_shape [[1; 0; 2]; [1; 2; 0]]
            [NpFloat (Fin 3); PyFloat (Fin 0)] (Fin (1 # 2)) (Fin 1) 3 ones_world).
  vm_compute. reflexivity.
Defined.

Lemma fast_round_update_succeeds_witness :
  ∃ paths lengths w1,
    generate_paths first_tape 2 1 3 (points three_places) (Fin 1) (Fin 1) Fast ones_world
      = (Ok (paths, lengths), w1) ∧
    Forall (typed_by Fast) lengths ∧
    (Fast = Fast →
     ∃ w2, update_pheromone paths lengths (Fin (1 # 2)) (Fin 1) 3 w1 = (Ok tt, w2)).
Proof.
  do 3 eexists. split; [vm_compute; reflexivity|].
  eapply (fast_round_update_succeeds first_tape 2 1 3 (points three_places)
            (Fin 1) (Fin 1) (Fin (1 # 2)) (Fin 1) Fast) with (w := ones_world).
  - vm_compute. reflexivity.
  - lia.
  - reflexivity.
Defined.

Lemma returned_route_visits_every_location_witness :
  ∃ r w',
    ant_colony_optimization first_tape three_places 2 2 (Fin 1) (Fin 1) (Fin (1 # 2))
      (Fin 1) Fast fresh_world = (Ok r, w') ∧
    r.2 ≡ₚ three_places ∧ r.1 = loc_id <$> r.2 ∧ w_best_path w' = Some r.1.
Proof.
  do 2 eexists. split; [vm_compute; reflexivity|].
  eapply (returned_route_visits_every_location first_tape three_places 2 2 (Fin 1)
            (Fin 1) (Fin (1 # 2)) (Fin 1) Fast) with (w := fresh_world).
  vm_compute. reflexivity.
Defined.

Lemma session_km_is_route_length_witness :
  ∃ r w',
    ant_colony_optimization second_tape three_places 2 2 (Fin 1) (Fin 1) (Fin (1 # 2))
      (Fin 1) Slow fresh_world = (Ok r, w') ∧
    ∃ bp l m km,
      visits three_places bp r.2 ∧
      open_length (points three_places) Slow bp = Ok l ∧
      (l = m ∨ num_eqb l m = true) ∧
      num_int m = Ok km ∧
      w_best_path_length w' = Some km.
Proof.
  do 2 eexists. split; [vm_compute; reflexivity|].
  eapply (session_km_is_route_length second_tape three_places 2 2 (Fin 1)
            (Fin 1) (Fin (1 # 2)) (Fin 1) Slow) with (w := fresh_world).
  vm_compute. reflexivity.
Defined.

Lemma log_lines_follow_the_rounds_witness :
  ∃ w',
    ant_colony_optimization first_tape three_places 1 1 (Fin 1) (Fin 1) (Fin 0)
      (Fin 0) Fast stale_world = (Raise ValueError, w') ∧
    w_logs w' = [LogEntry 222 [0; 1; 2]] ∧
    ∃ new, w_logs w' = w_logs stale_world ++ new ∧
           Forall2 (line_of_round (points three_places) Fast 3)
                   (take (length new) (round_starts 3 1)) new.
Proof.
  eexists. split; [vm_compute; reflexivity|]. split; [vm_compute; reflexivity|].
  edestruct (log_lines_follow_the_rounds first_tape three_places 1 1 (Fin 1)
               (Fin 1) (Fin 0) (Fin 0) Fast stale_world) as (new & Hlogs & Hlines & _);
    [vm_compute; reflexivity|].
  exists new. split; [exact Hlogs | exact Hlines].
Defined.

Lemma result_is_a_logged_line_witness :
  ∃ r w',
    ant_colony_optimization first_tape three_places 2 2 (Fin 1) (Fin 1) (Fin (1 # 2))
      (Fin 1) Fast fresh_world = (Ok r, w') ∧
    ∃ e, e ∈ drop (length (w_logs fresh_world)) (w_logs w') ∧
         visits three_places (log_path e) r.2 ∧
         w_best_path_length w' = Some (log_km e).
Proof.
  do 2 eexists. split; [vm_compute; reflexivity|].
  eapply (result_is_a_logged_line first_tape three_places 2 2 (Fin 1)
            (Fin 1) (Fin (1 # 2)) (Fin 1) Fast) with (w := fresh_world).
  vm_compute. reflexivity.
Defined.

Lemma run_draws_witness :
  ∃ r w',
    ant_colony_optimization first_tape three_places 2 2 (Fin 1) (Fin 1) (Fin (1 # 2))
      (Fin 1) Fast fresh_world = (Ok r, w') ∧
    w_rng w' = 24 ∧
    w_rng w' = w_rng fresh_world + 3 * Z.to_nat 2 * (Z.to_nat 2 * (3 - 1)).
Proof.
  do 2 eexists. split; [vm_compute; reflexivity|]. split; [vm_compute; reflexivity|].
  eapply (run_draws first_tape three_places 2 2 (Fin 1)
            (Fin 1) (Fin (1 # 2)) (Fin 1) Fast) with (w := fresh_world).
  vm_compute. reflexivity.
Defined.

Lemma failed_run_keeps_session_keys_witness :
  ∃ w',
    ant_colony_optimization first_tape three_places 1 1 (Fin 1) (Fin 1) (Fin 0)
      (Fin 0) Fast stale_world = (Raise ValueError, w') ∧
    w_best_path w' = Some ["a"; "b"; "c"] ∧ w_best_path_length w' = Some 222%Z.
Proof.
  eexists. split; [vm_compute; reflexivity|].
  eapply (failed_run_keeps_session_keys first_tape three_places 1 1 (Fin 1)
            (Fin 1) (Fin 0) (Fin 0) Fast stale_world).
  - vm_compute. reflexivity.
  - discriminate.
Defined.

Lemma delete_city_effect_witness :
  (delete_city 1 three_session).1 = NoContent ["citiesListChanged"] ∧
  (∃ cities', s_cities (delete_city 1 three_session).2 = Some cities' ∧
              S (length cities') = 3 ∧
              ∀ j, cities' !! j = if decide (j < 1) then three_places !! j
                                  else three_places !! S j) ∧
  (delete_city (-1) three_session).2 = three_session ∧
  (delete_city 3 three_session).2 = three_session.
Proof.
  pose proof (delete_city_effect 1 three_session) as (H1 & _ & H2 & _).
  pose proof (delete_city_effect (-1) three_session) as (_ & _ & _ & H3).
  pose proof (delete_city_effect 3 three_session) as (_ & _ & _ & H4).
  split; [exact H1|]. split; [apply H2; simpl; lia|].
  split; [apply H3 | apply H4]; simpl; lia.
Defined.

Lemma config_answers_witness :
  let out := config first_tape true (Some short_run) three_session 0 in
  out.1.1 = NoContent ["citiesListChanged"; "logsListChanged"; "paramsListChanged"] ∧
  ∃ cities' logs,
    s_cities out.1.2 = Some cities' ∧ cities' ≡ₚ three_places ∧
    s_best_path out.1.2 = Some (loc_id <$> cities') ∧
    s_logs out.1.2 = Some logs ∧ length logs = 3 * Z.to_nat 2.
Proof.
  cbn zeta.
  destruct (config_answers first_tape true (Some short_run) three_session 0)
    as [(Hpage & _) | (Hdone & _ & _ & _ & p & cities & cities' & logs
                       & Hp & Hc & Hc' & Hperm & Hbp & Hlogs & Hlen)].
  - vm_compute in Hpage. discriminate Hpage.
  - split; [exact Hdone|]. exists cities', logs.
    injection Hp as <-. injection Hc as <-. auto.
Defined.

Lemma config_hides_invalid_input_witness :
  config first_tape true (Some short_run) stale_session 7
  = (Page "ants/config.html", reset_result stale_session, 7) ∧
  config first_tape false None stale_session 7
  = (Page "ants/config.html", reset_result stale_session, 7).
Proof.
  apply (config_hides_invalid_input first_tape short_run one_place stale_session 7);
    [reflexivity | left; vm_compute; lia].
Defined.

Lemma config_logs_follow_the_rounds_witness :
  ∃ logs,
    s_logs (config first_tape true (Some short_run) three_session 0).1.2 = Some logs ∧
    Forall2 (line_of_round (points three_places) Fast 3)
            (take (length logs) (round_starts 3 2)) logs.
Proof.
  destruct (config_logs_follow_the_rounds first_tape true (Some short_run)
              three_session 0) as (logs & Hlogs & _ & Hlines).
  exists logs. split; [exact Hlogs|].
  apply (Hlines three_places short_run); reflexivity.
Defined.

Lemma fast_paths_fail_in_choice_only_witness :
  ∃ e w',
    generate_paths first_tape 1 1 3 (points three_places) (Fin 1) (Fin 1) Fast
      (with_pheromone fresh_world
         (replicate 3 (replicate 3 (Fin 0))))
      = (Raise e, w') ∧
    e = ValueError.
Proof.
  do 2 eexists. split; [vm_compute; reflexivity|].
  eapply (fast_paths_fail_in_choice_only first_tape 1 1 3 (points three_places)
            (Fin 1) (Fin 1)
            (with_pheromone fresh_world
               (replicate 3 (replicate 3 (Fin 0)))));
    [lia | reflexivity | reflexivity | vm_compute; reflexivity].
Defined.

Lemma fast_run_failures_witness :
  ∃ e w',
    ant_colony_optimization first_tape three_places 1 1 (Fin 1) (Fin 1) (Fin 0)
      (Fin 0) Fast stale_world = (Raise e, w') ∧
    (e = ValueError ∨ e = TypeError ∨ ∃ x : xq, py_int x = Throw e).
Proof.
  do 2 eexists. split; [vm_compute; reflexivity|].
  eapply (fast_run_failures first_tape three_places 1 1 (Fin 1) (Fin 1) (Fin 0)
            (Fin 0) stale_world);
    [vm_compute; lia | vm_compute; reflexivity].
Defined.
